(** * Identity reconciliation service: the [identify] operation

    A shallow embedding of the contact store client ([PostgresDBClient]),
    of [identify] and of the API Gateway [handler], followed by the
    properties of the reconciliation algorithm.

    Modelling decisions.
    - A table is the list of its rows in heap order; timestamps are integers
      (what [Date.getTime] returns); ids are integers.
    - A JavaScript value of type [string | null | undefined] is an
      [option string]; [None] stands for both [null] and [undefined], which
      the code never tells apart.  The empty string is a value of its own:
      it is falsy, but not [null].
    - A [string] is a text held as its UTF-8 bytes, as the database holds
      it.  JavaScript compares two texts by their UTF-16 code units
      ([codeUnits]), which is not the order of the bytes.
    - [Array.prototype.sort] is stable; it is modelled by a stable insertion
      sort.  [ORDER BY "createdAt" ASC] is modelled by the same sort over the
      heap order.
    - Every [client.query] may be rejected.  The rejections are chosen by an
      oracle [fails] over the running number of client calls.
    - [contact_id_seq] is a sequence: it is not restored by [ROLLBACK]. *)

From Stdlib Require Import List ZArith Bool Ascii String Lia.
From Stdlib Require Import Sorted Permutation Relations.
Import ListNotations.
Open Scope Z_scope.

Set Implicit Arguments.

(** ** Data model ([types.ts], [schema.sql]) *)

Inductive LinkPrecedence : Type :=
| primary
| secondary.

Record Contact : Type := mkContact {
  id : Z;
  phoneNumber : option string;
  email : option string;
  linkedId : option Z;
  linkPrecedence : LinkPrecedence;
  createdAt : Z;
  updatedAt : Z;
  deletedAt : option Z
}.

Record IdentifyRequest : Type := mkRequest {
  req_email : option string;
  req_phoneNumber : option string
}.

Record IdentifyResponse : Type := mkResponse {
  primaryContactId : Z;
  emails : list string;
  phoneNumbers : list string;
  secondaryContactIds : list Z
}.

(** The argument of [createContact]: a contact without [id] and timestamps. *)
Record ContactData : Type := mkData {
  data_phoneNumber : option string;
  data_email : option string;
  data_linkedId : option Z;
  data_linkPrecedence : LinkPrecedence
}.

(** The argument of [updateContacts]: a partial contact.  What
    [updateContacts] reads of it: [data.linkPrecedence] and
    [data.linkedId], where [None] is [undefined] (the key is missing or
    holds [undefined]) and, for [linkedId], [Some v] sets the column to
    [v]; and whether the object has a key at all.  [patch_otherKeys] says
    that it has a key besides a [linkPrecedence] and a [linkedId] that
    are defined: [phoneNumber], [email], or one of these two keys holding
    [undefined]. *)
Record ContactPatch : Type := mkPatch {
  patch_linkPrecedence : option LinkPrecedence;
  patch_linkedId : option (option Z);
  patch_otherKeys : bool
}.

(** [Object.keys(data).length === 0] *)
Definition hasNoKey (data : ContactPatch) : bool :=
  match patch_linkPrecedence data, patch_linkedId data with
  | None, None => negb (patch_otherKeys data)
  | _, _ => false
  end.

Definition isPrimary (c : Contact) : bool :=
  match linkPrecedence c with primary => true | secondary => false end.

Definition isSecondary (c : Contact) : bool :=
  match linkPrecedence c with primary => false | secondary => true end.

(** ["deletedAt" IS NULL] *)
Definition live (c : Contact) : bool :=
  match deletedAt c with None => true | Some _ => false end.

(** ** JavaScript values *)

(** Truthiness of a [string | null | undefined]. *)
Definition truthy (v : option string) : bool :=
  match v with
  | Some s => negb (s =? "")%string
  | None => false
  end.

(** [v || null] *)
Definition orNull (v : option string) : option string :=
  if truthy v then v else None.

(** [a === b] where [a] is a string and [b] a nullable column. *)
Definition strictEq (a : string) (b : option string) : bool :=
  match b with
  | Some s => (a =? s)%string
  | None => false
  end.

Definition optZ_eqb (a b : option Z) : bool :=
  match a, b with
  | Some x, Some y => x =? y
  | None, None => true
  | _, _ => false
  end.

Definition memZ (x : Z) (l : list Z) : bool := existsb (Z.eqb x) l.

Definition memStr (x : string) (l : list string) : bool :=
  existsb (String.eqb x) l.

(** [Set.prototype.add]: insertion order, no duplicate. *)
Definition setAddZ (s : list Z) (x : Z) : list Z :=
  if memZ x s then s else s ++ [x].

Definition setAddStr (s : list string) (x : string) : list string :=
  if memStr x s then s else s ++ [x].

(** [Map.prototype.set]: a present key keeps its position and takes the new
    value; a new key goes last. *)
Fixpoint mapSet (k : Z) (v : Contact) (m : list (Z * Contact))
  : list (Z * Contact) :=
  match m with
  | [] => [(k, v)]
  | (k', v') :: m' =>
      if k =? k' then (k, v) :: m' else (k', v') :: mapSet k v m'
  end.

(** [new Map(entries)] *)
Definition mapOf (entries : list (Z * Contact)) : list (Z * Contact) :=
  fold_left (fun m kv => mapSet (fst kv) (snd kv) m) entries [].

(** [Array.from(m.values())] *)
Definition mapValues (m : list (Z * Contact)) : list Contact := map snd m.

(** Stable sort; [le a b] says that the comparator is not positive. *)
Section Sort.
Variable A : Type.
Variable le : A -> A -> bool.

Fixpoint insertSorted (x : A) (l : list A) : list A :=
  match l with
  | [] => [x]
  | y :: l' => if le x y then x :: y :: l' else y :: insertSorted x l'
  end.

Definition jsSort (l : list A) : list A := fold_right insertSorted [] l.
End Sort.

(** [(a, b) => a.createdAt.getTime() - b.createdAt.getTime()] *)
Definition byCreatedAt (a b : Contact) : bool := createdAt a <=? createdAt b.

(** *** The order of strings *)

(** A continuation byte of UTF-8. *)
Definition isContinuation (b : N) : bool := ((128 <=? b) && (b <? 192))%N.

(** The UTF-16 code units of a code point: itself, or a surrogate pair. *)
Definition utf16 (cp : N) : list N :=
  if (cp <? 65536)%N then [cp]
  else [(55296 + N.shiftr (cp - 65536) 10)%N;
        (56320 + N.land (cp - 65536) 1023)%N].

(** The UTF-16 code units of a text given by its UTF-8 bytes, which is
    the JavaScript string that the driver makes of a column.  The texts
    of the table are well-formed UTF-8; a byte that starts no sequence is
    read as U+FFFD. *)
Fixpoint codeUnits (s : string) : list N :=
  match s with
  | EmptyString => []
  | String c0 r0 =>
      let b0 := Ascii.N_of_ascii c0 in
      if (b0 <? 128)%N then b0 :: codeUnits r0
      else
        match r0 with
        | EmptyString => [65533%N]
        | String c1 r1 =>
            let b1 := Ascii.N_of_ascii c1 in
            if ((192 <=? b0) && (b0 <? 224) && isContinuation b1)%N then
              utf16 ((b0 - 192) * 64 + (b1 - 128))%N ++ codeUnits r1
            else
              match r1 with
              | EmptyString => 65533%N :: codeUnits r0
              | String c2 r2 =>
                  let b2 := Ascii.N_of_ascii c2 in
                  if ((224 <=? b0) && (b0 <? 240)
                      && isContinuation b1 && isContinuation b2)%N then
                    utf16 ((b0 - 224) * 4096 + (b1 - 128) * 64
                           + (b2 - 128))%N
                    ++ codeUnits r2
                  else
                    match r2 with
                    | EmptyString => 65533%N :: codeUnits r0
                    | String c3 r3 =>
                        let b3 := Ascii.N_of_ascii c3 in
                        if ((240 <=? b0) && (b0 <? 248)
                            && isContinuation b1 && isContinuation b2
                            && isContinuation b3)%N then
                          utf16 ((b0 - 240) * 262144 + (b1 - 128) * 4096
                                 + (b2 - 128) * 64 + (b3 - 128))%N
                          ++ codeUnits r3
                        else 65533%N :: codeUnits r0
                    end
              end
        end
  end.

(** Lexicographic order of two sequences of code units. *)
Fixpoint unitsLeb (a b : list N) : bool :=
  match a, b with
  | [], _ => true
  | _ :: _, [] => false
  | x :: a', y :: b' =>
      if (x <? y)%N then true
      else if (y <? x)%N then false
      else unitsLeb a' b'
  end.

(** The default comparator of [Array.prototype.sort] on strings is not
    positive: the first is not after the second in the order of the
    UTF-16 code units. *)
Definition byCodeUnits (a b : string) : bool :=
  unitsLeb (codeUnits a) (codeUnits b).

(** ** The database *)

(** The committed rows of [Contact], the sequence behind [id SERIAL], the
    rows as the open transaction of the client sees them, and the number of
    calls made on the pool and the client so far. *)
Record Db : Type := mkDb {
  table : list Contact;
  seq : Z;
  session : option (list Contact);
  qcount : nat
}.

Inductive Error : Type :=
| ValidationError (message : string)
| QueryError (n : nat)
| ConnectError (n : nat)
| ParseError.

Definition M (A : Type) : Type := Db -> (Error + A) * Db.

Definition ret {A} (a : A) : M A := fun d => (inr a, d).

Definition throw {A} (e : Error) : M A := fun d => (inl e, d).

Definition bind {A B} (m : M A) (k : A -> M B) : M B :=
  fun d =>
    match m d with
    | (inr a, d') => k a d'
    | (inl e, d') => (inl e, d')
    end.

(** [try { body } catch (error) { handler error }] *)
Definition tryCatch {A} (body : M A) (handler : Error -> M A) : M A :=
  fun d =>
    match body d with
    | (inr a, d') => (inr a, d')
    | (inl e, d') => handler e d'
    end.

Notation "x <- m ;; k" := (bind m (fun x => k))
  (at level 61, m at next level, right associativity).
Notation "m ;;; k" := (bind m (fun _ => k))
  (at level 61, right associativity).

(** [for (const x of l) { acc = await f(acc, x) }] *)
Fixpoint forEachM {A S} (f : S -> A -> M S) (l : list A) (acc : S) : M S :=
  match l with
  | [] => ret acc
  | x :: l' => acc' <- f acc x ;; forEachM f l' acc'
  end.

(** [await Promise.all(l.map(f))]: the client runs its queries one at a
    time, in the order of the calls. *)
Fixpoint mapM {A B} (f : A -> M B) (l : list A) : M (list B) :=
  match l with
  | [] => ret []
  | x :: l' => y <- f x ;; ys <- mapM f l' ;; ret (y :: ys)
  end.

(** *** What the statements compute *)

Definition working (d : Db) : list Contact :=
  match session d with
  | Some w => w
  | None => table d
  end.

(** Outside a transaction a statement commits at once. *)
Definition setWorking (w : list Contact) (d : Db) : Db :=
  match session d with
  | Some _ => mkDb (table d) (seq d) (Some w) (qcount d)
  | None => mkDb w (seq d) None (qcount d)
  end.

Definition sqlBegin (d : Db) : Db :=
  match session d with
  | Some _ => d
  | None => mkDb (table d) (seq d) (Some (table d)) (qcount d)
  end.

Definition sqlCommit (d : Db) : Db :=
  match session d with
  | Some w => mkDb w (seq d) None (qcount d)
  | None => d
  end.

Definition sqlRollback (d : Db) : Db :=
  mkDb (table d) (seq d) None (qcount d).

(** [column = $n] for a parameter that is a string. *)
Definition sqlEq (column : option string) (param : option string) : bool :=
  match param with
  | Some x => strictEq x column
  | None => false
  end.

(** [WHERE (email = $1 OR "phoneNumber" = $2) AND "deletedAt" IS NULL], with
    one condition for each truthy argument, and [WHERE 1=0] without any. *)
Definition matchesIdentifiers (e p : option string) (c : Contact) : bool :=
  ((truthy e && sqlEq (email c) e) || (truthy p && sqlEq (phoneNumber c) p))
  && live c.

Definition selectContacts (e p : option string) (rows : list Contact)
  : list Contact :=
  jsSort byCreatedAt (filter (matchesIdentifiers e p) rows).

(** [WHERE id = $1 AND "deletedAt" IS NULL] *)
Definition selectById (i : Z) (rows : list Contact) : list Contact :=
  filter (fun c => (id c =? i) && live c) rows.

(** [WHERE "linkedId" = $1 AND "deletedAt" IS NULL] *)
Definition selectByLinkedId (i : Z) (rows : list Contact) : list Contact :=
  filter (fun c => optZ_eqb (linkedId c) (Some i) && live c) rows.

(** [WHERE (id = $1 OR "linkedId" = $1) AND "deletedAt" IS NULL
    ORDER BY "createdAt" ASC] *)
Definition inGroup (i : Z) (c : Contact) : bool :=
  ((id c =? i) || optZ_eqb (linkedId c) (Some i)) && live c.

Definition selectGroup (i : Z) (rows : list Contact) : list Contact :=
  jsSort byCreatedAt (filter (inGroup i) rows).

(** The row that [INSERT ... RETURNING] builds: the id comes from the
    sequence, both timestamps default to the current one. *)
Definition newContact (now nextId : Z) (data : ContactData) : Contact :=
  mkContact nextId (data_phoneNumber data) (data_email data)
            (data_linkedId data) (data_linkPrecedence data) now now None.

(** [UPDATE Contact SET ... WHERE id IN (ids)] on one row. *)
Definition applyPatch (now : Z) (ids : list Z) (data : ContactPatch)
           (c : Contact) : Contact :=
  if memZ (id c) ids then
    mkContact (id c) (phoneNumber c) (email c)
              (match patch_linkedId data with
               | Some v => v
               | None => linkedId c
               end)
              (match patch_linkPrecedence data with
               | Some v => v
               | None => linkPrecedence c
               end)
              (createdAt c) now (deletedAt c)
  else c.

Definition updateRows (now : Z) (ids : list Z) (data : ContactPatch)
           (rows : list Contact) : list Contact :=
  map (applyPatch now ids data) rows.

(** ** [PostgresDBClient] *)

Section Client.
(** [fails n]: the call number [n] is rejected. *)
Variable fails : nat -> bool.
(** The current timestamp of the transaction. *)
Variable now : Z.

Definition tick (d : Db) : Db :=
  mkDb (table d) (seq d) (session d) (S (qcount d)).

(** [await pool.connect()] *)
Definition connect : M unit :=
  fun d =>
    if fails (qcount d) then (inl (ConnectError (qcount d)), tick d)
    else (inr tt, tick d).

(** [await client.query(...)]: a rejected statement changes nothing. *)
Definition query {A} (exec : Db -> A * Db) : M A :=
  fun d =>
    if fails (qcount d) then (inl (QueryError (qcount d)), tick d)
    else let (a, d') := exec (tick d) in (inr a, d').

Definition queryBegin : M unit := query (fun d => (tt, sqlBegin d)).
Definition queryCommit : M unit := query (fun d => (tt, sqlCommit d)).
Definition queryRollback : M unit := query (fun d => (tt, sqlRollback d)).

Definition transaction {T} (callback : M T) : M T :=
  connect ;;;
  tryCatch
    (queryBegin ;;;
     result <- callback ;;
     queryCommit ;;;
     ret result)
    (fun error => queryRollback ;;; throw error).

Definition findContacts (e p : option string) : M (list Contact) :=
  query (fun d => (selectContacts e p (working d), d)).

Definition createContact (data : ContactData) : M Contact :=
  query (fun d =>
           let c := newContact now (seq d) data in
           let d' := setWorking (working d ++ [c]) d in
           (c, mkDb (table d') (seq d + 1) (session d') (qcount d'))).

Definition updateContacts (ids : list Z) (data : ContactPatch) : M unit :=
  if (match ids with [] => true | _ :: _ => false end) || hasNoKey data
  then ret tt
  else
    query (fun d => (tt, setWorking (updateRows now ids data (working d)) d)).

(** [res.rows[0]] *)
Definition findById (i : Z) : M (option Contact) :=
  query (fun d => (hd_error (selectById i (working d)), d)).

Definition findByLinkedId (i : Z) : M (list Contact) :=
  query (fun d => (selectByLinkedId i (working d), d)).

Definition queryAllLinkedContacts (primaryId : Z) : M (list Contact) :=
  query (fun d => (selectGroup primaryId (working d), d)).

(** ** [identify] *)

(** The [for] loop that collects the [linkedId]s of the secondaries. *)
Definition linkedIdsOf (secondaryContacts : list Contact) : list Z :=
  fold_left
    (fun s c =>
       match linkedId c with
       | Some l => setAddZ s l
       | None => s
       end)
    secondaryContacts [].

(** The test of the loop over [linkedPrimaryIds]. *)
Definition pushIfPrimary (acc : list Contact) (found : option Contact)
  : list Contact :=
  match found with
  | Some p => if isPrimary p then acc ++ [p] else acc
  | None => acc
  end.

(** Unique primaries, oldest first. *)
Definition uniqueSorted (primaryContacts : list Contact) : list Contact :=
  jsSort byCreatedAt
         (mapValues (mapOf (map (fun p => (id p, p)) primaryContacts))).

(** The body of the loop over [currentReconciledGroup]. *)
Definition exactMatch (e p : option string) (c : Contact) : bool :=
  let emailMatches :=
    match e with None => true | Some x => strictEq x (email c) end in
  let phoneMatches :=
    match p with None => true | Some x => strictEq x (phoneNumber c) end in
  emailMatches && phoneMatches.

(** The loop sets [exactMatchFoundInGroup] at the first such contact. *)
Definition exactMatchFoundInGroup (e p : option string)
           (group : list Contact) : bool :=
  existsb (exactMatch e p) group.

(** The [forEach] over [allLinkedContacts] and the returned object. *)
Definition collectEmails (group : list Contact) : list string :=
  fold_left
    (fun s c =>
       match email c with
       | Some x => if truthy (Some x) then setAddStr s x else s
       | None => s
       end)
    group [].

Definition collectPhones (group : list Contact) : list string :=
  fold_left
    (fun s c =>
       match phoneNumber c with
       | Some x => if truthy (Some x) then setAddStr s x else s
       | None => s
       end)
    group [].

Definition collectSecondaryIds (ultimateId : Z) (group : list Contact)
  : list Z :=
  map id
      (filter (fun c => isSecondary c && optZ_eqb (linkedId c) (Some ultimateId))
              group).

Definition assemble (ultimatePrimary : Contact)
           (allLinkedContacts : list Contact) : IdentifyResponse :=
  mkResponse (id ultimatePrimary)
             (jsSort byCodeUnits (collectEmails allLinkedContacts))
             (jsSort byCodeUnits (collectPhones allLinkedContacts))
             (jsSort Z.leb
                     (collectSecondaryIds (id ultimatePrimary)
                                          allLinkedContacts)).

Definition validationMessage : string :=
  "At least one of email or phoneNumber must be provided.".

(** "Gather primaries from linked secondaries", then "Ensure unique
    primary contacts and sort by creation date (oldest first)". *)
Definition loadCandidates (e p : option string) : M (list Contact) :=
  existingContacts <- findContacts e p ;;
  let primaryContacts := filter isPrimary existingContacts in
  let secondaryContacts :=
    filter (fun c => negb (isPrimary c)) existingContacts in
  let linkedPrimaryIds := linkedIdsOf secondaryContacts in
  primaryContacts <-
    forEachM (fun acc i => found <- findById i ;; ret (pushIfPrimary acc found))
             linkedPrimaryIds primaryContacts ;;
  ret (uniqueSorted primaryContacts).

(** "Demote other primaries to secondary, linking them to the ultimate
    primary", then "Re-link secondaries that were pointing to now-demoted
    primaries". *)
Definition demoteOthers (ultimatePrimary : Contact) (others : list Contact)
  : M unit :=
  let demotedPrimaryIds := map id others in
  match demotedPrimaryIds with
  | [] => ret tt
  | _ :: _ =>
      updateContacts demotedPrimaryIds
        (mkPatch (Some secondary) (Some (Some (id ultimatePrimary))) false) ;;;
      found <- mapM findByLinkedId demotedPrimaryIds ;;
      let secondariesToRelink := List.concat found in
      match secondariesToRelink with
      | [] => ret tt
      | _ :: _ =>
          updateContacts (map id secondariesToRelink)
            (mkPatch None (Some (Some (id ultimatePrimary))) false)
      end
  end.

(** "Check if a new secondary contact needs to be created". *)
Definition createSecondaryIfNew (e p : option string)
           (ultimatePrimary : Contact) : M unit :=
  currentReconciledGroup <- queryAllLinkedContacts (id ultimatePrimary) ;;
  if negb (exactMatchFoundInGroup e p currentReconciledGroup)
     && (truthy e || truthy p)
  then
    createContact
      (mkData (orNull p) (orNull e) (Some (id ultimatePrimary)) secondary) ;;;
    ret tt
  else ret tt.

(** The callback handed to [db.transaction]. *)
Definition identifyCallback (e p : option string) : M IdentifyResponse :=
  primaryContacts <- loadCandidates e p ;;
  ultimatePrimary <-
    match primaryContacts with
    | [] =>
        createContact (mkData (orNull p) (orNull e) None primary)
    | ultimatePrimary :: others =>
        demoteOthers ultimatePrimary others ;;;
        createSecondaryIfNew e p ultimatePrimary ;;;
        ret ultimatePrimary
    end ;;
  allLinkedContacts <- queryAllLinkedContacts (id ultimatePrimary) ;;
  ret (assemble ultimatePrimary allLinkedContacts).

Definition identify (request : IdentifyRequest) : M IdentifyResponse :=
  let e := req_email request in
  let p := req_phoneNumber request in
  if negb (truthy e) && negb (truthy p)
  then throw (ValidationError validationMessage)
  else transaction (identifyCallback e p).
End Client.

(** ** The API Gateway [handler] *)

Inductive ResponseBody : Type :=
| MessageBody (message : string)
| ErrorMessageBody (error : Error)
| ResultBody (result : IdentifyResponse).

Record APIGatewayProxyResult : Type := mkResult {
  statusCode : Z;
  body : ResponseBody
}.

Section Handler.
Variable fails : nat -> bool.
Variable now : Z.
(** [JSON.parse], which throws on a text that is no request. *)
Variable JSON_parse : string -> option IdentifyRequest.

(** [event.body] is a [string | null]. *)
Definition handler (eventBody : option string)
  : Db -> APIGatewayProxyResult * Db :=
  fun d =>
    if negb (truthy eventBody) then
      (mkResult 400 (MessageBody "Request body is required."), d)
    else
      match
        tryCatch
          (requestBody <-
             match eventBody with
             | Some text =>
                 match JSON_parse text with
                 | Some r => ret r
                 | None => throw ParseError
                 end
             | None => throw ParseError
             end ;;
           result <- identify fails now requestBody ;;
           ret (mkResult 200 (ResultBody result)))
          (fun error => ret (mkResult 500 (ErrorMessageBody error)))
          d
      with
      | (inr r, d') => (r, d')
      | (inl error, d') => (mkResult 500 (ErrorMessageBody error), d')
      end.
End Handler.

(** No call is ever rejected. *)
Definition noFaults : nat -> bool := fun _ => false.

(** ** What [identify] does to the rows when no call is rejected *)

(** The candidate primaries: the primaries found directly, then the
    primaries of the secondaries found, made unique and sorted. *)
Definition candidates (e p : option string) (rows : list Contact)
  : list Contact :=
  let existingContacts := selectContacts e p rows in
  let primaryContacts := filter isPrimary existingContacts in
  let secondaryContacts :=
    filter (fun c => negb (isPrimary c)) existingContacts in
  uniqueSorted
    (fold_left
       (fun acc i => pushIfPrimary acc (hd_error (selectById i rows)))
       (linkedIdsOf secondaryContacts) primaryContacts).

Definition demotePatch (u : Contact) : ContactPatch :=
  mkPatch (Some secondary) (Some (Some (id u))) false.

Definition relinkPatch (u : Contact) : ContactPatch :=
  mkPatch None (Some (Some (id u))) false.

(** The demotion of the other primaries and the relinking of their
    secondaries. *)
Definition mergeRows (now : Z) (u : Contact) (others : list Contact)
           (rows : list Contact) : list Contact :=
  match map id others with
  | [] => rows
  | demoted =>
      let rows1 := updateRows now demoted (demotePatch u) rows in
      match List.concat (map (fun i => selectByLinkedId i rows1) demoted) with
      | [] => rows1
      | relink => updateRows now (map id relink) (relinkPatch u) rows1
      end
  end.

(** The test that guards the creation of a secondary. *)
Definition needsSecondary (e p : option string) (u : Contact)
           (rows : list Contact) : bool :=
  negb (exactMatchFoundInGroup e p (selectGroup (id u) rows))
  && (truthy e || truthy p).

Definition secondaryFor (now nextId : Z) (e p : option string) (u : Contact)
  : Contact :=
  newContact now nextId (mkData (orNull p) (orNull e) (Some (id u)) secondary).

Definition primaryFor (now nextId : Z) (e p : option string) : Contact :=
  newContact now nextId (mkData (orNull p) (orNull e) None primary).

(** Rows, sequence and response after a request with identifiers [e], [p]. *)
Definition identifyRows (now : Z) (e p : option string)
           (rows : list Contact) (nextId : Z)
  : list Contact * Z * IdentifyResponse :=
  match candidates e p rows with
  | [] =>
      let c := primaryFor now nextId e p in
      let rows' := rows ++ [c] in
      (rows', nextId + 1, assemble c (selectGroup (id c) rows'))
  | u :: others =>
      let rows1 := mergeRows now u others rows in
      if needsSecondary e p u rows1 then
        let rows' := rows1 ++ [secondaryFor now nextId e p u] in
        (rows', nextId + 1, assemble u (selectGroup (id u) rows'))
      else (rows1, nextId, assemble u (selectGroup (id u) rows1))
  end.

(** A request that passes the check at the head of [identify]. *)
Definition validRequest (r : IdentifyRequest) : bool :=
  truthy (req_email r) || truthy (req_phoneNumber r).


(** ** The vocabulary of the properties *)

(** The surviving primary of a request: the oldest candidate, or the
    primary that the request creates when there is no candidate. *)
Definition ultimateOf (now : Z) (e p : option string)
           (rows : list Contact) (nextId : Z) : Contact :=
  match candidates e p rows with
  | [] => primaryFor now nextId e p
  | u :: _ => u
  end.

(** The group of the primary [i]: the live rows that are [i] or refer to
    it. *)
Definition groupOf (i : Z) (rows : list Contact) : list Contact :=
  filter (inGroup i) rows.

(** The secondaries of the group of [i]: the live secondaries that refer
    to [i]. *)
Definition subordinatesOf (i : Z) (rows : list Contact) : list Contact :=
  filter
    (fun c => (isSecondary c && optZ_eqb (linkedId c) (Some i)) && live c)
    rows.

(** A value is present when it is neither [null] nor the empty string,
    which is how [identify] tests it. *)
Definition hasEmail (x : string) (c : Contact) : Prop :=
  email c = Some x /\ x <> ""%string.

Definition hasPhone (x : string) (c : Contact) : Prop :=
  phoneNumber c = Some x /\ x <> ""%string.

Definition ascending (l : list Z) : Prop := StronglySorted Z.le l.

(** The lexicographic order of sequences of code units: a sequence is
    not after another when it is a prefix of it, or when at the first
    place where they differ its unit is the smaller one. *)
Inductive unitsLe : list N -> list N -> Prop :=
| unitsLe_nil : forall b, unitsLe [] b
| unitsLe_lt : forall x y a b, (x < y)%N -> unitsLe (x :: a) (y :: b)
| unitsLe_eq : forall x a b, unitsLe a b -> unitsLe (x :: a) (x :: b).

(** Ascending in the order of JavaScript strings, the lexicographic order
    of their UTF-16 code units. *)
Definition lexAscending (l : list string) : Prop :=
  StronglySorted (fun a b => unitsLe (codeUnits a) (codeUnits b)) l.

(** *** The invariants of the data model *)

(** [id] is the primary key. *)
Definition uniqueIds (rows : list Contact) : Prop := NoDup (map id rows).

(** The sequence is ahead of every id in use. *)
Definition idsBelow (nextId : Z) (rows : list Contact) : Prop :=
  forall c, In c rows -> id c < nextId.

(** [linkedId c] is the id of a live primary of [rows]. *)
Definition resolves (rows : list Contact) (c : Contact) : Prop :=
  exists q,
    In q rows /\ live q = true /\ isPrimary q = true
    /\ linkedId c = Some (id q).

(** Flatness: every live secondary refers to a live primary. *)
Definition flat (rows : list Contact) : Prop :=
  forall c,
    In c rows -> live c = true -> isSecondary c = true -> resolves rows c.

(** Two contacts that hold the same email or the same phone number. *)
Definition shares (a b : Contact) : Prop :=
  (exists x, email a = Some x /\ email b = Some x)
  \/ (exists x, phoneNumber a = Some x /\ phoneNumber b = Some x).

Definition joined (rows : list Contact) (a b : Contact) : Prop :=
  In a rows /\ In b rows /\ live a = true /\ live b = true /\ shares a b.

(** The connected groups: live rows transitively joined by a shared email
    or a shared phone number. *)
Definition connected (rows : list Contact) : Contact -> Contact -> Prop :=
  clos_refl_trans Contact (joined rows).

(** The primary that a row belongs to by its links. *)
Definition rootId (c : Contact) : option Z :=
  if isPrimary c then Some (id c) else linkedId c.

(** [linkedId c] is one of [ids]. *)
Definition refersTo (ids : list Z) (c : Contact) : bool :=
  match linkedId c with
  | Some l => memZ l ids
  | None => false
  end.

(** What a merge into [u] makes of one row, [demoted] being the ids of the
    other candidates: a demoted primary becomes a secondary of [u]; a live
    row that referred to a demoted primary refers to [u]. *)
Definition merged (now : Z) (u : Contact) (demoted : list Z) (c : Contact)
  : Contact :=
  if memZ (id c) demoted then
    mkContact (id c) (phoneNumber c) (email c) (Some (id u)) secondary
              (createdAt c) now (deletedAt c)
  else if live c && refersTo demoted c then
    mkContact (id c) (phoneNumber c) (email c) (Some (id u))
              (linkPrecedence c) (createdAt c) now (deletedAt c)
  else c.

(** Ascending by [createdAt]. *)
Definition oldestFirst (l : list Contact) : Prop :=
  StronglySorted (fun a b => createdAt a <= createdAt b) l.

(** Ascending by [createdAt], ties broken by ascending [id]. *)
Definition oldestFirstThenId (l : list Contact) : Prop :=
  StronglySorted
    (fun a b =>
       createdAt a < createdAt b
       \/ (createdAt a = createdAt b /\ id a <= id b))
    l.

(** Following the words of the specification: a field is satisfied when
    the request does not give it or when some contact of the group holds
    that very value; the pair is represented when both fields are
    satisfied, possibly by two different contacts. *)
Definition fieldSatisfied (v : option string)
           (proj : Contact -> option string) (group : list Contact) : bool :=
  match v with
  | None => true
  | Some x => existsb (fun c => strictEq x (proj c)) group
  end.

Definition pairRepresented (e p : option string) (group : list Contact)
  : bool :=
  fieldSatisfied e email group && fieldSatisfied p phoneNumber group.

(** *** The vocabulary of the client properties *)

(** The contact holds an identifier of the query; an identifier that is
    [null], [undefined] or the empty string selects nothing. *)
Definition holdsIdentifier (e p : option string) (c : Contact) : Prop :=
  (truthy e = true /\ email c = e) \/ (truthy p = true /\ phoneNumber c = p).

(** The columns that no statement of the client rewrites. *)
Definition sameIdentity (c c' : Contact) : Prop :=
  id c' = id c /\ email c' = email c /\ phoneNumber c' = phoneNumber c
  /\ createdAt c' = createdAt c /\ deletedAt c' = deletedAt c.

(** What [updateContacts] does to one row. *)
Definition patchedBy (now : Z) (ids : list Z) (data : ContactPatch)
           (c c' : Contact) : Prop :=
  sameIdentity c c'
  /\ (~ In (id c) ids -> c' = c)
  /\ (In (id c) ids ->
      updatedAt c' = now
      /\ linkPrecedence c'
         = match patch_linkPrecedence data with
           | Some v => v
           | None => linkPrecedence c
           end
      /\ linkedId c'
         = match patch_linkedId data with
           | Some v => v
           | None => linkedId c
           end).

(** A callback that stays inside the transaction it is run in: it leaves
    the committed rows alone and does not close the transaction. *)
Definition staysInSession {A} (m : M A) : Prop :=
  forall d,
    session d <> None ->
    table (snd (m d)) = table d /\ session (snd (m d)) <> None.

(** No call numbered from [lo] up to [hi], [hi] excluded, is rejected. *)
Definition noneRejected (fails : nat -> bool) (lo hi : nat) : Prop :=
  forall k, (lo <= k < hi)%nat -> fails k = false.

(** A program that never hides a rejected call: when it returns a value,
    none of the calls it made was rejected. *)
Definition hidesNoFailure (fails : nat -> bool) {A} (m : M A) : Prop :=
  forall d a d',
    m d = (inr a, d') ->
    (qcount d <= qcount d')%nat /\ noneRejected fails (qcount d) (qcount d').

(** Every [linkedId] in use is below the sequence. *)
Definition refsBelow (nextId : Z) (rows : list Contact) : Prop :=
  forall c l, In c rows -> linkedId c = Some l -> l < nextId.

(** What a request may do to a row that exists: rewrite its links, and
    never make a primary of a secondary. *)
Definition keptBy (c c' : Contact) : Prop :=
  sameIdentity c c' /\ (isSecondary c = true -> isSecondary c' = true).

(** The only row that a request served at [now] with the identifiers [e]
    and [p] may add. *)
Definition createdFor (now nextId : Z) (e p : option string) (c : Contact)
  : Prop :=
  id c = nextId /\ email c = orNull e /\ phoneNumber c = orNull p
  /\ createdAt c = now /\ updatedAt c = now /\ deletedAt c = None.

(** Whatever [m] returns, [m'] returns too, from the same state to the
    same state. *)
Definition answersLike {A} (m m' : M A) : Prop :=
  forall d a d', m d = (inr a, d') -> m' d = (inr a, d').

(** The row [c] once it is a secondary of [u], as a merge at [now] writes
    it. *)
Definition secondaryOf (now : Z) (u c : Contact) : Contact :=
  mkContact (id c) (phoneNumber c) (email c) (Some (id u)) secondary
            (createdAt c) now (deletedAt c).

(** *** The groups and the links *)

(** The links agree with the groups: a live secondary refers to a live
    primary that is connected to it and not younger than it, and two live
    rows that share an email or a phone number belong to the same
    primary. *)
Definition grouped (rows : list Contact) : Prop :=
  (forall c,
      In c rows -> live c = true -> isSecondary c = true ->
      exists q,
        In q rows /\ live q = true /\ isPrimary q = true
        /\ linkedId c = Some (id q)
        /\ createdAt q <= createdAt c
        /\ connected rows c q)
  /\ (forall a b,
         In a rows -> In b rows -> live a = true -> live b = true ->
         shares a b -> rootId a = rootId b).

Definition wellFormed (nextId : Z) (rows : list Contact) : Prop :=
  uniqueIds rows /\ idsBelow nextId rows /\ grouped rows.

(** No row was created after [now]. *)
Definition notAfter (now : Z) (rows : list Contact) : Prop :=
  forall c, In c rows -> createdAt c <= now.

(** The times of the requests do not decrease, from [lo] on. *)
Fixpoint nonDecreasing (lo : Z) (requests : list (Z * IdentifyRequest))
  : Prop :=
  match requests with
  | [] => True
  | nr :: rest => lo <= fst nr /\ nonDecreasing (fst nr) rest
  end.

(** Every connected group has exactly one live primary, and no row of the
    group is older than it. *)
Definition oneOldestPrimary (rows : list Contact) : Prop :=
  forall c,
    In c rows -> live c = true ->
    exists q,
      In q rows /\ live q = true /\ isPrimary q = true
      /\ connected rows c q
      /\ (forall q', In q' rows -> live q' = true -> isPrimary q' = true ->
                     connected rows c q' -> q' = q)
      /\ (forall c', In c' rows -> live c' = true -> connected rows c c' ->
                     createdAt q <= createdAt c').

(** The row holds each identifier of the request that is truthy. *)
Definition holdsAll (e p : option string) (h : Contact) : Prop :=
  (truthy e = true -> email h = e)
  /\ (truthy p = true -> phoneNumber h = p).

(** ** Sequences of requests and the local test suite *)

(** Requests served one after the other, each at its own time. *)
Definition runAll (requests : list (Z * IdentifyRequest)) (d : Db) : Db :=
  fold_left (fun d nr => snd (identify noFaults (fst nr) (snd nr) d))
            requests d.

Definition emptyDb : Db := mkDb [] 1 None 0.

Definition both (e p : string) : IdentifyRequest :=
  mkRequest (Some e) (Some p).

(** TC1 to TC4 of [runLocalTests], one every 100 ms: a group of three
    contacts under the primary 1, and the primary 4 alone. *)
Definition firstTests : list (Z * IdentifyRequest) :=
  [ (100, both "test1@example.com" "1111111111");
    (200, both "test1@example.com" "2222222222");
    (300, both "test1_alt@example.com" "1111111111");
    (400, both "test_merge@example.com" "9999999999") ].

(** TC5, "Merge Two Primary Groups". *)
Definition tc5 : IdentifyRequest := both "test1@example.com" "9999999999".

(** TC6, "Input Already Covered". *)
Definition tc6 : IdentifyRequest :=
  both "test1_alt@example.com" "9999999999".

(** The database after TC1 to TC4. *)
Definition beforeMerge : Db :=
  mkDb
    [ mkContact 1 (Some "1111111111") (Some "test1@example.com") None
                primary 100 100 None;
      mkContact 2 (Some "2222222222") (Some "test1@example.com") (Some 1)
                secondary 200 200 None;
      mkContact 3 (Some "1111111111") (Some "test1_alt@example.com") (Some 1)
                secondary 300 300 None;
      mkContact 4 (Some "9999999999") (Some "test_merge@example.com") None
                primary 400 400 None ]%string
    5 None 26.

(** The database after TC5: the primary 4 is demoted, the secondary 5 is
    new. *)
Definition afterLocalTests : Db :=
  mkDb
    [ mkContact 1 (Some "1111111111") (Some "test1@example.com") None
                primary 100 100 None;
      mkContact 2 (Some "2222222222") (Some "test1@example.com") (Some 1)
                secondary 200 200 None;
      mkContact 3 (Some "1111111111") (Some "test1_alt@example.com") (Some 1)
                secondary 300 300 None;
      mkContact 4 (Some "9999999999") (Some "test_merge@example.com") (Some 1)
                secondary 400 500 None;
      mkContact 5 (Some "9999999999") (Some "test1@example.com") (Some 1)
                secondary 500 500 None ]%string
    6 None 36.

(** Two primaries created within the same millisecond, and a secondary of
    the first one. *)
Definition tieTests : list (Z * IdentifyRequest) :=
  [ (100, both "a@x.com" "111");
    (100, both "b@y.com" "222");
    (200, both "a@x.com" "333") ].

(** The database after [tieTests]. *)
Definition tieDb : Db :=
  mkDb
    [ mkContact 1 (Some "111") (Some "a@x.com") None primary 100 100 None;
      mkContact 2 (Some "222") (Some "b@y.com") None primary 100 100 None;
      mkContact 3 (Some "333") (Some "a@x.com") (Some 1) secondary 200 200
                None ]%string
    4 None 19.

(** The email of the second primary and the phone of the secondary. *)
Definition tieRequest : IdentifyRequest := both "b@y.com" "333".

(** A live secondary whose primary has been deleted. *)
Definition orphanRows : list Contact :=
  [ mkContact 1 (Some "111") (Some "a@x.com") None primary 100 100 (Some 250);
    mkContact 2 (Some "222") (Some "a@x.com") (Some 1) secondary 200 200 None ]%string.

Definition orphanDb : Db := mkDb orphanRows 3 None 0.

(** Two emails outside ASCII, given by their UTF-8 bytes: the first
    begins with U+FF5E (bytes EF BD 9E, one code unit FF5E), the second
    with U+1F600 (bytes F0 9F 98 80, the surrogate pair D83D DE00). *)
Definition tildeEmail : string :=
  String "239"%char (String "189"%char (String "158"%char "@x.com")).

Definition faceEmail : string :=
  String "240"%char
         (String "159"%char (String "152"%char (String "128"%char "@x.com"))).

(** One primary and one secondary that hold them. *)
Definition unicodeDb : Db :=
  mkDb
    [ mkContact 1 (Some "111"%string) (Some tildeEmail) None primary 100 100
                None;
      mkContact 2 (Some "222"%string) (Some faceEmail) (Some 1) secondary
                200 200 None ]
    3 None 0.
(** ** Running [identify] without rejected calls *)

Lemma findById_loop_noFaults (ids : list Z) :
  forall (acc : list Contact) t s w n,
    forEachM
      (fun acc i => found <- findById noFaults i ;; ret (pushIfPrimary acc found))
      ids acc (mkDb t s (Some w) n)
    = (inr (fold_left
              (fun acc i => pushIfPrimary acc (hd_error (selectById i w)))
              ids acc),
       mkDb t s (Some w) (n + List.length ids)%nat).
Proof.
  induction ids as [|i ids IH]; intros acc t s w n.
  - cbn. now rewrite Nat.add_0_r.
  - cbn [forEachM]. unfold bind at 1. unfold bind at 1.
    cbn. unfold tick; cbn [table seq session qcount].
    rewrite IH. unfold selectById. f_equal. f_equal. lia.
Qed.

Lemma findByLinkedId_all_noFaults (ids : list Z) :
  forall t s w n,
    mapM (findByLinkedId noFaults) ids (mkDb t s (Some w) n)
    = (inr (map (fun i => selectByLinkedId i w) ids),
       mkDb t s (Some w) (n + List.length ids)%nat).
Proof.
  induction ids as [|i ids IH]; intros t s w n.
  - cbn. now rewrite Nat.add_0_r.
  - cbn [mapM]. unfold bind at 1. cbn. unfold bind at 1.
    unfold tick; cbn [table seq session qcount]. rewrite IH.
    unfold ret, selectByLinkedId. cbn [List.length].
    now rewrite Nat.add_succ_r.
Qed.

Lemma loadCandidates_noFaults e p t s w n :
  exists n',
    loadCandidates noFaults e p (mkDb t s (Some w) n)
    = (inr (candidates e p w), mkDb t s (Some w) n').
Proof.
  unfold loadCandidates, candidates.
  unfold bind at 1. cbn -[selectContacts].
  unfold tick; cbn [table seq session qcount].
  unfold bind at 1. rewrite findById_loop_noFaults.
  eexists. reflexivity.
Qed.

Lemma demoteOthers_noFaults now u others t s w n :
  exists n',
    demoteOthers noFaults now u others (mkDb t s (Some w) n)
    = (inr tt, mkDb t s (Some (mergeRows now u others w)) n').
Proof.
  unfold demoteOthers, mergeRows.
  destruct (map id others) as [|i ids].
  - eexists. reflexivity.
  - unfold bind at 1. cbn -[updateRows mapM List.concat map].
    unfold tick; cbn [table seq session qcount].
    unfold bind at 1. rewrite findByLinkedId_all_noFaults.
    unfold demotePatch, relinkPatch.
    destruct (List.concat _) as [|c cs].
    + eexists. reflexivity.
    + cbn -[updateRows]. eexists. reflexivity.
Qed.

Lemma createSecondaryIfNew_noFaults now e p u t s w n :
  exists n',
    createSecondaryIfNew noFaults now e p u (mkDb t s (Some w) n)
    = (inr tt,
       if needsSecondary e p u w
       then mkDb t (s + 1) (Some (w ++ [secondaryFor now s e p u])) n'
       else mkDb t s (Some w) n').
Proof.
  unfold createSecondaryIfNew, needsSecondary.
  unfold bind at 1. cbn -[selectGroup exactMatchFoundInGroup].
  unfold tick; cbn [table seq session qcount].
  destruct (negb _ && _).
  - unfold bind. cbn. eexists. reflexivity.
  - eexists. reflexivity.
Qed.

Lemma identifyCallback_noFaults now e p t s w n :
  exists n',
    identifyCallback noFaults now e p (mkDb t s (Some w) n)
    = (inr (snd (identifyRows now e p w s)),
       mkDb t (snd (fst (identifyRows now e p w s)))
            (Some (fst (fst (identifyRows now e p w s)))) n').
Proof.
  unfold identifyCallback, identifyRows.
  destruct (loadCandidates_noFaults e p t s w n) as [n1 H1].
  unfold bind at 1. rewrite H1.
  destruct (candidates e p w) as [|u others].
  - unfold bind. cbn. eexists. reflexivity.
  - destruct (demoteOthers_noFaults now u others t s w n1) as [n2 H2].
    unfold bind at 1. unfold bind at 1. rewrite H2.
    destruct (createSecondaryIfNew_noFaults now e p u t s
                (mergeRows now u others w) n2) as [n3 H3].
    unfold bind at 1. rewrite H3.
    destruct (needsSecondary e p u (mergeRows now u others w)).
    + unfold bind. cbn. eexists. reflexivity.
    + unfold bind. cbn. eexists. reflexivity.
Qed.

(** With no rejected call, a valid request commits [identifyRows]. *)
Lemma identify_noFaults now r t s n :
  validRequest r = true ->
  exists n',
    identify noFaults now r (mkDb t s None n)
    = (inr (snd (identifyRows now (req_email r) (req_phoneNumber r) t s)),
       mkDb (fst (fst (identifyRows now (req_email r) (req_phoneNumber r) t s)))
            (snd (fst (identifyRows now (req_email r) (req_phoneNumber r) t s)))
            None n').
Proof.
  unfold validRequest, identify. intros Hv.
  rewrite <- negb_orb, Hv. cbn [negb].
  set (e := req_email r). set (p := req_phoneNumber r).
  unfold transaction, tryCatch.
  unfold bind at 1. cbn -[identifyCallback bind].
  unfold tick; cbn [table seq session qcount].
  unfold bind at 1. cbn -[identifyCallback bind].
  unfold tick; cbn [table seq session qcount].
  destruct (identifyCallback_noFaults now e p t s t (S (S n))) as [n1 H1].
  unfold bind at 1. rewrite H1. cbn. eexists. reflexivity.
Qed.

(** An invalid request is refused and nothing is called. *)
Lemma identify_invalid fails now r d :
  validRequest r = false ->
  identify fails now r d = (inl (ValidationError validationMessage), d).
Proof.
  unfold validRequest, identify. intros Hv.
  apply orb_false_iff in Hv. destruct Hv as [-> ->]. reflexivity.
Qed.

(** ** Sorting, sets and maps *)

Section SortFacts.
Variable A : Type.
Variable le : A -> A -> bool.

Lemma insertSorted_perm (x : A) (l : list A) :
  Permutation (insertSorted le x l) (x :: l).
Proof.
  induction l as [|y l IH]; cbn.
  - reflexivity.
  - destruct (le x y).
    + reflexivity.
    + rewrite IH. apply perm_swap.
Qed.

Lemma jsSort_perm (l : list A) : Permutation (jsSort le l) l.
Proof.
  induction l as [|x l IH]; cbn.
  - reflexivity.
  - rewrite insertSorted_perm. now constructor.
Qed.

Lemma jsSort_In (x : A) (l : list A) : In x (jsSort le l) <-> In x l.
Proof.
  split; apply Permutation_in;
    [apply jsSort_perm | symmetry; apply jsSort_perm].
Qed.

Hypothesis le_total : forall a b, le a b = true \/ le b a = true.
Hypothesis le_trans :
  forall a b c, le a b = true -> le b c = true -> le a c = true.

Let R (a b : A) : Prop := le a b = true.

Lemma insertSorted_sorted (x : A) (l : list A) :
  StronglySorted R l -> StronglySorted R (insertSorted le x l).
Proof.
  induction 1 as [|y l Hs IH Hy]; cbn.
  - repeat constructor.
  - destruct (le x y) eqn:Hxy.
    + constructor.
      * now constructor.
      * constructor; [exact Hxy|].
        rewrite Forall_forall in *. intros z Hz.
        apply le_trans with y; [exact Hxy | now apply Hy].
    + constructor; [exact IH|].
      rewrite Forall_forall in *. intros z Hz.
      apply (Permutation_in _ (insertSorted_perm x l)) in Hz.
      destruct Hz as [<-|Hz]; [|now apply Hy].
      destruct (le_total x y) as [H|H]; [congruence | exact H].
Qed.

Lemma jsSort_sorted (l : list A) : StronglySorted R (jsSort le l).
Proof.
  induction l as [|x l IH]; cbn.
  - constructor.
  - now apply insertSorted_sorted.
Qed.
End SortFacts.

Lemma byCreatedAt_total (a b : Contact) :
  byCreatedAt a b = true \/ byCreatedAt b a = true.
Proof. unfold byCreatedAt. rewrite !Z.leb_le. lia. Qed.

Lemma byCreatedAt_trans (a b c : Contact) :
  byCreatedAt a b = true -> byCreatedAt b c = true -> byCreatedAt a c = true.
Proof. unfold byCreatedAt. rewrite !Z.leb_le. lia. Qed.

Lemma Zleb_total (a b : Z) : (a <=? b) = true \/ (b <=? a) = true.
Proof. rewrite !Z.leb_le. lia. Qed.

Lemma Zleb_trans (a b c : Z) :
  (a <=? b) = true -> (b <=? c) = true -> (a <=? c) = true.
Proof. rewrite !Z.leb_le. lia. Qed.

(** The order of the default comparator of [sort]. *)
Lemma unitsLeb_spec (a : list N) :
  forall b, unitsLeb a b = true <-> unitsLe a b.
Proof.
  induction a as [|x a IH]; intros [|y b]; cbn.
  - split; [constructor | reflexivity].
  - split; [constructor | reflexivity].
  - split; [discriminate | intros H; inversion H].
  - destruct (x <? y)%N eqn:Hxy.
    + apply N.ltb_lt in Hxy. split; [now constructor | reflexivity].
    + apply N.ltb_ge in Hxy. destruct (y <? x)%N eqn:Hyx.
      * apply N.ltb_lt in Hyx. split; [discriminate|].
        intros H. inversion H; subst; lia.
      * apply N.ltb_ge in Hyx. assert (x = y) by lia. subst y.
        rewrite IH. split; [now constructor|].
        intros H. inversion H; subst; [lia | assumption].
Qed.

Lemma unitsLeb_total (a : list N) :
  forall b, unitsLeb a b = true \/ unitsLeb b a = true.
Proof.
  induction a as [|x a IH]; intros [|y b]; cbn; auto.
  destruct (x <? y)%N eqn:Hxy; [now left|].
  destruct (y <? x)%N eqn:Hyx; [now right|]. apply IH.
Qed.

Lemma unitsLeb_trans (a : list N) :
  forall b c,
    unitsLeb a b = true -> unitsLeb b c = true -> unitsLeb a c = true.
Proof.
  induction a as [|x a IH]; intros [|y b] [|z c]; cbn; try congruence.
  destruct (x <? y)%N eqn:Hxy, (y <? x)%N eqn:Hyx,
           (y <? z)%N eqn:Hyz, (z <? y)%N eqn:Hzy;
    try discriminate; intros H1 H2;
    rewrite ?N.ltb_lt, ?N.ltb_ge in *;
    try (replace (x <? z)%N with true
           by (symmetry; apply N.ltb_lt; lia); reflexivity).
  assert (x = y) by lia. assert (y = z) by lia. subst y z.
  rewrite N.ltb_irrefl. now apply IH with b.
Qed.

Lemma byCodeUnits_total (a b : string) :
  byCodeUnits a b = true \/ byCodeUnits b a = true.
Proof. apply unitsLeb_total. Qed.

Lemma byCodeUnits_trans (a b c : string) :
  byCodeUnits a b = true -> byCodeUnits b c = true -> byCodeUnits a c = true.
Proof. apply unitsLeb_trans. Qed.

Lemma memZ_In (x : Z) (l : list Z) : memZ x l = true <-> In x l.
Proof.
  unfold memZ. rewrite existsb_exists. split.
  - intros (y & Hy & Heq). apply Z.eqb_eq in Heq. now subst.
  - intros H. exists x. split; [exact H | apply Z.eqb_refl].
Qed.

Lemma memStr_In (x : string) (l : list string) : memStr x l = true <-> In x l.
Proof.
  unfold memStr. rewrite existsb_exists. split.
  - intros (y & Hy & Heq). apply String.eqb_eq in Heq. now subst.
  - intros H. exists x. split; [exact H | apply String.eqb_refl].
Qed.

Lemma optZ_eqb_eq (a b : option Z) : optZ_eqb a b = true <-> a = b.
Proof.
  destruct a as [x|], b as [y|]; cbn; try (split; congruence).
  rewrite Z.eqb_eq. split; congruence.
Qed.

Lemma strictEq_eq (a : string) (b : option string) :
  strictEq a b = true <-> b = Some a.
Proof.
  destruct b as [s|]; cbn; [|split; congruence].
  rewrite String.eqb_eq. split; congruence.
Qed.

Lemma setAddZ_In (s : list Z) (x y : Z) :
  In y (setAddZ s x) <-> In y s \/ y = x.
Proof.
  unfold setAddZ. destruct (memZ x s) eqn:Hm.
  - apply memZ_In in Hm. split; [tauto|]. intros [H| ->]; assumption.
  - rewrite in_app_iff. cbn. intuition.
Qed.

Lemma setAddZ_NoDup (s : list Z) (x : Z) : NoDup s -> NoDup (setAddZ s x).
Proof.
  unfold setAddZ. intros Hs. destruct (memZ x s) eqn:Hm; [exact Hs|].
  assert (~ In x s) by (rewrite <- memZ_In; congruence).
  apply NoDup_app; [exact Hs | repeat constructor; cbn; tauto |].
  intros y Hy [<-|[]]. contradiction.
Qed.

Lemma setAddStr_In (s : list string) (x y : string) :
  In y (setAddStr s x) <-> In y s \/ y = x.
Proof.
  unfold setAddStr. destruct (memStr x s) eqn:Hm.
  - apply memStr_In in Hm. split; [tauto|]. intros [H| ->]; assumption.
  - rewrite in_app_iff. cbn. intuition.
Qed.

Lemma setAddStr_NoDup (s : list string) (x : string) :
  NoDup s -> NoDup (setAddStr s x).
Proof.
  unfold setAddStr. intros Hs. destruct (memStr x s) eqn:Hm; [exact Hs|].
  assert (~ In x s) by (rewrite <- memStr_In; congruence).
  apply NoDup_app; [exact Hs | repeat constructor; cbn; tauto |].
  intros y Hy [<-|[]]. contradiction.
Qed.

(** ** The response *)

Lemma Permutation_filter_compat {A} (f : A -> bool) (l l' : list A) :
  Permutation l l' -> Permutation (filter f l) (filter f l').
Proof.
  induction 1 as [|x l l' _ IH|x y l|l l' l'' _ IH1 _ IH2]; cbn.
  - constructor.
  - destruct (f x); [now constructor | exact IH].
  - destruct (f x), (f y); try reflexivity. apply perm_swap.
  - now transitivity (filter f l').
Qed.

Lemma filter_twice {A} (f g : A -> bool) (l : list A) :
  filter f (filter g l) = filter (fun x => g x && f x) l.
Proof.
  induction l as [|x l IH]; cbn; [reflexivity|].
  destruct (g x); cbn; [destruct (f x)|]; now rewrite IH.
Qed.

Lemma selectGroup_perm (i : Z) (rows : list Contact) :
  Permutation (selectGroup i rows) (groupOf i rows).
Proof. apply jsSort_perm. Qed.

Lemma selectGroup_In (i : Z) (rows : list Contact) (c : Contact) :
  In c (selectGroup i rows) <-> In c rows /\ inGroup i c = true.
Proof. unfold selectGroup. rewrite jsSort_In. apply filter_In. Qed.

Lemma truthy_Some (x : string) : truthy (Some x) = true <-> x <> ""%string.
Proof.
  cbn. rewrite negb_true_iff. apply String.eqb_neq.
Qed.

Section Collect.
Variable proj : Contact -> option string.

Let step (s : list string) (c : Contact) : list string :=
  match proj c with
  | Some x => if truthy (Some x) then setAddStr s x else s
  | None => s
  end.

Let has (x : string) (c : Contact) : Prop :=
  proj c = Some x /\ x <> ""%string.

Lemma collect_step (acc : list string) (c : Contact) :
  NoDup acc ->
  NoDup (step acc c) /\ forall x, In x (step acc c) <-> In x acc \/ has x c.
Proof.
  intros Hacc. unfold step, has. destruct (proj c) as [y|].
  - destruct (truthy (Some y)) eqn:Hy.
    + split; [now apply setAddStr_NoDup|].
      intros x. rewrite setAddStr_In. apply truthy_Some in Hy.
      split; intros [H|H]; auto.
      * subst. auto.
      * destruct H as [H _]. injection H as ->. auto.
    + split; [exact Hacc|]. intros x. split; [tauto|].
      intros [H|[H Hx]]; [exact H|]. injection H as ->.
      apply truthy_Some in Hx. congruence.
  - split; [exact Hacc|]. intros x. split; [tauto|].
    intros [H|[H _]]; [exact H | discriminate].
Qed.

Lemma collect_fold (g : list Contact) :
  forall acc,
    NoDup acc ->
    NoDup (fold_left step g acc)
    /\ forall x, In x (fold_left step g acc)
                 <-> In x acc \/ exists c, In c g /\ has x c.
Proof.
  induction g as [|c g IH]; intros acc Hacc; cbn [fold_left].
  - split; [exact Hacc|]. intros x. split; [tauto|].
    intros [H|(c & [] & _)]. exact H.
  - destruct (collect_step c Hacc) as [Hnd Hin].
    destruct (IH _ Hnd) as [IH1 IH2]. split; [exact IH1|].
    intros x. rewrite IH2, Hin. split.
    + intros [[H|H]|(c' & Hc' & H)]; eauto.
      right. exists c. cbn. auto.
      right. exists c'. cbn. auto.
    + intros [H|(c' & [<-|Hc'] & H)]; eauto.
Qed.

Lemma collect_spec (g : list Contact) :
  NoDup (fold_left step g [])
  /\ forall x, In x (fold_left step g []) <-> exists c, In c g /\ has x c.
Proof.
  destruct (collect_fold g (NoDup_nil _)) as [G1 G2]. split; [exact G1|].
  intros x. rewrite G2. cbn. tauto.
Qed.
End Collect.

Lemma collectEmails_spec (g : list Contact) :
  NoDup (collectEmails g)
  /\ forall x, In x (collectEmails g) <-> exists c, In c g /\ hasEmail x c.
Proof. exact (collect_spec email g). Qed.

Lemma collectPhones_spec (g : list Contact) :
  NoDup (collectPhones g)
  /\ forall x, In x (collectPhones g) <-> exists c, In c g /\ hasPhone x c.
Proof. exact (collect_spec phoneNumber g). Qed.

Lemma collectSecondaryIds_perm (i : Z) (rows : list Contact) :
  Permutation (collectSecondaryIds i (selectGroup i rows))
              (map id (subordinatesOf i rows)).
Proof.
  unfold collectSecondaryIds, subordinatesOf.
  apply Permutation_map.
  rewrite (Permutation_filter_compat _ (selectGroup_perm i rows)).
  unfold groupOf. rewrite filter_twice.
  erewrite filter_ext; [reflexivity|].
  intros c. unfold inGroup. cbn.
  destruct (isSecondary c), (optZ_eqb (linkedId c) (Some i)), (live c),
    (id c =? i); reflexivity.
Qed.

Lemma ascending_jsSort (l : list Z) : ascending (jsSort Z.leb l).
Proof.
  unfold ascending.
  eapply StronglySorted_ind with
    (R := fun a b => (a <=? b) = true)
    (P := fun l => StronglySorted Z.le l).
  - constructor.
  - intros a l' _ IH Ha. constructor; [exact IH|].
    eapply Forall_impl; [|exact Ha]. intros b. apply Z.leb_le.
  - apply jsSort_sorted; [apply Zleb_total | apply Zleb_trans].
Qed.

Lemma lexAscending_jsSort (l : list string) :
  lexAscending (jsSort byCodeUnits l).
Proof.
  unfold lexAscending.
  eapply StronglySorted_ind with
    (R := fun a b => byCodeUnits a b = true)
    (P := fun l =>
            StronglySorted (fun a b => unitsLe (codeUnits a) (codeUnits b)) l).
  - constructor.
  - intros a l' _ IH Ha. constructor; [exact IH|].
    eapply Forall_impl; [|exact Ha]. intros b. apply unitsLeb_spec.
  - apply jsSort_sorted; [apply byCodeUnits_total | apply byCodeUnits_trans].
Qed.

(** The response is assembled from the group of the surviving primary in
    the rows that the request leaves. *)
Lemma identifyRows_response now e p rows s :
  snd (identifyRows now e p rows s)
  = assemble (ultimateOf now e p rows s)
             (selectGroup (id (ultimateOf now e p rows s))
                          (fst (fst (identifyRows now e p rows s)))).
Proof.
  unfold identifyRows, ultimateOf.
  destruct (candidates e p rows) as [|u others]; [reflexivity|].
  destruct (needsSecondary e p u _); reflexivity.
Qed.

(** ** The candidate primaries *)

Lemma uniqueIds_inj (rows : list Contact) (a b : Contact) :
  uniqueIds rows -> In a rows -> In b rows -> id a = id b -> a = b.
Proof.
  unfold uniqueIds. induction rows as [|c rows IH]; cbn; [tauto|].
  intros Hnd Ha Hb Hab. inversion Hnd as [|? ? Hc Hnd']; subst.
  destruct Ha as [<-|Ha], Hb as [<-|Hb]; auto.
  - exfalso. apply Hc. rewrite Hab. now apply in_map.
  - exfalso. apply Hc. rewrite <- Hab. now apply in_map.
Qed.

Lemma selectById_hd (i : Z) (rows : list Contact) (c : Contact) :
  hd_error (selectById i rows) = Some c ->
  In c rows /\ id c = i /\ live c = true.
Proof.
  intros H.
  assert (Hin : In c (selectById i rows)).
  { destruct (selectById i rows); cbn in H; [discriminate|].
    injection H as ->. now left. }
  apply filter_In in Hin. destruct Hin as [Hin Hc].
  apply andb_true_iff in Hc. destruct Hc as [Hc Hl].
  apply Z.eqb_eq in Hc. auto.
Qed.

Lemma selectById_unique (rows : list Contact) (c : Contact) :
  uniqueIds rows -> In c rows -> live c = true ->
  hd_error (selectById (id c) rows) = Some c.
Proof.
  intros Hu Hin Hl.
  assert (Hc : In c (selectById (id c) rows)).
  { apply filter_In. split; [exact Hin|]. now rewrite Z.eqb_refl, Hl. }
  destruct (selectById (id c) rows) as [|c' l] eqn:Hs; [destruct Hc|].
  cbn. f_equal.
  assert (Hc' : hd_error (selectById (id c) rows) = Some c')
    by now rewrite Hs.
  apply selectById_hd in Hc'. destruct Hc' as (Hin' & Hid & _).
  symmetry. eapply uniqueIds_inj; eauto.
Qed.

Lemma selectContacts_In (e p : option string) (rows : list Contact)
      (c : Contact) :
  In c (selectContacts e p rows)
  <-> In c rows /\ matchesIdentifiers e p c = true.
Proof. unfold selectContacts. rewrite jsSort_In. apply filter_In. Qed.

Lemma matchesIdentifiers_live (e p : option string) (c : Contact) :
  matchesIdentifiers e p c = true -> live c = true.
Proof. unfold matchesIdentifiers. now intros [_ H]%andb_true_iff. Qed.

Lemma isPrimary_isSecondary (c : Contact) : isSecondary c = negb (isPrimary c).
Proof. unfold isSecondary, isPrimary. now destruct (linkPrecedence c). Qed.

Lemma linkedIdsOf_In (l : list Contact) (i : Z) :
  In i (linkedIdsOf l) <-> exists c, In c l /\ linkedId c = Some i.
Proof.
  unfold linkedIdsOf.
  assert (G : forall acc,
             In i (fold_left
                     (fun s c =>
                        match linkedId c with
                        | Some l => setAddZ s l
                        | None => s
                        end) l acc)
             <-> In i acc \/ exists c, In c l /\ linkedId c = Some i).
  { induction l as [|c l IH]; intros acc; cbn [fold_left].
    - split; [tauto|]. intros [H|(c & [] & _)]. exact H.
    - rewrite IH. split.
      + intros [H|(c' & Hc' & H)].
        * destruct (linkedId c) as [x|] eqn:Hx; [|now left].
          apply setAddZ_In in H. destruct H as [H| ->]; [now left|].
          right. exists c. cbn. auto.
        * right. exists c'. cbn. auto.
      + intros [H|(c' & [<-|Hc'] & H)].
        * left. destruct (linkedId c); [|exact H].
          apply setAddZ_In. now left.
        * left. rewrite H. apply setAddZ_In. now right.
        * right. eauto. }
  rewrite G. cbn. tauto.
Qed.

Lemma pushIfPrimary_In (acc : list Contact) (found : option Contact)
      (c : Contact) :
  In c (pushIfPrimary acc found)
  <-> In c acc \/ (found = Some c /\ isPrimary c = true).
Proof.
  unfold pushIfPrimary. destruct found as [q|].
  - destruct (isPrimary q) eqn:Hq.
    + rewrite in_app_iff. cbn. split.
      * intros [H|[<-|[]]]; auto.
      * intros [H|[H _]]; [now left|]. injection H as ->. auto.
    + split; [tauto|]. intros [H|[H H']]; [exact H|].
      injection H as ->. congruence.
  - split; [tauto|]. intros [H|[H _]]; [exact H | discriminate].
Qed.

Lemma resolved_In (rows : list Contact) (ids : list Z) (c : Contact) :
  forall acc,
    In c (fold_left
            (fun acc i => pushIfPrimary acc (hd_error (selectById i rows)))
            ids acc)
    <-> In c acc
        \/ exists i, In i ids /\ hd_error (selectById i rows) = Some c
                     /\ isPrimary c = true.
Proof.
  induction ids as [|i ids IH]; intros acc; cbn [fold_left].
  - split; [tauto|]. intros [H|(i & [] & _)]. exact H.
  - rewrite IH, pushIfPrimary_In. split.
    + intros [[H|[H1 H2]]|(j & Hj & H)]; auto.
      * right. exists i. cbn. auto.
      * right. exists j. cbn. auto.
    + intros [H|(j & [<-|Hj] & H)]; auto. right. eauto.
Qed.

(** *** [new Map(...)] keeps one contact for each id *)

Lemma mapSet_keys (k : Z) (v : Contact) (m : list (Z * Contact)) :
  map fst (mapSet k v m)
  = if memZ k (map fst m) then map fst m else map fst m ++ [k].
Proof.
  induction m as [|[k' v'] m IH]; cbn; [reflexivity|].
  destruct (k =? k') eqn:Hk; cbn.
  - apply Z.eqb_eq in Hk. now subst.
  - rewrite IH. fold (memZ k (map fst m)).
    now destruct (memZ k (map fst m)).
Qed.

Lemma mapSet_In (k : Z) (v : Contact) (m : list (Z * Contact))
      (kv : Z * Contact) :
  In kv (mapSet k v m) -> kv = (k, v) \/ In kv m.
Proof.
  induction m as [|[k' v'] m IH]; cbn.
  - intros [<-|[]]. now left.
  - destruct (k =? k'); cbn; intros [<-|H]; auto.
    destruct (IH H); auto.
Qed.

Lemma mapOf_spec (l : list Contact) :
  forall m,
    NoDup (map fst m) ->
    (forall kv, In kv m -> fst kv = id (snd kv)) ->
    let m' := fold_left (fun m kv => mapSet (fst kv) (snd kv) m)
                        (map (fun p => (id p, p)) l) m in
    NoDup (map fst m')
    /\ (forall kv, In kv m' -> fst kv = id (snd kv))
    /\ (forall kv, In kv m' -> In kv m \/ In (snd kv) l)
    /\ (forall k, In k (map fst m) \/ In k (map id l) -> In k (map fst m')).
Proof.
  induction l as [|c l IH]; intros m Hnd Hid; cbn [map fold_left].
  - cbn. repeat split; auto. intros k [H|[]]. exact H.
  - cbn [fst snd].
    assert (Hnd' : NoDup (map fst (mapSet (id c) c m))).
    { rewrite mapSet_keys. destruct (memZ (id c) (map fst m)) eqn:Hm; auto.
      apply NoDup_app; auto.
      - repeat constructor. cbn. tauto.
      - intros k Hk [<-|[]]. apply memZ_In in Hk. congruence. }
    assert (Hid' : forall kv, In kv (mapSet (id c) c m) ->
                              fst kv = id (snd kv)).
    { intros kv H. apply mapSet_In in H. destruct H as [->|H]; auto. }
    destruct (IH _ Hnd' Hid') as (I1 & I2 & I3 & I4).
    repeat split; auto.
    + intros kv H. destruct (I3 kv H) as [H'|H']; [|cbn; auto].
      apply mapSet_In in H'. destruct H' as [->|H']; cbn; auto.
    + intros k Hk. apply I4. rewrite mapSet_keys.
      destruct (memZ (id c) (map fst m)) eqn:Hm.
      * apply memZ_In in Hm.
        destruct Hk as [Hk|[<-|Hk]]; auto.
      * rewrite in_app_iff. cbn.
        destruct Hk as [Hk|[<-|Hk]]; auto.
Qed.

Lemma uniqueSorted_In (l : list Contact) (c : Contact) :
  In c (uniqueSorted l) -> In c l.
Proof.
  unfold uniqueSorted, mapValues, mapOf. rewrite jsSort_In.
  intros H. apply in_map_iff in H. destruct H as ([k v] & <- & H).
  destruct (@mapOf_spec l []) as (_ & _ & I3 & _);
    [constructor | intros ? [] |].
  destruct (I3 _ H) as [[]|H']. exact H'.
Qed.

Lemma uniqueSorted_complete (l : list Contact) (c : Contact) :
  In c l -> exists c', In c' (uniqueSorted l) /\ id c' = id c.
Proof.
  unfold uniqueSorted, mapValues, mapOf. intros Hc.
  destruct (@mapOf_spec l []) as (_ & I2 & _ & I4);
    [constructor | intros ? [] |].
  assert (Hk : In (id c)
                  (map fst
                       (fold_left (fun m kv => mapSet (fst kv) (snd kv) m)
                                  (map (fun p => (id p, p)) l) [])))
    by (apply I4; right; now apply in_map).
  apply in_map_iff in Hk. destruct Hk as ([k v] & Hk & Hin). cbn in Hk. subst k.
  exists v. split.
  - apply jsSort_In. apply in_map_iff. exists (id c, v). auto.
  - symmetry. exact (I2 _ Hin).
Qed.

Lemma uniqueSorted_NoDup (l : list Contact) : NoDup (map id (uniqueSorted l)).
Proof.
  unfold uniqueSorted, mapValues, mapOf.
  destruct (@mapOf_spec l []) as (I1 & I2 & _ & _);
    [constructor | intros ? [] |].
  eapply Permutation_NoDup.
  - apply Permutation_map. symmetry. apply jsSort_perm.
  - rewrite map_map.
    erewrite map_ext_in; [exact I1|].
    intros kv Hkv. symmetry. now apply I2.
Qed.

Lemma uniqueSorted_sorted (l : list Contact) :
  StronglySorted (fun a b => createdAt a <= createdAt b) (uniqueSorted l).
Proof.
  unfold uniqueSorted.
  eapply StronglySorted_ind with
    (R := fun a b => byCreatedAt a b = true)
    (P := fun l => StronglySorted (fun a b => createdAt a <= createdAt b) l).
  - constructor.
  - intros a l' _ IH Ha. constructor; [exact IH|].
    eapply Forall_impl; [|exact Ha]. intros b. apply Z.leb_le.
  - apply jsSort_sorted; [apply byCreatedAt_total | apply byCreatedAt_trans].
Qed.

Lemma rootId_primary (c : Contact) :
  isPrimary c = true -> rootId c = Some (id c).
Proof. unfold rootId. now intros ->. Qed.

Lemma rootId_secondary (c : Contact) :
  isPrimary c = false -> rootId c = linkedId c.
Proof. unfold rootId. now intros ->. Qed.

(** The list that [identify] holds before it makes the primaries unique. *)
Lemma gathered_In (e p : option string) (rows : list Contact) (c : Contact) :
  In c (fold_left
          (fun acc i => pushIfPrimary acc (hd_error (selectById i rows)))
          (linkedIdsOf
             (filter (fun c => negb (isPrimary c)) (selectContacts e p rows)))
          (filter isPrimary (selectContacts e p rows)))
  <-> (In c rows /\ matchesIdentifiers e p c = true /\ isPrimary c = true)
      \/ (exists m,
             In m rows /\ matchesIdentifiers e p m = true
             /\ isPrimary m = false /\ linkedId m = Some (id c)
             /\ hd_error (selectById (id c) rows) = Some c
             /\ isPrimary c = true).
Proof.
  rewrite resolved_In, filter_In, selectContacts_In. split.
  - intros [[[H1 H2] H3]|(i & Hi & Hhd & Hp)]; [left; auto|].
    right. apply linkedIdsOf_In in Hi. destruct Hi as (m & Hm & Hl).
    apply filter_In in Hm. destruct Hm as [Hm Hs].
    apply selectContacts_In in Hm. destruct Hm as [Hm1 Hm2].
    apply negb_true_iff in Hs.
    destruct (selectById_hd _ _ Hhd) as (_ & <- & _).
    exists m. repeat split; auto.
  - intros [(H1 & H2 & H3)|(m & Hm1 & Hm2 & Hs & Hl & Hhd & Hp)]; [left; auto|].
    right. exists (id c). repeat split; auto.
    apply linkedIdsOf_In. exists m. split; [|exact Hl].
    apply filter_In. split; [now apply selectContacts_In|].
    now apply negb_true_iff.
Qed.

Lemma candidates_sound (e p : option string) (rows : list Contact)
      (c : Contact) :
  In c (candidates e p rows) ->
  In c rows /\ live c = true /\ isPrimary c = true
  /\ exists m, In m rows /\ matchesIdentifiers e p m = true
               /\ rootId m = Some (id c)
               /\ (m = c \/ (isPrimary m = false /\ linkedId m = Some (id c))).
Proof.
  unfold candidates. intros H. apply uniqueSorted_In in H.
  apply gathered_In in H.
  destruct H as [(H1 & H2 & H3)|(m & Hm1 & Hm2 & Hs & Hl & Hhd & Hp)].
  - repeat split; auto; [now apply matchesIdentifiers_live in H2|].
    exists c. repeat split; auto. now apply rootId_primary.
  - destruct (selectById_hd _ _ Hhd) as (Hin & _ & Hlive).
    repeat split; auto. exists m. repeat split; auto.
    now rewrite rootId_secondary.
Qed.

Lemma candidates_complete (e p : option string) (rows : list Contact)
      (m c : Contact) :
  uniqueIds rows ->
  In m rows -> matchesIdentifiers e p m = true ->
  In c rows -> live c = true -> isPrimary c = true ->
  rootId m = Some (id c) ->
  In c (candidates e p rows).
Proof.
  intros Hu Hm1 Hm2 Hc Hl Hp Hr.
  assert (Hg : In c (fold_left
          (fun acc i => pushIfPrimary acc (hd_error (selectById i rows)))
          (linkedIdsOf
             (filter (fun c => negb (isPrimary c)) (selectContacts e p rows)))
          (filter isPrimary (selectContacts e p rows)))).
  { apply gathered_In. destruct (isPrimary m) eqn:Hpm.
    - left. rewrite rootId_primary in Hr by exact Hpm. injection Hr as Hr.
      assert (m = c) by (eapply uniqueIds_inj; eauto). subst. auto.
    - right. rewrite rootId_secondary in Hr by exact Hpm.
      exists m. repeat split; auto. now apply selectById_unique. }
  apply uniqueSorted_complete in Hg. destruct Hg as (c' & Hc' & Hid).
  assert (c' = c); [|now subst].
  eapply uniqueIds_inj; eauto.
  now apply candidates_sound in Hc'.
Qed.

Lemma candidates_NoDup (e p : option string) (rows : list Contact) :
  NoDup (map id (candidates e p rows)).
Proof. apply uniqueSorted_NoDup. Qed.

Lemma candidates_sorted (e p : option string) (rows : list Contact) :
  StronglySorted (fun a b => createdAt a <= createdAt b) (candidates e p rows).
Proof. apply uniqueSorted_sorted. Qed.

(** The oldest candidate is not younger than any other one and its id is
    not the id of another one. *)
Lemma candidates_head (e p : option string) (rows : list Contact)
      (u : Contact) (others : list Contact) :
  candidates e p rows = u :: others ->
  ~ In (id u) (map id others)
  /\ forall c, In c others -> createdAt u <= createdAt c.
Proof.
  intros H. split.
  - pose proof (candidates_NoDup e p rows) as Hnd. rewrite H in Hnd.
    now inversion Hnd.
  - pose proof (candidates_sorted e p rows) as Hs. rewrite H in Hs.
    inversion Hs as [|? ? _ Hall]; subst.
    now rewrite Forall_forall in Hall.
Qed.

(** ** The merge *)

Lemma applyPatch_id now ids data c : id (applyPatch now ids data c) = id c.
Proof. unfold applyPatch. now destruct (memZ (id c) ids). Qed.

Lemma updateRows_ids now ids data rows :
  map id (updateRows now ids data rows) = map id rows.
Proof.
  unfold updateRows. rewrite map_map. apply map_ext.
  intros c. apply applyPatch_id.
Qed.

Lemma updateRows_nil now data rows : updateRows now [] data rows = rows.
Proof.
  unfold updateRows. rewrite <- (map_id rows) at 2. apply map_ext.
  reflexivity.
Qed.

Lemma relink_In (rows : list Contact) (D : list Z) (x : Z) :
  In x (map id (List.concat (map (fun i => selectByLinkedId i rows) D)))
  <-> exists r, In r rows /\ live r = true /\ refersTo D r = true /\ id r = x.
Proof.
  rewrite in_map_iff. split.
  - intros (r & Hid & Hr). apply in_concat in Hr.
    destruct Hr as (l & Hl & Hr). apply in_map_iff in Hl.
    destruct Hl as (d & <- & Hd). apply filter_In in Hr.
    destruct Hr as [Hr Hc]. apply andb_true_iff in Hc. destruct Hc as [Hc Hlv].
    apply optZ_eqb_eq in Hc. exists r. repeat split; auto.
    unfold refersTo. rewrite Hc. now apply memZ_In.
  - intros (r & Hr & Hlv & Href & Hid). exists r. split; [exact Hid|].
    unfold refersTo in Href. destruct (linkedId r) as [d|] eqn:Hd;
      [|discriminate].
    apply memZ_In in Href. apply in_concat.
    exists (selectByLinkedId d rows). split.
    + apply in_map_iff. eauto.
    + apply filter_In. split; [exact Hr|].
      rewrite Hd, Hlv. cbn. now rewrite Z.eqb_refl.
Qed.

Lemma mergeRows_unfold now u others rows :
  mergeRows now u others rows
  = let D := map id others in
    let rows1 := updateRows now D (demotePatch u) rows in
    updateRows now
      (map id (List.concat (map (fun i => selectByLinkedId i rows1) D)))
      (relinkPatch u) rows1.
Proof.
  unfold mergeRows. cbn zeta.
  destruct (map id others) as [|d D] eqn:HD.
  - cbn [map List.concat]. now rewrite !updateRows_nil.
  - destruct (List.concat _) as [|r l] eqn:Hc.
    + cbn [map]. now rewrite updateRows_nil.
    + reflexivity.
Qed.

(** A merge rewrites each row on its own. *)
Lemma mergeRows_map now u others rows :
  uniqueIds rows ->
  ~ In (id u) (map id others) ->
  mergeRows now u others rows = map (merged now u (map id others)) rows.
Proof.
  intros Hu Hnu. rewrite mergeRows_unfold. cbn zeta.
  set (D := map id others) in *.
  set (rows1 := updateRows now D (demotePatch u) rows).
  set (L := map id (List.concat _)).
  unfold updateRows at 1. subst rows1. unfold updateRows. rewrite map_map.
  apply map_ext_in. intros c Hc.
  assert (HL : forall c0, In c0 rows -> id c0 = id c -> c0 = c)
    by (intros; eapply uniqueIds_inj; eauto).
  assert (Hin1 : In (applyPatch now D (demotePatch u) c)
                    (updateRows now D (demotePatch u) rows))
    by (apply in_map; exact Hc).
  assert (HLin : memZ (id c) L = true
                 <-> live (applyPatch now D (demotePatch u) c) = true
                     /\ refersTo D (applyPatch now D (demotePatch u) c) = true).
  { rewrite memZ_In. subst L. rewrite relink_In. split.
    - intros (r & Hr & Hlv & Href & Hid).
      apply in_map_iff in Hr. destruct Hr as (c0 & <- & Hc0).
      rewrite applyPatch_id in Hid. apply HL in Hid; auto. subst. auto.
    - intros [Hlv Href]. exists (applyPatch now D (demotePatch u) c).
      repeat split; auto. apply applyPatch_id. }
  unfold merged. unfold applyPatch at 1. rewrite applyPatch_id.
  unfold applyPatch in *. destruct (memZ (id c) D) eqn:HD.
  - cbn in HLin. destruct (memZ (id c) L) eqn:HcL; [|reflexivity].
    exfalso. destruct HLin as [[_ Href] _]; [reflexivity|].
    unfold refersTo in Href. cbn in Href. apply memZ_In in Href. auto.
  - destruct (memZ (id c) L) eqn:HcL.
    + destruct HLin as [HLin _]. destruct (HLin eq_refl) as [H1 H2].
      rewrite H1, H2. reflexivity.
    + destruct (live c && refersTo D c) eqn:Hb; [|reflexivity].
      apply andb_true_iff in Hb. destruct HLin as [_ HLin].
      specialize (HLin Hb). discriminate.
Qed.

Lemma merged_id now u D c : id (merged now u D c) = id c.
Proof.
  unfold merged. destruct (memZ (id c) D); [reflexivity|].
  now destruct (live c && refersTo D c).
Qed.

Lemma merged_email now u D c : email (merged now u D c) = email c.
Proof.
  unfold merged. destruct (memZ (id c) D); [reflexivity|].
  now destruct (live c && refersTo D c).
Qed.

Lemma merged_phoneNumber now u D c :
  phoneNumber (merged now u D c) = phoneNumber c.
Proof.
  unfold merged. destruct (memZ (id c) D); [reflexivity|].
  now destruct (live c && refersTo D c).
Qed.

Lemma merged_createdAt now u D c : createdAt (merged now u D c) = createdAt c.
Proof.
  unfold merged. destruct (memZ (id c) D); [reflexivity|].
  now destruct (live c && refersTo D c).
Qed.

Lemma merged_live now u D c : live (merged now u D c) = live c.
Proof.
  unfold merged. destruct (memZ (id c) D); [reflexivity|].
  now destruct (live c && refersTo D c).
Qed.

Lemma merged_shares now u D a b :
  shares (merged now u D a) (merged now u D b) <-> shares a b.
Proof.
  unfold shares. now rewrite !merged_email, !merged_phoneNumber.
Qed.

Lemma merged_isPrimary now u D c :
  isPrimary (merged now u D c) = isPrimary c && negb (memZ (id c) D).
Proof.
  unfold merged. destruct (memZ (id c) D).
  - now rewrite andb_false_r.
  - rewrite andb_true_r. now destruct (live c && refersTo D c).
Qed.

Lemma mergeRows_ids now u others rows :
  map id (mergeRows now u others rows) = map id rows.
Proof.
  rewrite mergeRows_unfold. cbn zeta. now rewrite !updateRows_ids.
Qed.

(** ** The rows that a request leaves *)

Lemma identifyRows_rows now e p rows s :
  uniqueIds rows ->
  fst (fst (identifyRows now e p rows s))
  = match candidates e p rows with
    | [] => rows ++ [primaryFor now s e p]
    | u :: others =>
        let rows1 := map (merged now u (map id others)) rows in
        rows1 ++ (if needsSecondary e p u rows1
                  then [secondaryFor now s e p u] else [])
    end.
Proof.
  intros Hu. unfold identifyRows.
  destruct (candidates e p rows) as [|u others] eqn:Hc; [reflexivity|].
  destruct (candidates_head _ _ _ Hc) as [Hnu _].
  rewrite mergeRows_map by assumption. cbn zeta.
  destruct (needsSecondary e p u _); cbn; [reflexivity|].
  now rewrite app_nil_r.
Qed.

Lemma identifyRows_seq now e p rows s :
  s <= snd (fst (identifyRows now e p rows s)) <= s + 1.
Proof.
  unfold identifyRows.
  destruct (candidates e p rows) as [|u others]; cbn; [lia|].
  destruct (needsSecondary e p u _); cbn; lia.
Qed.

(** The oldest candidate stays a live primary. *)
Lemma ultimate_survives now e p rows u others :
  candidates e p rows = u :: others ->
  let g := merged now u (map id others) in
  In (g u) (map g rows) /\ live (g u) = true /\ isPrimary (g u) = true
  /\ id (g u) = id u.
Proof.
  intros Hc g.
  assert (Hu : In u (candidates e p rows)) by (rewrite Hc; now left).
  apply candidates_sound in Hu. destruct Hu as (Hin & Hl & Hp & _).
  destruct (candidates_head _ _ _ Hc) as [Hnu _].
  subst g. repeat split.
  - now apply in_map.
  - now rewrite merged_live.
  - rewrite merged_isPrimary, Hp. cbn.
    destruct (memZ (id u) (map id others)) eqn:Hm; [|reflexivity].
    apply memZ_In in Hm. contradiction.
  - apply merged_id.
Qed.

Lemma resolves_app (rows extra : list Contact) (c : Contact) :
  resolves rows c -> resolves (rows ++ extra) c.
Proof.
  intros (q & Hq & H). exists q. split; [|exact H].
  apply in_app_iff. now left.
Qed.

Lemma merged_resolves now e p rows u others c :
  candidates e p rows = u :: others ->
  In c rows -> live c = true ->
  (isSecondary c = true -> resolves rows c) ->
  let g := merged now u (map id others) in
  isSecondary (g c) = true ->
  resolves (map g rows) (g c).
Proof.
  intros Hc Hin Hl Hres g Hsec.
  destruct (ultimate_survives now _ _ _ Hc) as (Gin & Gl & Gp & Gid).
  fold g in Gin, Gl, Gp, Gid.
  assert (Hu : linkedId (g c) = Some (id u) -> resolves (map g rows) (g c)).
  { intros H. exists (g u). rewrite Gid. auto. }
  subst g. unfold merged in Hsec, Hu |- *.
  destruct (memZ (id c) (map id others)) eqn:Hd; [now apply Hu|].
  destruct (live c && refersTo (map id others) c) eqn:Hb; [now apply Hu|].
  destruct (Hres Hsec) as (q & Hq & Hql & Hqp & Hlink).
  exists (merged now u (map id others) q). repeat split.
  - now apply in_map.
  - now rewrite merged_live.
  - rewrite merged_isPrimary, Hqp. cbn.
    rewrite Hl in Hb. cbn in Hb. unfold refersTo in Hb.
    rewrite Hlink in Hb. now rewrite Hb.
  - now rewrite merged_id.
Qed.

Lemma identifyRows_flat now e p rows s :
  uniqueIds rows -> flat rows ->
  flat (fst (fst (identifyRows now e p rows s))).
Proof.
  intros Hu Hf. rewrite identifyRows_rows by assumption.
  destruct (candidates e p rows) as [|u others] eqn:Hc.
  - intros c Hin Hl Hs. apply in_app_iff in Hin.
    destruct Hin as [Hin|[<-|[]]].
    + apply resolves_app. now apply Hf.
    + discriminate.
  - cbn zeta. intros c' Hin Hl Hs. apply in_app_iff in Hin.
    destruct (ultimate_survives now _ _ _ Hc) as (Gin & Gl & Gp & Gid).
    destruct Hin as [Hin|Hin].
    + apply resolves_app. apply in_map_iff in Hin.
      destruct Hin as (c & <- & Hin). rewrite merged_live in Hl.
      eapply merged_resolves; eauto.
    + destruct (needsSecondary _ _ _ _); [|destruct Hin].
      destruct Hin as [<-|[]]. apply resolves_app.
      exists (merged now u (map id others) u). repeat split; auto.
      cbn. now rewrite Gid.
Qed.

Lemma applyPatch_relink_facts now ids u c :
  let c' := applyPatch now ids (relinkPatch u) c in
  id c' = id c /\ isPrimary c' = isPrimary c /\ live c' = live c.
Proof.
  unfold applyPatch. destruct (memZ (id c) ids); cbn; auto.
Qed.

(** The surviving primary is a live primary of the rows that the request
    leaves, whatever the ids of the other rows. *)
Lemma ultimate_in_rows now e p rows s :
  exists u',
    In u' (fst (fst (identifyRows now e p rows s)))
    /\ live u' = true /\ isPrimary u' = true
    /\ id u' = id (ultimateOf now e p rows s).
Proof.
  unfold identifyRows, ultimateOf.
  destruct (candidates e p rows) as [|u others] eqn:Hc.
  - exists (primaryFor now s e p). cbn. rewrite in_app_iff. cbn. auto.
  - assert (Hu : In u (candidates e p rows)) by (rewrite Hc; now left).
    apply candidates_sound in Hu. destruct Hu as (Hin & Hl & Hp & _).
    destruct (candidates_head _ _ _ Hc) as [Hnu _].
    assert (G : exists u', In u' (mergeRows now u others rows)
                           /\ live u' = true /\ isPrimary u' = true
                           /\ id u' = id u).
    { rewrite mergeRows_unfold. cbn zeta.
      set (L := map id (List.concat _)).
      exists (applyPatch now L (relinkPatch u) u).
      destruct (applyPatch_relink_facts now L u u) as (E1 & E2 & E3).
      repeat split; try congruence.
      unfold updateRows. apply in_map_iff. exists u. split; [reflexivity|].
      apply in_map_iff. exists u. split; [|exact Hin].
      unfold applyPatch.
      destruct (memZ (id u) (map id others)) eqn:Hm; [|reflexivity].
      apply memZ_In in Hm. contradiction. }
    destruct G as (u' & G1 & G2).
    exists u'. split; [|exact G2].
    destruct (needsSecondary e p u _); cbn; [|exact G1].
    apply in_app_iff. now left.
Qed.

(** * The claims *)

(** The sample databases are what the requests of the tests leave. *)
Lemma beforeMerge_reached : runAll firstTests emptyDb = beforeMerge.
Proof. vm_compute. reflexivity. Qed.

Lemma afterLocalTests_reached : runAll [(500, tc5)] beforeMerge = afterLocalTests.
Proof. vm_compute. reflexivity. Qed.

Lemma tieDb_reached : runAll tieTests emptyDb = tieDb.
Proof. vm_compute. reflexivity. Qed.

(** C10.  In every response that [identify] produces, [emails] and
    [phoneNumbers] are in ascending lexicographic order, the order of the
    default comparator of [Array.prototype.sort], which compares strings
    by their UTF-16 code units: the rule is the pure lexicographic one,
    the value of the primary does not come first. *)
Theorem identify_emails_phones_lexicographic now r t s n :
  validRequest r = true ->
  exists resp d',
    identify noFaults now r (mkDb t s None n) = (inr resp, d')
    /\ lexAscending (emails resp)
    /\ lexAscending (phoneNumbers resp).
Proof.
  intros Hv. destruct (identify_noFaults now r t s n Hv) as [n' H].
  eexists. eexists. split; [exact H|].
  rewrite identifyRows_response. cbn [assemble emails phoneNumbers].
  split; apply lexAscending_jsSort.
Qed.

Lemma identify_emails_phones_lexicographic_witness :
  validRequest tc6 = true
  /\ exists resp d',
      identify noFaults 600 tc6 afterLocalTests = (inr resp, d')
      /\ lexAscending (emails resp)
      /\ lexAscending (phoneNumbers resp).
Proof.
  split; [reflexivity|].
  apply (@identify_emails_phones_lexicographic
           600 tc6 (table afterLocalTests) (seq afterLocalTests)
           (qcount afterLocalTests)).
  reflexivity.
Defined.

(** The value of the primary is not put first: a primary holding
    ["b@x.com"] with a secondary holding ["a@x.com"]. *)
Example primary_value_not_first :
  let d := runAll [(100, both "b@x.com" "111"); (200, both "a@x.com" "111")]
                  emptyDb in
  option_map emails
    (match fst (identify noFaults 300 (mkRequest None (Some "111"%string)) d) with
     | inr resp => Some resp
     | inl _ => None
     end)
  = Some ["a@x.com"; "b@x.com"]%string.
Proof. vm_compute. reflexivity. Qed.

(** The order is the one of the UTF-16 code units, which is not the one
    of the bytes: U+1F600 is the pair D83D DE00 and comes before U+FF5E,
    while its first byte F0 comes after EF. *)
Example emails_by_code_units :
  codeUnits faceEmail
  = [55357; 56832; 64; 120; 46; 99; 111; 109]%N
  /\ codeUnits tildeEmail = [65374; 64; 120; 46; 99; 111; 109]%N
  /\ String.leb tildeEmail faceEmail = true
  /\ option_map emails
       (match fst (identify noFaults 300 (mkRequest None (Some "111"%string))
                            unicodeDb) with
        | inr resp => Some resp
        | inl _ => None
        end)
     = Some [faceEmail; tildeEmail].
Proof. vm_compute. repeat split; reflexivity. Qed.

(** C9.  In every response that [identify] produces, [primaryContactId] is
    the id of the surviving primary, a live primary of the table;
    [emails] and [phoneNumbers] hold each present value of its group once;
    [secondaryContactIds] lists the ids of the secondaries of the group in
    ascending order. *)
Theorem identify_response_contents now r t s n :
  validRequest r = true ->
  exists resp d',
    identify noFaults now r (mkDb t s None n) = (inr resp, d')
    /\ primaryContactId resp
       = id (ultimateOf now (req_email r) (req_phoneNumber r) t s)
    /\ (exists u, In u (table d') /\ live u = true /\ isPrimary u = true
                  /\ id u = primaryContactId resp)
    /\ NoDup (emails resp)
    /\ (forall x, In x (emails resp)
                  <-> exists c, In c (groupOf (primaryContactId resp) (table d'))
                                /\ hasEmail x c)
    /\ NoDup (phoneNumbers resp)
    /\ (forall x, In x (phoneNumbers resp)
                  <-> exists c, In c (groupOf (primaryContactId resp) (table d'))
                                /\ hasPhone x c)
    /\ ascending (secondaryContactIds resp)
    /\ Permutation (secondaryContactIds resp)
                   (map id (subordinatesOf (primaryContactId resp) (table d'))).
Proof.
  intros Hv. destruct (identify_noFaults now r t s n Hv) as [n' H].
  eexists. eexists. split; [exact H|].
  set (e := req_email r). set (p := req_phoneNumber r).
  rewrite identifyRows_response.
  cbn [assemble primaryContactId emails phoneNumbers secondaryContactIds table].
  set (u := ultimateOf now e p t s).
  set (rows' := fst (fst (identifyRows now e p t s))).
  assert (Hg : forall c, In c (selectGroup (id u) rows')
                         <-> In c (groupOf (id u) rows')).
  { intros c. unfold selectGroup, groupOf. apply jsSort_In. }
  destruct (collectEmails_spec (selectGroup (id u) rows')) as [E1 E2].
  destruct (collectPhones_spec (selectGroup (id u) rows')) as [P1 P2].
  split; [reflexivity|]. split; [apply ultimate_in_rows|].
  split; [eapply Permutation_NoDup; [symmetry; apply jsSort_perm | exact E1]|].
  split.
  { intros x. rewrite jsSort_In, E2. split; intros (c & Hc & Hx); exists c;
      (split; [now apply Hg | exact Hx]). }
  split; [eapply Permutation_NoDup; [symmetry; apply jsSort_perm | exact P1]|].
  split.
  { intros x. rewrite jsSort_In, P2. split; intros (c & Hc & Hx); exists c;
      (split; [now apply Hg | exact Hx]). }
  split; [apply ascending_jsSort|].
  rewrite jsSort_perm. apply collectSecondaryIds_perm.
Qed.

Lemma identify_response_contents_witness :
  validRequest tc6 = true
  /\ exists resp d',
      identify noFaults 600 tc6 afterLocalTests = (inr resp, d')
      /\ primaryContactId resp = 1
      /\ ascending (secondaryContactIds resp)
      /\ In "test_merge@example.com"%string (emails resp).
Proof.
  split; [reflexivity|].
  destruct (@identify_response_contents
              600 tc6 (table afterLocalTests) (seq afterLocalTests)
              (qcount afterLocalTests) eq_refl)
    as (resp & d' & H & Hp & _ & _ & He & _ & _ & Hs & _).
  exists resp, d'. split; [exact H|].
  split; [rewrite Hp; vm_compute; reflexivity|]. split; [exact Hs|].
  apply He. rewrite Hp.
  vm_compute in H. injection H as _ Hd. subst d'.
  eexists. split.
  - vm_compute. do 3 right. left. reflexivity.
  - split; [reflexivity | discriminate].
Defined.

(** C4.  After every completed [identify] on a table with unique ids in
    which every live secondary refers to a live primary, every live
    secondary still refers, in one hop, to a live row whose
    [linkPrecedence] is [primary], never to another secondary. *)
Theorem identify_preserves_flat now r t s n :
  uniqueIds t -> flat t -> validRequest r = true ->
  exists resp d',
    identify noFaults now r (mkDb t s None n) = (inr resp, d')
    /\ flat (table d').
Proof.
  intros Hu Hf Hv. destruct (identify_noFaults now r t s n Hv) as [n' H].
  eexists. eexists. split; [exact H|].
  cbn [table]. now apply identifyRows_flat.
Qed.

Lemma beforeMerge_uniqueIds : uniqueIds (table beforeMerge).
Proof.
  unfold uniqueIds. vm_compute.
  repeat (constructor; [cbn; intuition discriminate|]). constructor.
Qed.

Lemma beforeMerge_flat : flat (table beforeMerge).
Proof.
  intros c Hin Hl Hs.
  exists (mkContact 1 (Some "1111111111"%string)
                    (Some "test1@example.com"%string) None primary 100 100
                    None).
  vm_compute in Hin.
  repeat (destruct Hin as [<-|Hin]; [try discriminate; vm_compute; auto|]).
  destruct Hin.
Qed.

Lemma identify_preserves_flat_witness :
  uniqueIds (table beforeMerge)
  /\ flat (table beforeMerge)
  /\ validRequest tc5 = true
  /\ exists resp d',
      identify noFaults 500 tc5 beforeMerge = (inr resp, d')
      /\ flat (table d').
Proof.
  split; [exact beforeMerge_uniqueIds|].
  split; [exact beforeMerge_flat|].
  split; [reflexivity|].
  apply (@identify_preserves_flat
           500 tc5 (table beforeMerge) (seq beforeMerge)
           (qcount beforeMerge)
           beforeMerge_uniqueIds beforeMerge_flat eq_refl).
Defined.

(** C5 as stated fails: the candidates are sorted by [createdAt] alone.
    The primaries 1 and 2 were created at the same time; the request
    finds 2 itself and 1 through its secondary 3, and the candidates come
    out as 2, 1. *)
Lemma candidates_ties_not_by_id :
  exists cs d',
    loadCandidates noFaults (req_email tieRequest) (req_phoneNumber tieRequest)
                   (sqlBegin tieDb)
    = (inr cs, d')
    /\ map id cs = [2; 1]
    /\ map createdAt cs = [100; 100]
    /\ ~ oldestFirstThenId cs.
Proof.
  eexists. eexists. split; [vm_compute; reflexivity|].
  split; [reflexivity|]. split; [reflexivity|].
  intros H. inversion H as [|a l _ Hall]; subst.
  inversion Hall as [|b l' Hab _]; subst. cbn in Hab. lia.
Qed.

(** C5, amended.  For every request, the candidates that the loader
    assembles contain, for each secondary found whose [linkedId] is the id
    of a live primary, that primary; they are live primaries of the table,
    have distinct ids and are in ascending order of [createdAt].  There is
    no second key: the ids do not order the candidates of equal
    [createdAt]. *)
Theorem loadCandidates_unique_oldest_first e p t s w n :
  uniqueIds w ->
  exists cs n',
    loadCandidates noFaults e p (mkDb t s (Some w) n)
    = (inr cs, mkDb t s (Some w) n')
    /\ (forall m q,
           In m (selectContacts e p w) -> isSecondary m = true ->
           In q w -> live q = true -> isPrimary q = true ->
           linkedId m = Some (id q) ->
           In q cs)
    /\ (forall c, In c cs -> In c w /\ live c = true /\ isPrimary c = true)
    /\ NoDup (map id cs)
    /\ oldestFirst cs.
Proof.
  intros Hu. destruct (loadCandidates_noFaults e p t s w n) as [n' H].
  exists (candidates e p w), n'. split; [exact H|].
  split; [|split; [|split]].
  - intros m q Hm Hs Hq Hl Hp Hlink.
    apply selectContacts_In in Hm. destruct Hm as [Hm1 Hm2].
    rewrite isPrimary_isSecondary in Hs. apply negb_true_iff in Hs.
    apply (@candidates_complete e p w m q); auto.
    now rewrite rootId_secondary.
  - intros c Hc. apply candidates_sound in Hc. tauto.
  - apply candidates_NoDup.
  - apply candidates_sorted.
Qed.

Lemma tieDb_uniqueIds : uniqueIds (table tieDb).
Proof.
  unfold uniqueIds. vm_compute.
  repeat (constructor; [cbn; intuition discriminate|]). constructor.
Qed.

Lemma loadCandidates_unique_oldest_first_witness :
  uniqueIds (table tieDb)
  /\ exists cs n',
      loadCandidates noFaults (req_email tieRequest)
                     (req_phoneNumber tieRequest)
                     (mkDb (table tieDb) (seq tieDb) (Some (table tieDb)) 0)
      = (inr cs, mkDb (table tieDb) (seq tieDb) (Some (table tieDb)) n')
      /\ NoDup (map id cs)
      /\ oldestFirst cs.
Proof.
  split; [exact tieDb_uniqueIds|].
  destruct (@loadCandidates_unique_oldest_first
              (req_email tieRequest) (req_phoneNumber tieRequest)
              (table tieDb) (seq tieDb) (table tieDb) 0 tieDb_uniqueIds)
    as (cs & n' & H & _ & _ & Hnd & Hs).
  exists cs, n'. auto.
Defined.

(** C7 as stated fails: the secondary 2 is live and its primary 1 is
    deleted; a request that finds 2 raises no error, it creates the new
    primary 3 and answers with it. *)
Lemma unresolved_secondary_raises_no_error :
  ~ resolves orphanRows
      (mkContact 2 (Some "222") (Some "a@x.com") (Some 1) secondary 200 200
                 None)%string
  /\ exists resp d',
      identify noFaults 300 (mkRequest (Some "a@x.com"%string) None) orphanDb
      = (inr resp, d')
      /\ primaryContactId resp = 3
      /\ List.length (table d') = 3%nat.
Proof.
  split.
  - intros (q & Hq & Hl & Hp & Hlink). cbn in Hq.
    destruct Hq as [<-|[<-|[]]]; discriminate.
  - eexists. eexists. split; [vm_compute; reflexivity|]. split; reflexivity.
Qed.

(** C7, amended.  If a secondary that a request finds has a [linkedId]
    that is not the id of a live primary, [identify] raises no error:
    the request completes, the secondary brings in no candidate of its
    own and it is left in the table as it was; when no candidate remains,
    the request creates a new primary, which is the one row added, and
    answers with its id. *)
Theorem identify_skips_unresolved now r t s n m :
  uniqueIds t ->
  validRequest r = true ->
  In m t ->
  matchesIdentifiers (req_email r) (req_phoneNumber r) m = true ->
  isSecondary m = true ->
  ~ resolves t m ->
  exists resp d',
    identify noFaults now r (mkDb t s None n) = (inr resp, d')
    /\ (forall c, In c (candidates (req_email r) (req_phoneNumber r) t) ->
                  linkedId m <> Some (id c))
    /\ In m (table d')
    /\ (candidates (req_email r) (req_phoneNumber r) t = [] ->
        table d' = t ++ [primaryFor now s (req_email r) (req_phoneNumber r)]
        /\ primaryContactId resp = s).
Proof.
  intros Hu Hv Hm Hmatch Hs Hres.
  destruct (identify_noFaults now r t s n Hv) as [n' H].
  eexists. eexists. split; [exact H|].
  set (e := req_email r) in *. set (p := req_phoneNumber r) in *.
  assert (Hno : forall c, In c (candidates e p t) -> linkedId m <> Some (id c)).
  { intros c Hc Hlink. apply candidates_sound in Hc.
    destruct Hc as (Hin & Hl & Hp & _). apply Hres. exists c. auto. }
  split; [exact Hno|].
  assert (Hnew : candidates e p t = [] ->
                 table (mkDb (fst (fst (identifyRows now e p t s)))
                             (snd (fst (identifyRows now e p t s))) None n')
                 = t ++ [primaryFor now s e p]
                 /\ primaryContactId (snd (identifyRows now e p t s)) = s).
  { intros Hc0. split.
    - cbn [table]. rewrite identifyRows_rows by assumption.
      now rewrite Hc0.
    - unfold identifyRows. rewrite Hc0. reflexivity. }
  split; [|exact Hnew]. clear Hnew.
  cbn [table]. rewrite identifyRows_rows by assumption.
  destruct (candidates e p t) as [|u others] eqn:Hc.
  - apply in_app_iff. now left.
  - cbn zeta. apply in_app_iff. left.
    replace m with (merged now u (map id others) m) at 1;
      [now apply in_map|].
    unfold merged.
    assert (Hid : memZ (id m) (map id others) = false).
    { destruct (memZ (id m) (map id others)) eqn:Hd; [|reflexivity].
      apply memZ_In in Hd. apply in_map_iff in Hd.
      destruct Hd as (c & Hidc & Hc').
      assert (Hcc : In c (candidates e p t)) by (rewrite Hc; now right).
      apply candidates_sound in Hcc. destruct Hcc as (Hin & _ & Hp & _).
      assert (c = m) by (eapply uniqueIds_inj; eauto). subst c.
      rewrite isPrimary_isSecondary, Hp in Hs. discriminate. }
    rewrite Hid.
    assert (Href : refersTo (map id others) m = false).
    { unfold refersTo. destruct (linkedId m) as [l|] eqn:Hl; [|reflexivity].
      destruct (memZ l (map id others)) eqn:Hd; [|reflexivity].
      apply memZ_In in Hd. apply in_map_iff in Hd.
      destruct Hd as (c & Hidc & Hc').
      exfalso. apply (Hno c); [now right | congruence]. }
    rewrite Href, andb_false_r. reflexivity.
Qed.

Lemma identify_skips_unresolved_witness :
  uniqueIds orphanRows
  /\ validRequest (mkRequest (Some "a@x.com"%string) None) = true
  /\ exists resp d',
      identify noFaults 300 (mkRequest (Some "a@x.com"%string) None) orphanDb
      = (inr resp, d')
      /\ In (mkContact 2 (Some "222") (Some "a@x.com") (Some 1) secondary
                       200 200 None)%string
            (table d')
      /\ table d'
         = orphanRows
             ++ [mkContact 3 None (Some "a@x.com"%string) None primary
                           300 300 None]
      /\ primaryContactId resp = 3.
Proof.
  assert (Hu : uniqueIds orphanRows).
  { unfold uniqueIds. cbn.
    repeat (constructor; [cbn; intuition discriminate|]). constructor. }
  split; [exact Hu|]. split; [reflexivity|].
  destruct (@identify_skips_unresolved
              300 (mkRequest (Some "a@x.com"%string) None) orphanRows 3 0
              (mkContact 2 (Some "222") (Some "a@x.com") (Some 1) secondary
                         200 200 None)%string
              Hu eq_refl)
    as (resp & d' & H & _ & Hin & Hnew).
  - cbn. auto.
  - reflexivity.
  - reflexivity.
  - intros (q & Hq & Hl & Hp & Hlink). cbn in Hq.
    destruct Hq as [<-|[<-|[]]]; discriminate.
  - destruct (Hnew eq_refl) as [Ht Hp].
    exists resp, d'. auto.
Defined.

(** The test of [identify] asks for one contact that satisfies both
    fields; such a contact makes the pair represented, not the other way
    round. *)
Lemma exactMatch_pairRepresented e p group :
  exactMatchFoundInGroup e p group = true -> pairRepresented e p group = true.
Proof.
  unfold exactMatchFoundInGroup, pairRepresented, fieldSatisfied, exactMatch.
  intros H. apply existsb_exists in H. destruct H as (c & Hc & H).
  apply andb_true_iff in H. destruct H as [He Hp].
  apply andb_true_iff. split.
  - destruct e; [|reflexivity]. apply existsb_exists. eauto.
  - destruct p; [|reflexivity]. apply existsb_exists. eauto.
Qed.

(** A request whose pair is held by one contact of the group of the
    oldest candidate creates nothing. *)
Lemma exact_pair_creates_nothing now e p rows s u others c :
  candidates e p rows = u :: others ->
  In c (selectGroup (id u) (mergeRows now u others rows)) ->
  exactMatch e p c = true ->
  fst (fst (identifyRows now e p rows s)) = mergeRows now u others rows.
Proof.
  intros Hc Hin Hx. unfold identifyRows. rewrite Hc.
  unfold needsSecondary, exactMatchFoundInGroup.
  replace (existsb _ _) with true; [reflexivity|].
  symmetry. apply existsb_exists. eauto.
Qed.

(** C2 fails on TC6 of the local tests, "Input Already Covered".  After
    TC1 to TC5 the group of the primary 1 holds the email of the request
    (contact 3) and its phone number (contacts 4 and 5): the pair is
    represented.  No single contact holds both, and [identify] creates
    the secondary 6. *)
Theorem tc6_covered_yet_secondary_created :
  candidates (req_email tc6) (req_phoneNumber tc6) (table afterLocalTests)
  = [mkContact 1 (Some "1111111111") (Some "test1@example.com") None primary
               100 100 None]%string
  /\ pairRepresented (req_email tc6) (req_phoneNumber tc6)
                     (selectGroup 1 (table afterLocalTests)) = true
  /\ exists resp d',
      identify noFaults 600 tc6 afterLocalTests = (inr resp, d')
      /\ table d'
         = table afterLocalTests
           ++ [mkContact 6 (Some "9999999999") (Some "test1_alt@example.com")
                         (Some 1) secondary 600 600 None]%string
      /\ secondaryContactIds resp = [2; 3; 4; 5; 6].
Proof.
  split; [vm_compute; reflexivity|]. split; [vm_compute; reflexivity|].
  eexists. eexists. split; [vm_compute; reflexivity|].
  split; vm_compute; reflexivity.
Qed.

(** C8 fails in its last part.  A request without identifier is refused
    before any call on the pool or the client, and the database is left as
    it was; but [handler] answers it with the status 500, where a missing
    body gets 400. *)
Theorem handler_no_identifier_is_500 fails now parse text r d :
  truthy (Some text) = true ->
  parse text = Some r ->
  validRequest r = false ->
  handler fails now parse (Some text) d
  = (mkResult 500 (ErrorMessageBody (ValidationError validationMessage)), d).
Proof.
  intros Ht Hp Hv. unfold handler. rewrite Ht. cbn [negb].
  unfold tryCatch, bind. rewrite Hp. cbn [ret].
  now rewrite identify_invalid.
Qed.

Lemma handler_no_identifier_is_500_witness :
  truthy (Some "{}"%string) = true
  /\ validRequest (mkRequest None None) = false
  /\ handler noFaults 100 (fun _ => Some (mkRequest None None))
             (Some "{}"%string) afterLocalTests
     = (mkResult 500 (ErrorMessageBody (ValidationError validationMessage)),
        afterLocalTests).
Proof.
  split; [reflexivity|]. split; [reflexivity|].
  apply (@handler_no_identifier_is_500
           noFaults 100 (fun _ => Some (mkRequest None None)) "{}"%string
           (mkRequest None None) afterLocalTests);
    reflexivity.
Defined.

(** The sibling path: no body at all is a client error. *)
Example handler_missing_body_is_400 fails now parse d :
  handler fails now parse None d
  = (mkResult 400 (MessageBody "Request body is required."), d).
Proof. reflexivity. Qed.

(** * More of the client and of [identify] *)

Unset Implicit Arguments.

Lemma query_ok fails A (exec : Db -> A * Db) (d : Db) :
  fails (qcount d) = false ->
  query fails exec d = (inr (fst (exec (tick d))), snd (exec (tick d))).
Proof.
  intros H. unfold query. rewrite H. now destruct (exec (tick d)).
Qed.

Lemma query_rejected fails A (exec : Db -> A * Db) (d : Db) :
  fails (qcount d) = true ->
  query fails exec d = (inl (QueryError (qcount d)), tick d).
Proof. intros H. unfold query. now rewrite H. Qed.

Lemma working_tick (d : Db) : working (tick d) = working d.
Proof. reflexivity. Qed.

Lemma matchesIdentifiers_iff e p c :
  matchesIdentifiers e p c = true <-> live c = true /\ holdsIdentifier e p c.
Proof.
  unfold matchesIdentifiers, holdsIdentifier, sqlEq.
  rewrite andb_true_iff, orb_true_iff, !andb_true_iff.
  assert (E : forall v col,
             match v with Some x => strictEq x col | None => false end = true
             <-> col = v /\ v <> None).
  { intros [x|] col.
    - rewrite strictEq_eq. split; [intros ->; split; congruence | tauto].
    - split; [discriminate | intros [_ H]; congruence]. }
  rewrite !E.
  assert (T : forall v, truthy v = true -> v <> None)
    by (intros [x|]; cbn; congruence).
  split.
  - intros [[[H1 [H2 _]]|[H1 [H2 _]]] Hl]; auto.
  - intros [Hl [[H1 H2]|[H1 H2]]]; split; auto.
Qed.

Lemma oldestFirst_jsSort (l : list Contact) :
  oldestFirst (jsSort byCreatedAt l).
Proof.
  unfold oldestFirst.
  eapply StronglySorted_ind with
    (R := fun a b => byCreatedAt a b = true)
    (P := fun l => StronglySorted (fun a b => createdAt a <= createdAt b) l).
  - constructor.
  - intros a l' _ IH Ha. constructor; [exact IH|].
    eapply Forall_impl; [|exact Ha]. intros b. apply Z.leb_le.
  - apply jsSort_sorted; [apply byCreatedAt_total | apply byCreatedAt_trans].
Qed.

(** X1.  [findContacts] returns exactly the live rows that hold the given
    email or the given phone number, oldest first, and changes nothing. *)
Theorem findContacts_exact fails e p d :
  fails (qcount d) = false ->
  exists l,
    findContacts fails e p d = (inr l, tick d)
    /\ (forall c, In c l
                  <-> In c (working d) /\ live c = true
                      /\ holdsIdentifier e p c)
    /\ oldestFirst l.
Proof.
  intros H. exists (selectContacts e p (working d)).
  unfold findContacts. rewrite query_ok by exact H. cbn [fst snd].
  split; [reflexivity|]. split.
  - intros c. rewrite selectContacts_In, matchesIdentifiers_iff.
    tauto.
  - apply oldestFirst_jsSort.
Qed.

Lemma findContacts_exact_witness :
  noFaults (qcount afterLocalTests) = false
  /\ exists l,
      findContacts noFaults (Some "test1@example.com"%string) None
                   afterLocalTests
      = (inr l, tick afterLocalTests)
      /\ map id l = [1; 2; 5]
      /\ oldestFirst l.
Proof.
  split; [reflexivity|].
  destruct (@findContacts_exact noFaults (Some "test1@example.com"%string)
                                None afterLocalTests eq_refl)
    as (l & H & _ & Hs).
  exists l. split; [exact H|]. split; [|exact Hs].
  vm_compute in H. injection H as <-. reflexivity.
Defined.

(** X2.  Without a truthy identifier [findContacts] finds nothing, not
    even the rows whose email or phone number is the empty string. *)
Theorem findContacts_no_identifier fails e p d :
  fails (qcount d) = false ->
  truthy e = false -> truthy p = false ->
  findContacts fails e p d = (inr [], tick d).
Proof.
  intros H He Hp. unfold findContacts. rewrite query_ok by exact H.
  cbn [fst snd]. f_equal. f_equal. unfold selectContacts.
  replace (filter _ _) with (@nil Contact); [reflexivity|].
  symmetry. induction (working (tick d)) as [|c l IH]; [reflexivity|].
  cbn. unfold matchesIdentifiers at 1. rewrite He, Hp. cbn. exact IH.
Qed.

Lemma findContacts_no_identifier_witness :
  noFaults 0%nat = false
  /\ truthy (Some ""%string) = false
  /\ truthy None = false
  /\ findContacts noFaults (Some ""%string) None
                  (mkDb [mkContact 1 None (Some ""%string) None primary 1 1 None]
                        2 None 0)
     = (inr [],
        tick (mkDb [mkContact 1 None (Some ""%string) None primary 1 1 None]
                   2 None 0)).
Proof.
  split; [reflexivity|]. split; [reflexivity|]. split; [reflexivity|].
  apply (@findContacts_no_identifier
           noFaults (Some ""%string) None
           (mkDb [mkContact 1 None (Some ""%string) None primary 1 1 None]
                 2 None 0));
    reflexivity.
Defined.

(** X3.  [findById] returns a live row with the given id when there is
    one, and [undefined] only when there is none; rows that are deleted
    are not found.  When the ids are unique the row found is the live row
    with that id. *)
Theorem findById_exact fails i d :
  fails (qcount d) = false ->
  exists r,
    findById fails i d = (inr r, tick d)
    /\ (forall c, r = Some c ->
                  In c (working d) /\ id c = i /\ live c = true)
    /\ (r = None <->
        forall c, In c (working d) -> id c = i -> live c = false)
    /\ (uniqueIds (working d) ->
        forall c, In c (working d) -> id c = i -> live c = true ->
                  r = Some c).
Proof.
  intros H. exists (hd_error (selectById i (working d))).
  unfold findById. rewrite query_ok by exact H. cbn [fst snd].
  split; [reflexivity|]. split; [|split].
  - intros c Hc. now apply selectById_hd.
  - split.
    + intros Hn c Hin Hid. destruct (live c) eqn:Hl; [|reflexivity].
      assert (Hc : In c (selectById i (working d))).
      { apply filter_In. split; [exact Hin|].
        rewrite Hl, andb_true_r. now apply Z.eqb_eq. }
      destruct (selectById i (working d)); [destruct Hc | discriminate].
    + intros Hall.
      destruct (hd_error (selectById i (working d))) as [c|] eqn:Hhd;
        [|reflexivity].
      apply selectById_hd in Hhd. destruct Hhd as (Hin & Hid & Hl).
      rewrite (Hall c Hin Hid) in Hl. discriminate.
  - intros Hu c Hin <- Hl. now apply selectById_unique.
Qed.

Lemma findById_exact_witness :
  noFaults (qcount afterLocalTests) = false
  /\ exists r,
      findById noFaults 4 afterLocalTests = (inr r, tick afterLocalTests)
      /\ option_map email r = Some (Some "test_merge@example.com"%string).
Proof.
  split; [reflexivity|].
  destruct (@findById_exact noFaults 4 afterLocalTests eq_refl)
    as (r & H & _).
  exists r. split; [exact H|].
  vm_compute in H. injection H as <-. reflexivity.
Defined.

(** X4.  [queryAllLinkedContacts] returns exactly the live rows that are
    the given primary or refer to it, oldest first; [findByLinkedId]
    returns exactly the live rows that refer to it, so each of its rows is
    also a row of [queryAllLinkedContacts]. *)
Theorem linked_contacts_exact fails i d :
  fails (qcount d) = false ->
  exists g l,
    queryAllLinkedContacts fails i d = (inr g, tick d)
    /\ findByLinkedId fails i d = (inr l, tick d)
    /\ (forall c, In c g
                  <-> In c (working d) /\ live c = true
                      /\ (id c = i \/ linkedId c = Some i))
    /\ (forall c, In c l
                  <-> In c (working d) /\ live c = true
                      /\ linkedId c = Some i)
    /\ oldestFirst g
    /\ incl l g.
Proof.
  intros H.
  exists (selectGroup i (working d)), (selectByLinkedId i (working d)).
  unfold queryAllLinkedContacts, findByLinkedId.
  rewrite !query_ok by exact H. cbn [fst snd].
  assert (G : forall c, In c (selectGroup i (working d))
                        <-> In c (working d) /\ live c = true
                            /\ (id c = i \/ linkedId c = Some i)).
  { intros c. rewrite selectGroup_In. unfold inGroup.
    rewrite andb_true_iff, orb_true_iff, Z.eqb_eq, optZ_eqb_eq. tauto. }
  assert (L : forall c, In c (selectByLinkedId i (working d))
                        <-> In c (working d) /\ live c = true
                            /\ linkedId c = Some i).
  { intros c. unfold selectByLinkedId. rewrite filter_In.
    rewrite andb_true_iff, optZ_eqb_eq. tauto. }
  split; [reflexivity|]. split; [reflexivity|].
  split; [exact G|]. split; [exact L|]. split.
  - apply oldestFirst_jsSort.
  - intros c Hc. apply G. apply L in Hc. tauto.
Qed.

Lemma linked_contacts_exact_witness :
  noFaults (qcount afterLocalTests) = false
  /\ exists g l,
      queryAllLinkedContacts noFaults 1 afterLocalTests
      = (inr g, tick afterLocalTests)
      /\ findByLinkedId noFaults 1 afterLocalTests
         = (inr l, tick afterLocalTests)
      /\ map id g = [1; 2; 3; 4; 5]
      /\ map id l = [2; 3; 4; 5].
Proof.
  split; [reflexivity|].
  destruct (@linked_contacts_exact noFaults 1 afterLocalTests eq_refl)
    as (g & l & Hg & Hl & _).
  exists g, l. split; [exact Hg|]. split; [exact Hl|].
  vm_compute in Hg. injection Hg as <-.
  vm_compute in Hl. injection Hl as <-.
  split; reflexivity.
Defined.

Lemma working_setWorking (w : list Contact) (d : Db) :
  working (setWorking w d) = w.
Proof. unfold working, setWorking. now destruct (session d). Qed.

Lemma seq_setWorking (w : list Contact) (d : Db) :
  seq (setWorking w d) = seq d.
Proof. unfold setWorking. now destruct (session d). Qed.

Lemma createContact_ok fails now data d :
  fails (qcount d) = false ->
  exists d',
    createContact fails now data d = (inr (newContact now (seq d) data), d')
    /\ working d' = working d ++ [newContact now (seq d) data]
    /\ seq d' = seq d + 1
    /\ qcount d' = S (qcount d).
Proof.
  intros H. unfold createContact. rewrite query_ok by exact H.
  cbn [fst snd]. eexists. split; [reflexivity|].
  unfold working at 1. cbn [session].
  unfold setWorking, working. cbn [session seq table qcount tick].
  destruct (session d); cbn; auto.
Qed.

Lemma selectById_fresh (s : Z) (rows : list Contact) :
  idsBelow s rows -> selectById s rows = [].
Proof.
  unfold selectById. induction rows as [|c l IH]; intros Hb; [reflexivity|].
  cbn. assert (Hc : id c < s) by (apply Hb; now left).
  replace (id c =? s) with false by (symmetry; apply Z.eqb_neq; lia).
  cbn. apply IH. intros c' Hc'. apply Hb. now right.
Qed.

(** X5.  Insert, then look up: after [createContact], [findById] on the id
    of the contact returned gives that contact back, provided the sequence
    is ahead of the ids in use.  The contact carries the next value of the
    sequence, the data given, the current time twice and no deletion
    mark. *)
Theorem createContact_then_findById fails now data d :
  fails (qcount d) = false ->
  fails (S (qcount d)) = false ->
  idsBelow (seq d) (working d) ->
  exists d',
    (c <- createContact fails now data ;; findById fails (id c)) d
    = (inr (Some (mkContact (seq d) (data_phoneNumber data) (data_email data)
                            (data_linkedId data) (data_linkPrecedence data)
                            now now None)),
       d')
    /\ seq d' = seq d + 1.
Proof.
  intros H1 H2 Hb. destruct (createContact_ok fails now data d H1)
    as (d1 & E & Hw & Hs & Hq).
  unfold bind. rewrite E. unfold findById.
  rewrite query_ok by (rewrite Hq; exact H2). cbn [fst snd].
  exists (tick d1). split; [|exact Hs].
  f_equal. f_equal. change (working (tick d1)) with (working d1). rewrite Hw.
  unfold selectById. rewrite filter_app.
  fold (selectById (id (newContact now (seq d) data)) (working d)).
  change (id (newContact now (seq d) data)) with (seq d).
  rewrite selectById_fresh by exact Hb.
  cbn. now rewrite Z.eqb_refl.
Qed.

Lemma createContact_then_findById_witness :
  noFaults (qcount afterLocalTests) = false
  /\ noFaults (S (qcount afterLocalTests)) = false
  /\ idsBelow (seq afterLocalTests) (working afterLocalTests)
  /\ exists d',
      (c <- createContact noFaults 700
              (mkData (Some "555"%string) None (Some 1) secondary) ;;
       findById noFaults (id c)) afterLocalTests
      = (inr (Some (mkContact 6 (Some "555"%string) None (Some 1) secondary
                              700 700 None)),
         d')
      /\ seq d' = 7.
Proof.
  assert (Hb : idsBelow (seq afterLocalTests) (working afterLocalTests)).
  { intros c Hc. vm_compute in Hc.
    repeat (destruct Hc as [<-|Hc]; [reflexivity|]). destruct Hc. }
  split; [reflexivity|]. split; [reflexivity|]. split; [exact Hb|].
  apply (@createContact_then_findById
           noFaults 700 (mkData (Some "555"%string) None (Some 1) secondary)
           afterLocalTests eq_refl eq_refl Hb).
Defined.

Lemma applyPatch_patchedBy now ids data c :
  patchedBy now ids data c (applyPatch now ids data c).
Proof.
  unfold patchedBy, sameIdentity, applyPatch.
  destruct (memZ (id c) ids) eqn:Hm.
  - apply memZ_In in Hm. cbn. repeat split; auto. tauto.
  - assert (~ In (id c) ids) by (rewrite <- memZ_In; congruence).
    repeat split; auto; tauto.
Qed.

(** X6.  [updateContacts] rewrites only [linkPrecedence], [linkedId] and
    [updatedAt], and only in the rows whose id is listed: such a row takes
    the values that the patch defines and the current time, every other
    row and every other column stay as they were, and no row is added or
    removed.  With no id, or with a patch that has no key, nothing is sent
    and nothing changes.  A patch that has a key is sent even when it
    defines neither [linkPrecedence] nor [linkedId]: the rows listed then
    only take the current time as [updatedAt]. *)
Theorem updateContacts_frame fails now ids data d :
  fails (qcount d) = false ->
  exists d',
    updateContacts fails now ids data d = (inr tt, d')
    /\ seq d' = seq d
    /\ (ids = [] \/ hasNoKey data = true -> d' = d)
    /\ (ids <> [] -> hasNoKey data = false ->
        qcount d' = S (qcount d)
        /\ Forall2 (patchedBy now ids data) (working d) (working d')).
Proof.
  intros H.
  assert (G : exists d',
             query fails
               (fun d0 => (tt, setWorking (updateRows now ids data (working d0)) d0))
               d = (inr tt, d')
             /\ seq d' = seq d /\ qcount d' = S (qcount d)
             /\ Forall2 (patchedBy now ids data) (working d) (working d')).
  { rewrite query_ok by exact H. cbn [fst snd]. eexists.
    split; [reflexivity|]. rewrite seq_setWorking, working_setWorking.
    split; [reflexivity|]. split.
    - unfold setWorking. cbn. now destruct (session d).
    - change (working (tick d)) with (working d). unfold updateRows.
      induction (working d) as [|c l IH]; cbn; constructor; auto.
      apply applyPatch_patchedBy. }
  destruct G as (d' & E & G1 & G2 & G3).
  unfold updateContacts. destruct ids as [|i ids].
  - exists d. split; [reflexivity|]. split; [reflexivity|].
    split; [reflexivity|]. intros Hn. now destruct Hn.
  - cbn [orb]. destruct (hasNoKey data) eqn:Hk.
    + exists d. split; [reflexivity|]. split; [reflexivity|].
      split; [reflexivity|]. intros _ Hn. discriminate.
    + exists d'. split; [exact E|]. split; [exact G1|]. split.
      * intros [Hn|Hn]; discriminate.
      * intros _ _. split; [exact G2 | exact G3].
Qed.

(** The demotion of the contact 4 in the table of before the merge, and,
    on the same table, a patch that has a key and defines neither
    [linkPrecedence] nor [linkedId]: the contact 4 only takes the current
    time. *)
Lemma updateContacts_frame_witness :
  noFaults (qcount beforeMerge) = false
  /\ (exists d',
         updateContacts noFaults 500 [4]
                        (mkPatch (Some secondary) (Some (Some 1)) false)
                        beforeMerge
         = (inr tt, d')
         /\ map id (working d') = [1; 2; 3; 4]
         /\ map linkedId (working d') = [None; Some 1; Some 1; Some 1]
         /\ map updatedAt (working d') = [100; 200; 300; 500])
  /\ (exists d',
         updateContacts noFaults 500 [4] (mkPatch None None true) beforeMerge
         = (inr tt, d')
         /\ qcount d' = S (qcount beforeMerge)
         /\ map linkedId (working d') = [None; Some 1; Some 1; None]
         /\ map updatedAt (working d') = [100; 200; 300; 500]).
Proof.
  split; [reflexivity|]. split.
  - destruct (updateContacts_frame
                noFaults 500 [4]
                (mkPatch (Some secondary) (Some (Some 1)) false)
                beforeMerge eq_refl)
      as (d' & H & _).
    exists d'. split; [exact H|].
    vm_compute in H. injection H as <-. repeat split; reflexivity.
  - destruct (updateContacts_frame
                noFaults 500 [4] (mkPatch None None true) beforeMerge eq_refl)
      as (d' & H & _ & _ & Hq).
    exists d'. split; [exact H|].
    split; [apply Hq; [discriminate | reflexivity]|].
    vm_compute in H. injection H as <-. split; reflexivity.
Defined.

(** ** Programs that stay inside their transaction *)

Lemma stays_ret A (a : A) : staysInSession (ret a).
Proof. intros d Hd. cbn. auto. Qed.

Lemma stays_throw A (e : Error) : staysInSession (@throw A e).
Proof. intros d Hd. cbn. auto. Qed.

Lemma stays_bind A B (m : M A) (k : A -> M B) :
  staysInSession m -> (forall a, staysInSession (k a)) ->
  staysInSession (bind m k).
Proof.
  intros Hm Hk d Hd. unfold bind. specialize (Hm d Hd).
  destruct (m d) as [[e|a] d1]; cbn in Hm; [exact Hm|].
  destruct Hm as [Ht Hs]. destruct (Hk a d1 Hs) as [Ht' Hs'].
  split; [congruence | exact Hs'].
Qed.

Lemma stays_query fails A (exec : Db -> A * Db) :
  (forall d, session d <> None ->
             table (snd (exec d)) = table d
             /\ session (snd (exec d)) <> None) ->
  staysInSession (query fails exec).
Proof.
  intros He d Hd. unfold query. destruct (fails (qcount d)); [cbn; auto|].
  specialize (He (tick d) Hd). destruct (exec (tick d)). exact He.
Qed.

Lemma stays_forEachM A S (f : S -> A -> M S) (l : list A) :
  (forall acc x, staysInSession (f acc x)) ->
  forall acc, staysInSession (forEachM f l acc).
Proof.
  intros Hf. induction l as [|x l IH]; intros acc; cbn [forEachM].
  - apply stays_ret.
  - apply stays_bind; [apply Hf | exact IH].
Qed.

Lemma stays_mapM A B (f : A -> M B) (l : list A) :
  (forall x, staysInSession (f x)) -> staysInSession (mapM f l).
Proof.
  intros Hf. induction l as [|x l IH]; cbn [mapM].
  - apply stays_ret.
  - apply stays_bind; [apply Hf|]. intros y.
    apply stays_bind; [exact IH|]. intros ys. apply stays_ret.
Qed.

Lemma stays_setWorking (w : list Contact) (d : Db) :
  session d <> None ->
  table (setWorking w d) = table d /\ session (setWorking w d) <> None.
Proof.
  unfold setWorking. destruct (session d); [cbn; split; congruence|].
  intros H. now destruct H.
Qed.

Lemma stays_findContacts fails e p : staysInSession (findContacts fails e p).
Proof. apply stays_query. cbn. auto. Qed.

Lemma stays_findById fails i : staysInSession (findById fails i).
Proof. apply stays_query. cbn. auto. Qed.

Lemma stays_findByLinkedId fails i : staysInSession (findByLinkedId fails i).
Proof. apply stays_query. cbn. auto. Qed.

Lemma stays_queryAllLinkedContacts fails i :
  staysInSession (queryAllLinkedContacts fails i).
Proof. apply stays_query. cbn. auto. Qed.

Lemma stays_createContact fails now data :
  staysInSession (createContact fails now data).
Proof.
  apply stays_query. intros d Hd. cbn [snd table session].
  now apply stays_setWorking.
Qed.

Lemma stays_updateContacts fails now ids data :
  staysInSession (updateContacts fails now ids data).
Proof.
  assert (G : staysInSession
                (query fails
                   (fun d => (tt, setWorking (updateRows now ids data (working d)) d)))).
  { apply stays_query. intros d Hd. cbn [snd]. now apply stays_setWorking. }
  unfold updateContacts.
  destruct (_ || hasNoKey data); [apply stays_ret | exact G].
Qed.

Lemma stays_loadCandidates fails e p : staysInSession (loadCandidates fails e p).
Proof.
  unfold loadCandidates. apply stays_bind; [apply stays_findContacts|].
  intros existing. apply stays_bind; [|intros; apply stays_ret].
  apply stays_forEachM. intros acc i.
  apply stays_bind; [apply stays_findById | intros; apply stays_ret].
Qed.

Lemma stays_demoteOthers fails now u others :
  staysInSession (demoteOthers fails now u others).
Proof.
  unfold demoteOthers. destruct (map id others) as [|i ids];
    [apply stays_ret|].
  apply stays_bind; [apply stays_updateContacts|]. intros _.
  apply stays_bind; [apply stays_mapM; intros; apply stays_findByLinkedId|].
  intros found. destruct (List.concat found); [apply stays_ret|].
  apply stays_updateContacts.
Qed.

Lemma stays_createSecondaryIfNew fails now e p u :
  staysInSession (createSecondaryIfNew fails now e p u).
Proof.
  unfold createSecondaryIfNew.
  apply stays_bind; [apply stays_queryAllLinkedContacts|]. intros g.
  destruct (negb _ && _); [|apply stays_ret].
  apply stays_bind; [apply stays_createContact | intros; apply stays_ret].
Qed.

Lemma stays_identifyCallback fails now e p :
  staysInSession (identifyCallback fails now e p).
Proof.
  unfold identifyCallback.
  apply stays_bind; [apply stays_loadCandidates|]. intros cs.
  apply stays_bind.
  - destruct cs as [|u others]; [apply stays_createContact|].
    apply stays_bind; [apply stays_demoteOthers|]. intros _.
    apply stays_bind; [apply stays_createSecondaryIfNew|]. intros _.
    apply stays_ret.
  - intros u. apply stays_bind; [apply stays_queryAllLinkedContacts|].
    intros g. apply stays_ret.
Qed.

(** The two outcomes of [transaction] on a callback that stays inside
    it. *)
Lemma transaction_cases fails A (callback : M A) d :
  session d = None ->
  staysInSession callback ->
  match transaction fails callback d with
  | (inl _, d') => table d' = table d
  | (inr a, d') =>
      exists d1,
        callback (mkDb (table d) (seq d) (Some (table d)) (S (S (qcount d))))
        = (inr a, d1)
        /\ table d' = working d1
        /\ session d' = None
  end.
Proof.
  intros Hd Hcb. destruct d as [t s ss n]. cbn in Hd. subst ss.
  unfold transaction, bind at 1, connect. cbn [qcount].
  destruct (fails n) eqn:F0; [reflexivity|].
  unfold tick. cbn [table seq session qcount].
  unfold tryCatch, bind at 1, queryBegin, query. cbn [qcount].
  destruct (fails (S n)) eqn:F1.
  { unfold bind, queryRollback, query. cbn [qcount tick].
    destruct (fails (S (S n))); reflexivity. }
  unfold tick, sqlBegin. cbn [table seq session qcount].
  set (d0 := mkDb t s (Some t) (S (S n))).
  assert (H0 : session d0 <> None) by (cbn; congruence).
  destruct (Hcb d0 H0) as [Ht Hs]. unfold bind at 1.
  destruct (callback d0) as [[e|a] d1] eqn:Ecb; cbn [snd] in Ht, Hs.
  { unfold bind, queryRollback, query.
    destruct (fails (qcount d1)); cbn; exact Ht. }
  unfold bind at 1, queryCommit, query.
  destruct (fails (qcount d1)) eqn:F2.
  { unfold bind, queryRollback, query. cbn [qcount tick].
    destruct (fails (S (qcount d1))); cbn; exact Ht. }
  unfold sqlCommit, tick. cbn [table seq session qcount].
  destruct (session d1) as [w|] eqn:Es; [|now destruct Hs].
  cbn. exists d1. repeat split; auto.
  unfold working. now rewrite Es.
Qed.

(** X7.  [transaction] is all or nothing for a callback that stays inside
    it.  When [transaction] throws, whatever call was rejected (the
    connection, BEGIN, a statement of the callback, COMMIT or ROLLBACK),
    the committed rows are those of before.  When it returns a value, the
    callback returned that value, the committed rows are the rows the
    callback left, and the transaction is closed. *)
Theorem transaction_all_or_nothing fails A (callback : M A) d :
  session d = None ->
  staysInSession callback ->
  (forall e d', transaction fails callback d = (inl e, d') ->
                table d' = table d)
  /\ (forall a d',
         transaction fails callback d = (inr a, d') ->
         exists d1,
           callback (mkDb (table d) (seq d) (Some (table d)) (S (S (qcount d))))
           = (inr a, d1)
           /\ table d' = working d1
           /\ session d' = None).
Proof.
  intros Hd Hcb. pose proof (transaction_cases fails A callback d Hd Hcb) as H.
  split.
  - intros e d' E. rewrite E in H. exact H.
  - intros a d' E. rewrite E in H. exact H.
Qed.

(** The creation of one contact inside a transaction whose COMMIT is
    rejected: the contact is not kept, the id 5 is spent. *)
Lemma transaction_all_or_nothing_witness :
  session beforeMerge = None
  /\ staysInSession
       (createContact (fun k => Nat.eqb k 29) 500
                      (mkData (Some "555"%string) None None primary))
  /\ exists e d',
      transaction (fun k => Nat.eqb k 29)
                  (createContact (fun k => Nat.eqb k 29) 500
                                 (mkData (Some "555"%string) None None primary))
                  beforeMerge
      = (inl e, d')
      /\ table d' = table beforeMerge
      /\ seq d' = 6.
Proof.
  split; [reflexivity|]. split; [apply stays_createContact|].
  destruct (transaction_all_or_nothing
              (fun k => Nat.eqb k 29) Contact
              (createContact (fun k => Nat.eqb k 29) 500
                             (mkData (Some "555"%string) None None primary))
              beforeMerge eq_refl
              (stays_createContact (fun k => Nat.eqb k 29) 500
                 (mkData (Some "555"%string) None None primary))) as [H _].
  destruct (transaction _ _ beforeMerge) as [[e|a] d'] eqn:E.
  - exists e, d'. split; [reflexivity|]. split; [now apply (H e)|].
    vm_compute in E. injection E as _ <-. reflexivity.
  - vm_compute in E. discriminate.
Defined.

(** ** Programs that hide no rejected call *)

Lemma noneRejected_join fails (a b c : nat) :
  noneRejected fails a b -> noneRejected fails b c ->
  noneRejected fails a c.
Proof.
  intros H1 H2 k Hk. destruct (Nat.lt_ge_cases k b); [apply H1 | apply H2]; lia.
Qed.

Lemma hides_ret fails A (a : A) : hidesNoFailure fails (ret a).
Proof.
  intros d a' d' H. injection H as _ <-. split; [lia|]. intros k Hk. lia.
Qed.

Lemma hides_throw fails A (e : Error) : hidesNoFailure fails (@throw A e).
Proof. intros d a d' H. discriminate. Qed.

Lemma hides_bind fails A B (m : M A) (k : A -> M B) :
  hidesNoFailure fails m -> (forall a, hidesNoFailure fails (k a)) ->
  hidesNoFailure fails (bind m k).
Proof.
  intros Hm Hk d b d' H. unfold bind in H.
  destruct (m d) as [[e|a] d1] eqn:E; [discriminate|].
  destruct (Hm d a d1 E) as [L1 N1]. destruct (Hk a d1 b d' H) as [L2 N2].
  split; [lia|]. eapply noneRejected_join; eauto.
Qed.

Lemma hides_query fails A (exec : Db -> A * Db) :
  (forall d, qcount (snd (exec d)) = qcount d) ->
  hidesNoFailure fails (query fails exec).
Proof.
  intros He d a d' H. unfold query in H.
  destruct (fails (qcount d)) eqn:F; [discriminate|].
  specialize (He (tick d)). destruct (exec (tick d)) as [a0 d0].
  injection H as _ <-. cbn in He. rewrite He. split; [lia|].
  intros k Hk. assert (k = qcount d) by lia. now subst.
Qed.

Lemma hides_connect fails : hidesNoFailure fails (connect fails).
Proof.
  intros d a d' H. unfold connect in H.
  destruct (fails (qcount d)) eqn:F; [discriminate|].
  injection H as _ <-. cbn. split; [lia|].
  intros k Hk. assert (k = qcount d) by lia. now subst.
Qed.

Lemma hides_tryCatch fails A (body : M A) (handler : Error -> M A) :
  hidesNoFailure fails body ->
  (forall e d, exists e' d', handler e d = (inl e', d')) ->
  hidesNoFailure fails (tryCatch body handler).
Proof.
  intros Hb Hh d a d' H. unfold tryCatch in H.
  destruct (body d) as [[e|a0] d1] eqn:E.
  - destruct (Hh e d1) as (e' & d2 & E'). rewrite E' in H. discriminate.
  - injection H as <- <-. exact (Hb d a0 d1 E).
Qed.

Lemma hides_forEachM fails A S (f : S -> A -> M S) (l : list A) :
  (forall acc x, hidesNoFailure fails (f acc x)) ->
  forall acc, hidesNoFailure fails (forEachM f l acc).
Proof.
  intros Hf. induction l as [|x l IH]; intros acc; cbn [forEachM].
  - apply hides_ret.
  - apply hides_bind; [apply Hf | exact IH].
Qed.

Lemma hides_mapM fails A B (f : A -> M B) (l : list A) :
  (forall x, hidesNoFailure fails (f x)) -> hidesNoFailure fails (mapM f l).
Proof.
  intros Hf. induction l as [|x l IH]; cbn [mapM].
  - apply hides_ret.
  - apply hides_bind; [apply Hf|]. intros y.
    apply hides_bind; [exact IH|]. intros ys. apply hides_ret.
Qed.

Lemma qcount_setWorking (w : list Contact) (d : Db) :
  qcount (setWorking w d) = qcount d.
Proof. unfold setWorking. now destruct (session d). Qed.

Lemma hides_updateContacts fails now ids data :
  hidesNoFailure fails (updateContacts fails now ids data).
Proof.
  assert (G : hidesNoFailure fails
                (query fails
                   (fun d => (tt, setWorking (updateRows now ids data (working d)) d)))).
  { apply hides_query. intros d. cbn [snd]. apply qcount_setWorking. }
  unfold updateContacts.
  destruct (_ || hasNoKey data); [apply hides_ret | exact G].
Qed.

Lemma hides_createContact fails now data :
  hidesNoFailure fails (createContact fails now data).
Proof.
  apply hides_query. intros d. cbn [snd qcount]. apply qcount_setWorking.
Qed.

Lemma hides_select fails A (f : Db -> A) :
  hidesNoFailure fails (query fails (fun d => (f d, d))).
Proof. apply hides_query. reflexivity. Qed.

Lemma hides_transaction fails A (callback : M A) :
  hidesNoFailure fails callback ->
  hidesNoFailure fails (transaction fails callback).
Proof.
  intros Hcb. unfold transaction.
  apply hides_bind; [apply hides_connect|]. intros _.
  apply hides_tryCatch.
  - apply hides_bind; [apply hides_query; intros d; cbn;
                       unfold sqlBegin; now destruct (session d)|].
    intros _. apply hides_bind; [exact Hcb|]. intros a.
    apply hides_bind; [apply hides_query; intros d; cbn;
                       unfold sqlCommit; now destruct (session d)|].
    intros _. apply hides_ret.
  - intros e d. unfold bind, queryRollback, query, throw.
    destruct (fails (qcount d)); eauto.
Qed.

Lemma hides_identifyCallback fails now e p :
  hidesNoFailure fails (identifyCallback fails now e p).
Proof.
  unfold identifyCallback, loadCandidates, demoteOthers, createSecondaryIfNew.
  apply hides_bind.
  { apply hides_bind; [apply hides_select|]. intros existing.
    apply hides_bind; [|intros; apply hides_ret].
    apply hides_forEachM. intros acc i.
    apply hides_bind; [apply hides_select | intros; apply hides_ret]. }
  intros cs. apply hides_bind.
  - destruct cs as [|u others]; [apply hides_createContact|].
    apply hides_bind.
    { destruct (map id others) as [|i ids]; [apply hides_ret|].
      apply hides_bind; [apply hides_updateContacts|]. intros _.
      apply hides_bind; [apply hides_mapM; intros; apply hides_select|].
      intros found. destruct (List.concat found); [apply hides_ret|].
      apply hides_updateContacts. }
    intros _. apply hides_bind; [|intros; apply hides_ret].
    apply hides_bind; [apply hides_select|]. intros g.
    destruct (negb _ && _); [|apply hides_ret].
    apply hides_bind; [apply hides_createContact | intros; apply hides_ret].
  - intros u. apply hides_bind; [apply hides_select|].
    intros g. apply hides_ret.
Qed.

(** The two outcomes of [identify]. *)
Lemma identify_cases fails now r d :
  session d = None ->
  match identify fails now r d with
  | (inl _, d') => table d' = table d
  | (inr _, d') =>
      validRequest r = true
      /\ session d' = None
      /\ (qcount d < qcount d')%nat
      /\ noneRejected fails (qcount d) (qcount d')
  end.
Proof.
  intros Hd.
  destruct (validRequest r) eqn:Hv.
  2:{ rewrite identify_invalid by exact Hv. reflexivity. }
  assert (E : identify fails now r d
              = transaction fails
                  (identifyCallback fails now (req_email r) (req_phoneNumber r))
                  d).
  { unfold identify. unfold validRequest in Hv.
    rewrite <- negb_orb, Hv. reflexivity. }
  pose proof (transaction_cases fails _
                (identifyCallback fails now (req_email r) (req_phoneNumber r))
                d Hd (stays_identifyCallback fails now _ _)) as H.
  pose proof (hides_transaction fails _ _
                (hides_identifyCallback fails now (req_email r)
                                        (req_phoneNumber r))) as Hh.
  rewrite E.
  destruct (transaction fails _ d) as [[e|resp] d'] eqn:Et; [exact H|].
  destruct H as (d1 & _ & _ & Hs). destruct (Hh d resp d' Et) as [Hle Hn].
  repeat split; auto.
  unfold transaction, bind at 1, connect in Et.
  destruct (fails (qcount d)); [discriminate|].
  match type of Et with
  | ?m (tick d) = _ =>
      assert (Hm : hidesNoFailure fails m)
  end.
  { apply hides_tryCatch.
    - apply hides_bind; [apply hides_query; intros d0; cbn;
                         unfold sqlBegin; now destruct (session d0)|].
      intros _. apply hides_bind; [apply hides_identifyCallback|]. intros a.
      apply hides_bind; [apply hides_query; intros d0; cbn;
                         unfold sqlCommit; now destruct (session d0)|].
      intros _. apply hides_ret.
    - intros e d0. unfold bind, queryRollback, query, throw.
      destruct (fails (qcount d0)); eauto. }
  destruct (Hm _ _ _ Et) as [Hle' _]. cbn in Hle'. lia.
Qed.

(** X8.  [identify] is all or nothing under every pattern of rejected
    calls.  When it throws, the committed rows are those of before the
    request.  When it answers, the request was valid, the transaction is
    closed, and none of the calls made for the request was rejected: a
    rejected call is never swallowed. *)
Theorem identify_all_or_nothing fails now r d :
  session d = None ->
  (forall e d', identify fails now r d = (inl e, d') -> table d' = table d)
  /\ (forall resp d',
         identify fails now r d = (inr resp, d') ->
         validRequest r = true
         /\ session d' = None
         /\ (qcount d < qcount d')%nat
         /\ noneRejected fails (qcount d) (qcount d')).
Proof.
  intros Hd. pose proof (identify_cases fails now r d Hd) as H. split.
  - intros e d' E. rewrite E in H. exact H.
  - intros resp d' E. rewrite E in H. exact H.
Qed.

(** The merge of TC5 with the creation of the secondary rejected: the
    demotion of the primary 4, already done in the transaction, is not
    kept. *)
Lemma identify_all_or_nothing_witness :
  session beforeMerge = None
  /\ exists e d',
      identify (fun k => Nat.eqb k 33) 500 tc5 beforeMerge = (inl e, d')
      /\ e = QueryError 33
      /\ table d' = table beforeMerge.
Proof.
  split; [reflexivity|].
  destruct (identify_all_or_nothing (fun k => Nat.eqb k 33) 500 tc5
                                    beforeMerge eq_refl) as [H _].
  destruct (identify _ 500 tc5 beforeMerge) as [[e|a] d'] eqn:E.
  - exists e, d'. split; [reflexivity|]. split; [|now apply (H e)].
    vm_compute in E. injection E as <- _. reflexivity.
  - vm_compute in E. discriminate.
Defined.

(** X9.  [handler] never throws and answers 400, 200 or 500: 400 exactly
    when the body is missing or empty; 200 only with the response of an
    [identify] that succeeded on the parsed, valid request; and whenever
    the status is not 200 the committed rows are those of before. *)
Theorem handler_statuses fails now parse eventBody d :
  session d = None ->
  match handler fails now parse eventBody d with
  | (res, d') =>
      (statusCode res = 200 \/ statusCode res = 400 \/ statusCode res = 500)
      /\ (statusCode res = 400 <-> truthy eventBody = false)
      /\ (statusCode res = 200 ->
          exists text r resp,
            eventBody = Some text /\ parse text = Some r
            /\ validRequest r = true
            /\ identify fails now r d = (inr resp, d')
            /\ body res = ResultBody resp)
      /\ (statusCode res <> 200 -> table d' = table d)
  end.
Proof.
  intros Hd. unfold handler.
  destruct (truthy eventBody) eqn:Ht; cbn [negb].
  2:{ cbn. repeat split; auto; try discriminate. }
  destruct eventBody as [text|]; [|discriminate].
  unfold tryCatch, bind at 1.
  destruct (parse text) as [r|] eqn:Hp.
  2:{ cbn. repeat split; auto; try discriminate. }
  cbn [ret]. unfold bind.
  pose proof (identify_cases fails now r d Hd) as Ha.
  destruct (identify fails now r d) as [[e|resp] d'] eqn:E.
  - cbn. repeat split; auto; try discriminate.
  - cbn. destruct Ha as (Hv & _). repeat split; auto; try discriminate.
    + intros _. exists text, r, resp. auto.
    + intros H. now destruct H.
Qed.

Lemma handler_statuses_witness :
  session beforeMerge = None
  /\ exists res d',
      handler (fun k => Nat.eqb k 33) 500 (fun _ => Some tc5)
              (Some "{...}"%string) beforeMerge
      = (res, d')
      /\ statusCode res = 500
      /\ table d' = table beforeMerge.
Proof.
  split; [reflexivity|].
  pose proof (handler_statuses (fun k => Nat.eqb k 33) 500
                               (fun _ => Some tc5) (Some "{...}"%string)
                               beforeMerge eq_refl) as H.
  destruct (handler _ 500 _ _ beforeMerge) as [res d'] eqn:E.
  exists res, d'. split; [reflexivity|].
  assert (Hs : statusCode res = 500).
  { vm_compute in E. injection E as <- _. reflexivity. }
  split; [exact Hs|].
  destruct H as (_ & _ & _ & H). apply H. rewrite Hs. discriminate.
Defined.

(** ** What [identify] keeps *)

Lemma identifyRows_uniqueIds now e p rows s :
  uniqueIds rows -> idsBelow s rows ->
  uniqueIds (fst (fst (identifyRows now e p rows s)))
  /\ idsBelow (snd (fst (identifyRows now e p rows s)))
              (fst (fst (identifyRows now e p rows s))).
Proof.
  intros Hu Hb.
  assert (Hfresh : ~ In s (map id rows)).
  { intros H. apply in_map_iff in H. destruct H as (c & Hc & Hin).
    specialize (Hb c Hin). lia. }
  assert (Happ : forall c, id c = s ->
                           uniqueIds (rows ++ [c])
                           /\ idsBelow (s + 1) (rows ++ [c])).
  { intros c Hc. split.
    - unfold uniqueIds. rewrite map_app. apply NoDup_app; auto.
      + cbn. repeat constructor. cbn. tauto.
      + cbn. intros x Hx [<-|[]]. congruence.
    - intros c' Hc'. apply in_app_iff in Hc'. destruct Hc' as [H|[<-|[]]].
      + specialize (Hb c' H). lia.
      + lia. }
  unfold identifyRows.
  destruct (candidates e p rows) as [|u others]; cbn [fst snd].
  - now apply Happ.
  - assert (Hu1 : uniqueIds (mergeRows now u others rows))
      by (unfold uniqueIds; now rewrite mergeRows_ids).
    assert (Hb1 : idsBelow s (mergeRows now u others rows)).
    { intros c Hc. apply (in_map id) in Hc. rewrite mergeRows_ids in Hc.
      apply in_map_iff in Hc. destruct Hc as (c0 & <- & Hc0). now apply Hb. }
    destruct (needsSecondary e p u _); cbn [fst snd]; [|auto].
    unfold uniqueIds. rewrite map_app. split.
    + apply NoDup_app; auto.
      * cbn. repeat constructor. cbn. tauto.
      * cbn. intros x Hx [<-|[]]. rewrite mergeRows_ids in Hx. contradiction.
    + intros c' Hc'. apply in_app_iff in Hc'. destruct Hc' as [H|[<-|[]]].
      * specialize (Hb1 c' H). lia.
      * cbn. lia.
Qed.

(** X10.  [identify] keeps the ids unique and the sequence ahead of them:
    on a table with unique ids that are all below the sequence, the table
    it leaves has unique ids that are all below the sequence it leaves. *)
Theorem identify_keeps_ids_unique now r t s n :
  uniqueIds t -> idsBelow s t -> validRequest r = true ->
  exists resp d',
    identify noFaults now r (mkDb t s None n) = (inr resp, d')
    /\ uniqueIds (table d')
    /\ idsBelow (seq d') (table d').
Proof.
  intros Hu Hb Hv. destruct (identify_noFaults now r t s n Hv) as [n' H].
  eexists. eexists. split; [exact H|]. cbn [table seq].
  now apply identifyRows_uniqueIds.
Qed.

Lemma beforeMerge_idsBelow : idsBelow (seq beforeMerge) (table beforeMerge).
Proof.
  intros c Hc. cbn in Hc.
  repeat (destruct Hc as [<-|Hc]; [reflexivity|]). destruct Hc.
Qed.

Lemma identify_keeps_ids_unique_witness :
  uniqueIds (table beforeMerge)
  /\ idsBelow (seq beforeMerge) (table beforeMerge)
  /\ validRequest tc5 = true
  /\ exists resp d',
      identify noFaults 500 tc5 beforeMerge = (inr resp, d')
      /\ uniqueIds (table d')
      /\ idsBelow (seq d') (table d').
Proof.
  split; [exact beforeMerge_uniqueIds|].
  split; [exact beforeMerge_idsBelow|]. split; [reflexivity|].
  apply (identify_keeps_ids_unique
           500 tc5 (table beforeMerge) (seq beforeMerge) (qcount beforeMerge)
           beforeMerge_uniqueIds beforeMerge_idsBelow eq_refl).
Defined.

Lemma keptBy_refl (c : Contact) : keptBy c c.
Proof. unfold keptBy, sameIdentity. auto 10. Qed.

Lemma keptBy_trans (a b c : Contact) : keptBy a b -> keptBy b c -> keptBy a c.
Proof.
  unfold keptBy, sameIdentity.
  intros [(A1 & A2 & A3 & A4 & A5) A6] [(B1 & B2 & B3 & B4 & B5) B6].
  repeat split; try congruence. auto.
Qed.

Lemma Forall2_compose A (R : A -> A -> Prop) :
  (forall a b c, R a b -> R b c -> R a c) ->
  forall l1 l2 l3, Forall2 R l1 l2 -> Forall2 R l2 l3 -> Forall2 R l1 l3.
Proof.
  intros HR l1 l2 l3 H. revert l3.
  induction H as [|a b l1 l2 Hab _ IH]; intros l3 H3; inversion H3; subst.
  - constructor.
  - constructor; eauto.
Qed.

Lemma updateRows_keptBy now ids data rows :
  patch_linkPrecedence data <> Some primary ->
  Forall2 keptBy rows (updateRows now ids data rows).
Proof.
  intros Hp. unfold updateRows.
  induction rows as [|c l IH]; cbn; constructor; auto.
  unfold keptBy, sameIdentity, applyPatch.
  destruct (memZ (id c) ids); cbn; [|auto 10].
  repeat split; auto. unfold isSecondary. cbn.
  destruct (patch_linkPrecedence data) as [[|]|]; auto; congruence.
Qed.

Lemma mergeRows_keptBy now u others rows :
  Forall2 keptBy rows (mergeRows now u others rows).
Proof.
  rewrite mergeRows_unfold. cbn zeta.
  eapply Forall2_compose; [exact keptBy_trans | |];
    apply updateRows_keptBy; cbn; congruence.
Qed.

(** X11.  [identify] deletes nothing and rewrites only links.  Every row
    of the table is still there, in its place, with its id, email, phone
    number, creation time and deletion mark; a secondary is still a
    secondary; and at most one row is added, at the end, with the next id
    of the sequence, the identifiers of the request and the current
    time. *)
Theorem identify_keeps_rows now r t s n :
  validRequest r = true ->
  exists resp d' kept added,
    identify noFaults now r (mkDb t s None n) = (inr resp, d')
    /\ table d' = kept ++ added
    /\ Forall2 keptBy t kept
    /\ (List.length added <= 1)%nat
    /\ (forall c, In c added ->
                  createdFor now s (req_email r) (req_phoneNumber r) c)
    /\ seq d' = s + Z.of_nat (List.length added).
Proof.
  intros Hv. destruct (identify_noFaults now r t s n Hv) as [n' H].
  set (e := req_email r) in *. set (p := req_phoneNumber r) in *.
  assert (G : exists kept added,
             fst (fst (identifyRows now e p t s)) = kept ++ added
             /\ Forall2 keptBy t kept
             /\ (List.length added <= 1)%nat
             /\ (forall c, In c added -> createdFor now s e p c)
             /\ snd (fst (identifyRows now e p t s))
                = s + Z.of_nat (List.length added)).
  { assert (Hrefl : Forall2 keptBy t t)
      by (clear; induction t; constructor; auto using keptBy_refl).
    assert (Hnew : forall c0 : Contact,
               createdFor now s e p c0 ->
               (List.length [c0] <= 1)%nat
               /\ (forall c, In c [c0] -> createdFor now s e p c)
               /\ s + 1 = s + Z.of_nat (List.length [c0])).
    { intros c0 Hc0. split; [cbn; lia|]. split; [|cbn; lia].
      intros c [<-|[]]. exact Hc0. }
    unfold identifyRows.
    destruct (candidates e p t) as [|u others]; cbn [fst snd].
    - exists t, [primaryFor now s e p]. split; [reflexivity|].
      split; [exact Hrefl|]. apply Hnew. unfold createdFor. cbn. auto 10.
    - destruct (needsSecondary e p u _); cbn [fst snd].
      + exists (mergeRows now u others t), [secondaryFor now s e p u].
        split; [reflexivity|]. split; [apply mergeRows_keptBy|].
        apply Hnew. unfold createdFor. cbn. auto 10.
      + exists (mergeRows now u others t), [].
        rewrite app_nil_r. split; [reflexivity|].
        split; [apply mergeRows_keptBy|]. split; [cbn; lia|].
        split; [intros c []|cbn; lia]. }
  destruct G as (kept & added & G1 & G2 & G3 & G4 & G5).
  eexists. eexists. exists kept, added. split; [exact H|].
  cbn [table seq]. auto.
Qed.

Lemma identify_keeps_rows_witness :
  validRequest tc5 = true
  /\ exists resp d' kept added,
      identify noFaults 500 tc5 beforeMerge = (inr resp, d')
      /\ table d' = kept ++ added
      /\ Forall2 keptBy (table beforeMerge) kept
      /\ (List.length added <= 1)%nat.
Proof.
  split; [reflexivity|].
  destruct (identify_keeps_rows 500 tc5 (table beforeMerge) (seq beforeMerge)
                                (qcount beforeMerge) eq_refl)
    as (resp & d' & kept & added & H & H1 & H2 & H3 & _).
  exists resp, d', kept, added. auto.
Defined.

(** ** New groups *)

Lemma filter_none A (f : A -> bool) (l : list A) :
  (forall x, In x l -> f x = false) -> filter f l = [].
Proof.
  induction l as [|x l IH]; intros H; [reflexivity|].
  cbn. rewrite (H x) by now left. apply IH. intros y Hy. apply H. now right.
Qed.

Lemma candidates_none e p rows :
  (forall c, In c rows -> matchesIdentifiers e p c = false) ->
  candidates e p rows = [].
Proof.
  intros H. unfold candidates, selectContacts.
  rewrite (filter_none Contact (matchesIdentifiers e p) rows H). reflexivity.
Qed.

Lemma selectGroup_fresh (s : Z) (rows : list Contact) (c : Contact) :
  idsBelow s rows -> refsBelow s rows ->
  id c = s -> live c = true ->
  selectGroup s (rows ++ [c]) = [c].
Proof.
  intros Hb Hr Hid Hl. unfold selectGroup. rewrite filter_app.
  rewrite filter_none.
  - cbn. unfold inGroup. now rewrite Hid, Z.eqb_refl, Hl.
  - intros x Hx. unfold inGroup.
    replace (id x =? s) with false
      by (symmetry; apply Z.eqb_neq; specialize (Hb x Hx); lia).
    replace (optZ_eqb (linkedId x) (Some s)) with false; [reflexivity|].
    symmetry. destruct (linkedId x) as [l|] eqn:El; [|reflexivity].
    cbn. apply Z.eqb_neq. specialize (Hr x l Hx El). lia.
Qed.

Lemma orNull_Some (v : option string) (x : string) :
  orNull v = Some x -> v = Some x /\ truthy (Some x) = true.
Proof.
  unfold orNull. destruct (truthy v) eqn:T; [|discriminate].
  intros ->. auto.
Qed.

(** X12.  A request whose identifiers no live row holds founds a group:
    [identify] adds one primary with the next id of the sequence and the
    identifiers of the request ([null] for one that is not given), leaves
    every other row as it was, and answers with that id, the identifiers
    given and no secondary. *)
Theorem identify_founds_group now r t s n :
  validRequest r = true ->
  (forall c, In c t -> live c = true ->
             ~ holdsIdentifier (req_email r) (req_phoneNumber r) c) ->
  idsBelow s t -> refsBelow s t ->
  exists d',
    identify noFaults now r (mkDb t s None n)
    = (inr (mkResponse s
              (match orNull (req_email r) with Some x => [x] | None => [] end)
              (match orNull (req_phoneNumber r) with
               | Some x => [x]
               | None => []
               end)
              []),
       d')
    /\ table d'
       = t ++ [mkContact s (orNull (req_phoneNumber r)) (orNull (req_email r))
                         None primary now now None]
    /\ seq d' = s + 1.
Proof.
  intros Hv Hno Hb Hr. destruct (identify_noFaults now r t s n Hv) as [n' H].
  set (e := req_email r) in *. set (p := req_phoneNumber r) in *.
  assert (Hc : candidates e p t = []).
  { apply candidates_none. intros c Hc.
    destruct (matchesIdentifiers e p c) eqn:Hm; [|reflexivity].
    apply matchesIdentifiers_iff in Hm. destruct Hm as [Hl Hh].
    now destruct (Hno c Hc Hl). }
  eexists. split; [|split].
  - rewrite H. f_equal. f_equal. unfold identifyRows. rewrite Hc.
    cbn [snd]. rewrite selectGroup_fresh by auto.
    unfold assemble, primaryFor, newContact. cbn [id data_email data_phoneNumber].
    f_equal.
    + unfold collectEmails. cbn [fold_left email].
      destruct (orNull e) as [x|] eqn:Ee; [|reflexivity].
      assert (Ht : truthy (Some x) = true) by (now apply orNull_Some in Ee).
      rewrite Ht. reflexivity.
    + unfold collectPhones. cbn [fold_left phoneNumber].
      destruct (orNull p) as [x|] eqn:Ep; [|reflexivity].
      assert (Ht : truthy (Some x) = true) by (now apply orNull_Some in Ep).
      rewrite Ht. reflexivity.
  - cbn [table]. unfold identifyRows. rewrite Hc. reflexivity.
  - cbn [seq]. unfold identifyRows. rewrite Hc. reflexivity.
Qed.

Lemma identify_founds_group_witness :
  validRequest (mkRequest (Some "new@z.com"%string) None) = true
  /\ idsBelow (seq afterLocalTests) (table afterLocalTests)
  /\ refsBelow (seq afterLocalTests) (table afterLocalTests)
  /\ exists d',
      identify noFaults 700 (mkRequest (Some "new@z.com"%string) None)
               afterLocalTests
      = (inr (mkResponse 6 ["new@z.com"%string] [] []), d')
      /\ seq d' = 7.
Proof.
  assert (Hb : idsBelow (seq afterLocalTests) (table afterLocalTests)).
  { intros c Hc. cbn in Hc.
    repeat (destruct Hc as [<-|Hc]; [reflexivity|]). destruct Hc. }
  assert (Hr : refsBelow (seq afterLocalTests) (table afterLocalTests)).
  { intros c l Hc Hl. cbn in Hc.
    repeat (destruct Hc as [<-|Hc];
            [cbn in Hl; try discriminate; injection Hl as <-; reflexivity|]).
    destruct Hc. }
  split; [reflexivity|]. split; [exact Hb|]. split; [exact Hr|].
  destruct (identify_founds_group
              700 (mkRequest (Some "new@z.com"%string) None)
              (table afterLocalTests) (seq afterLocalTests)
              (qcount afterLocalTests) eq_refl)
    as (d' & H & _ & Hs); auto.
  - intros c Hc Hl [[_ He]|[Ht _]]; [|discriminate].
    cbn in Hc, He.
    repeat (destruct Hc as [<-|Hc]; [discriminate|]). destruct Hc.
  - exists d'. split; [exact H | exact Hs].
Defined.

(** ** Requests that bring nothing new *)

Lemma rootId_inGroup (i : Z) (c : Contact) :
  rootId c = Some i -> live c = true -> inGroup i c = true.
Proof.
  unfold rootId, inGroup. intros H ->. rewrite andb_true_r.
  destruct (isPrimary c).
  - injection H as ->. now rewrite Z.eqb_refl.
  - rewrite H. cbn. rewrite Z.eqb_refl. apply orb_true_r.
Qed.

Lemma demoted_is_primary e p rows u others m :
  uniqueIds rows ->
  candidates e p rows = u :: others ->
  In m rows -> In (id m) (map id (u :: others)) ->
  isPrimary m = true /\ In m (u :: others).
Proof.
  intros Hu Hc Hm Hid. apply in_map_iff in Hid.
  destruct Hid as (c & Hidc & Hin).
  assert (Hcc : In c (candidates e p rows)) by now rewrite Hc.
  apply candidates_sound in Hcc. destruct Hcc as (Hcr & _ & Hp & _).
  assert (c = m) by (eapply uniqueIds_inj; eauto). subst c. auto.
Qed.

(** After the merge, a live row whose primary was a candidate belongs to
    the oldest candidate. *)
Lemma merged_rootId now e p rows u others m c :
  uniqueIds rows ->
  candidates e p rows = u :: others ->
  In m rows -> live m = true ->
  In c (u :: others) -> rootId m = Some (id c) ->
  rootId (merged now u (map id others) m) = Some (id u).
Proof.
  intros Hu Hc Hm Hl Hin Hr.
  destruct (@candidates_head _ _ _ _ _ Hc) as [Hnu _].
  unfold merged.
  destruct (memZ (id m) (map id others)) eqn:Hd; [reflexivity|].
  assert (Hnd : ~ In (id m) (map id others))
    by (rewrite <- memZ_In; congruence).
  unfold rootId in Hr |- *. destruct (isPrimary m) eqn:Hp.
  - injection Hr as Hr.
    assert (Hcu : c = u).
    { destruct Hin as [<-|Hin]; [reflexivity|]. exfalso. apply Hnd.
      rewrite Hr. now apply in_map. }
    subst c. rewrite Hl. cbn [andb].
    destruct (refersTo (map id others) m); unfold isPrimary in *; cbn;
      destruct (linkPrecedence m); try discriminate; congruence.
  - rewrite Hl. cbn [andb]. unfold refersTo. rewrite Hr.
    destruct (memZ (id c) (map id others)) eqn:Hcd.
    + unfold isPrimary in *. cbn. destruct (linkPrecedence m);
        [discriminate | reflexivity].
    + rewrite Hp. rewrite Hr. f_equal.
      destruct Hin as [<-|Hin]; [reflexivity|]. exfalso.
      assert (In (id c) (map id others)) by now apply in_map.
      apply memZ_In in H. congruence.
Qed.

(** On a flat table with unique ids, the primary of a row found is a
    candidate. *)
Lemma found_root_is_candidate e p rows m :
  uniqueIds rows -> flat rows ->
  In m rows -> matchesIdentifiers e p m = true ->
  exists c, In c (candidates e p rows) /\ rootId m = Some (id c).
Proof.
  intros Hu Hf Hm Hmatch.
  pose proof (@matchesIdentifiers_live _ _ _ Hmatch) as Hl.
  destruct (isPrimary m) eqn:Hp.
  - exists m. split; [|now apply rootId_primary].
    apply (@candidates_complete e p rows m m Hu Hm Hmatch Hm Hl Hp).
    now apply rootId_primary.
  - destruct (Hf m Hm Hl) as (q & Hq & Hql & Hqp & Hlink).
    { rewrite isPrimary_isSecondary, Hp. reflexivity. }
    exists q. rewrite rootId_secondary by exact Hp. split; [|exact Hlink].
    apply (@candidates_complete e p rows m q Hu Hm Hmatch Hq Hql Hqp).
    now rewrite rootId_secondary.
Qed.

Lemma exactMatch_matches e p m :
  truthy e || truthy p = true -> live m = true ->
  exactMatch e p m = true -> matchesIdentifiers e p m = true.
Proof.
  intros Hv Hl Hx. unfold exactMatch in Hx. apply andb_true_iff in Hx.
  destruct Hx as [He Hp]. unfold matchesIdentifiers, sqlEq.
  rewrite Hl, andb_true_r. apply orb_true_iff in Hv. apply orb_true_iff.
  destruct Hv as [Hv|Hv]; [left|right]; rewrite Hv; cbn.
  - destruct e; [exact He | discriminate].
  - destruct p; [exact Hp | discriminate].
Qed.

Lemma exactMatch_merged now u D e p m :
  exactMatch e p (merged now u D m) = exactMatch e p m.
Proof.
  unfold exactMatch. now rewrite merged_email, merged_phoneNumber.
Qed.

(** X13.  A request brings nothing new when one live row holds every
    identifier that it gives (both of them, or the only one given): on a
    flat table with unique ids [identify] then creates no row and takes no
    id from the sequence; it may only rewrite links. *)
Theorem identify_known_pair_creates_nothing now r t s n m :
  uniqueIds t -> flat t -> validRequest r = true ->
  In m t -> live m = true ->
  exactMatch (req_email r) (req_phoneNumber r) m = true ->
  exists resp d',
    identify noFaults now r (mkDb t s None n) = (inr resp, d')
    /\ Forall2 keptBy t (table d')
    /\ seq d' = s.
Proof.
  intros Hu Hf Hv Hm Hl Hx.
  destruct (identify_noFaults now r t s n Hv) as [n' H].
  set (e := req_email r) in *. set (p := req_phoneNumber r) in *.
  eexists. eexists. split; [exact H|]. cbn [table seq].
  pose proof (exactMatch_matches e p m Hv Hl Hx) as Hmatch.
  destruct (found_root_is_candidate e p t m Hu Hf Hm Hmatch)
    as (c & Hc & Hroot).
  unfold identifyRows.
  destruct (candidates e p t) as [|u others] eqn:Ec; [destruct Hc|].
  destruct (@candidates_head _ _ _ _ _ Ec) as [Hnu _].
  assert (Hneed : needsSecondary e p u (mergeRows now u others t) = false).
  { unfold needsSecondary, exactMatchFoundInGroup.
    replace (existsb _ _) with true; [reflexivity|].
    symmetry. apply existsb_exists.
    exists (merged now u (map id others) m). split.
    - apply selectGroup_In. split.
      + rewrite mergeRows_map by assumption. now apply in_map.
      + apply rootId_inGroup; [|now rewrite merged_live].
        eapply merged_rootId; eauto.
    - now rewrite exactMatch_merged. }
  rewrite Hneed. cbn [fst snd]. split; [apply mergeRows_keptBy | reflexivity].
Qed.

Lemma afterLocalTests_uniqueIds : uniqueIds (table afterLocalTests).
Proof.
  unfold uniqueIds. cbn.
  repeat (constructor; [cbn; intuition discriminate|]). constructor.
Qed.

Lemma afterLocalTests_flat : flat (table afterLocalTests).
Proof.
  intros c Hin Hl Hs.
  exists (mkContact 1 (Some "1111111111"%string)
                    (Some "test1@example.com"%string) None primary 100 100
                    None).
  cbn in Hin.
  repeat (destruct Hin as [<-|Hin]; [try discriminate; cbn; auto|]).
  destruct Hin.
Qed.

(** TC7 of the local tests, "Only Email (Existing)": the contact 4 holds
    the email. *)
Lemma identify_known_pair_creates_nothing_witness :
  uniqueIds (table afterLocalTests)
  /\ flat (table afterLocalTests)
  /\ validRequest (mkRequest (Some "test_merge@example.com"%string) None) = true
  /\ exists resp d',
      identify noFaults 700
               (mkRequest (Some "test_merge@example.com"%string) None)
               afterLocalTests
      = (inr resp, d')
      /\ Forall2 keptBy (table afterLocalTests) (table d')
      /\ seq d' = 6.
Proof.
  split; [exact afterLocalTests_uniqueIds|].
  split; [exact afterLocalTests_flat|]. split; [reflexivity|].
  apply (identify_known_pair_creates_nothing
           700 (mkRequest (Some "test_merge@example.com"%string) None)
           (table afterLocalTests) (seq afterLocalTests)
           (qcount afterLocalTests)
           (mkContact 4 (Some "9999999999") (Some "test_merge@example.com")
                      (Some 1) secondary 400 500 None)%string
           afterLocalTests_uniqueIds afterLocalTests_flat eq_refl).
  - cbn. auto 10.
  - reflexivity.
  - reflexivity.
Defined.

(** ** The same request again *)

Lemma matchesIdentifiers_merged now u D e p m :
  matchesIdentifiers e p (merged now u D m) = matchesIdentifiers e p m.
Proof.
  unfold matchesIdentifiers.
  now rewrite merged_email, merged_phoneNumber, merged_live.
Qed.

(** After a request, every live row that holds one of its identifiers
    belongs to the surviving primary. *)
Lemma after_request_roots now e p t s m1 :
  uniqueIds t -> flat t ->
  In m1 (fst (fst (identifyRows now e p t s))) ->
  matchesIdentifiers e p m1 = true ->
  rootId m1 = Some (id (ultimateOf now e p t s)).
Proof.
  intros Hu Hf Hin Hmatch. rewrite identifyRows_rows in Hin by assumption.
  unfold ultimateOf.
  destruct (candidates e p t) as [|u others] eqn:Ec.
  - apply in_app_iff in Hin. destruct Hin as [Hin|[<-|[]]]; [|reflexivity].
    destruct (found_root_is_candidate e p t m1 Hu Hf Hin Hmatch)
      as (c & Hc & _).
    rewrite Ec in Hc. destruct Hc.
  - cbn zeta in Hin. apply in_app_iff in Hin. destruct Hin as [Hin|Hin].
    + apply in_map_iff in Hin. destruct Hin as (m & <- & Hm).
      rewrite matchesIdentifiers_merged in Hmatch.
      destruct (found_root_is_candidate e p t m Hu Hf Hm Hmatch)
        as (c & Hc & Hroot).
      rewrite Ec in Hc.
      apply (merged_rootId now e p t u others m c); auto.
      now apply (@matchesIdentifiers_live e p m).
    + destruct (needsSecondary _ _ _ _); [|destruct Hin].
      destruct Hin as [<-|[]]. reflexivity.
Qed.

Lemma exactMatch_created e p (c : Contact) :
  e <> Some ""%string -> p <> Some ""%string ->
  email c = orNull e -> phoneNumber c = orNull p ->
  exactMatch e p c = true.
Proof.
  intros He Hp Ee Ep. unfold exactMatch. rewrite Ee, Ep.
  assert (G : forall v, v <> Some ""%string ->
                        match v with
                        | Some x => strictEq x (orNull v)
                        | None => true
                        end = true).
  { intros [x|] Hv; [|reflexivity]. unfold orNull.
    replace (truthy (Some x)) with true.
    - cbn. apply String.eqb_refl.
    - symmetry. apply truthy_Some. congruence. }
  now rewrite !G.
Qed.

(** After a request whose identifiers are not empty strings, a live row
    holds every identifier that it gave. *)
Lemma after_request_exact now e p t s :
  truthy e || truthy p = true ->
  e <> Some ""%string -> p <> Some ""%string ->
  exists x,
    In x (fst (fst (identifyRows now e p t s)))
    /\ live x = true /\ exactMatch e p x = true.
Proof.
  intros Hv He Hp. unfold identifyRows.
  destruct (candidates e p t) as [|u others]; cbn [fst].
  - exists (primaryFor now s e p). split; [apply in_app_iff; cbn; auto|].
    split; [reflexivity|]. now apply exactMatch_created.
  - destruct (needsSecondary e p u _) eqn:Hn; cbn [fst].
    + exists (secondaryFor now s e p u).
      split; [apply in_app_iff; cbn; auto|].
      split; [reflexivity|]. now apply exactMatch_created.
    + unfold needsSecondary in Hn. rewrite Hv, andb_true_r in Hn.
      apply negb_false_iff in Hn. apply existsb_exists in Hn.
      destruct Hn as (x & Hx & Hex). apply selectGroup_In in Hx.
      destruct Hx as [Hx Hg]. exists x. split; [exact Hx|].
      split; [|exact Hex]. unfold inGroup in Hg.
      now apply andb_true_iff in Hg.
Qed.

Lemma mergeRows_alone now u rows : mergeRows now u [] rows = rows.
Proof. reflexivity. Qed.

(** X14.  [identify] is idempotent.  On a flat table with unique ids below
    the sequence, the same request served again (its identifiers being
    absent or non-empty) gets the same response, and the second time it
    changes no row and takes no id. *)
Theorem identify_idempotent now now' r t s n :
  uniqueIds t -> idsBelow s t -> flat t ->
  validRequest r = true ->
  req_email r <> Some ""%string -> req_phoneNumber r <> Some ""%string ->
  exists resp d1 d2,
    identify noFaults now r (mkDb t s None n) = (inr resp, d1)
    /\ identify noFaults now' r d1 = (inr resp, d2)
    /\ table d2 = table d1
    /\ seq d2 = seq d1.
Proof.
  intros Hu Hb Hf Hv He Hp.
  destruct (identify_noFaults now r t s n Hv) as [n1 H1].
  set (e := req_email r) in *. set (p := req_phoneNumber r) in *.
  set (t1 := fst (fst (identifyRows now e p t s))) in *.
  set (s1 := snd (fst (identifyRows now e p t s))) in *.
  destruct (identify_noFaults now' r t1 s1 n1 Hv) as [n2 H2].
  fold e p in H2.
  destruct (identifyRows_uniqueIds now e p t s Hu Hb) as [Hu1 _].
  pose proof (identifyRows_flat now e p s Hu Hf) as Hf1.
  fold t1 in Hu1, Hf1.
  destruct (after_request_exact now e p t s Hv He Hp)
    as (x & Hx & Hxl & Hxe). fold t1 in Hx.
  pose proof (exactMatch_matches e p x Hv Hxl Hxe) as Hxm.
  destruct (found_root_is_candidate e p t1 x Hu1 Hf1 Hx Hxm)
    as (c & Hc & Hroot).
  set (U := ultimateOf now e p t s).
  assert (Hall : forall c', In c' (candidates e p t1) -> id c' = id U).
  { intros c' Hc'. apply candidates_sound in Hc'.
    destruct Hc' as (_ & _ & _ & m1 & Hm1 & Hmm & Hr & _).
    pose proof (after_request_roots now e p t s m1 Hu Hf Hm1 Hmm) as Hr'.
    fold U in Hr'. congruence. }
  destruct (candidates e p t1) as [|u1 others1] eqn:Ec1; [destruct Hc|].
  assert (Ho : others1 = []).
  { destruct others1 as [|c2 l]; [reflexivity|]. exfalso.
    destruct (@candidates_head _ _ _ _ _ Ec1) as [Hnu _]. apply Hnu.
    rewrite (Hall u1) by now left.
    rewrite <- (Hall c2) by (right; now left). now left. }
  subst others1.
  assert (Hid : id u1 = id U) by (apply Hall; now left).
  assert (Hneed : needsSecondary e p u1 t1 = false).
  { unfold needsSecondary, exactMatchFoundInGroup.
    replace (existsb _ _) with true; [reflexivity|].
    symmetry. apply existsb_exists. exists x. split; [|exact Hxe].
    apply selectGroup_In. split; [exact Hx|].
    apply rootId_inGroup; [|exact Hxl]. rewrite Hid.
    now apply (after_request_roots now e p t s x). }
  assert (E2 : identifyRows now' e p t1 s1
               = (t1, s1, assemble u1 (selectGroup (id u1) t1))).
  { unfold identifyRows. rewrite Ec1, mergeRows_alone, Hneed. reflexivity. }
  rewrite E2 in H2. cbn [fst snd] in H2.
  exists (snd (identifyRows now e p t s)), (mkDb t1 s1 None n1),
    (mkDb t1 s1 None n2).
  split; [exact H1|]. split; [|split; reflexivity].
  rewrite H2. f_equal. f_equal.
  rewrite identifyRows_response. fold U t1.
  unfold assemble. now rewrite Hid.
Qed.

Lemma identify_idempotent_witness :
  uniqueIds (table beforeMerge)
  /\ idsBelow (seq beforeMerge) (table beforeMerge)
  /\ flat (table beforeMerge)
  /\ validRequest tc5 = true
  /\ exists resp d1 d2,
      identify noFaults 500 tc5 beforeMerge = (inr resp, d1)
      /\ identify noFaults 600 tc5 d1 = (inr resp, d2)
      /\ table d2 = table d1
      /\ seq d2 = seq d1.
Proof.
  split; [exact beforeMerge_uniqueIds|].
  split; [exact beforeMerge_idsBelow|].
  split; [exact beforeMerge_flat|]. split; [reflexivity|].
  apply (identify_idempotent
           500 600 tc5 (table beforeMerge) (seq beforeMerge)
           (qcount beforeMerge)
           beforeMerge_uniqueIds beforeMerge_idsBelow beforeMerge_flat
           eq_refl);
    discriminate.
Defined.

(** ** The merge, row by row *)

(** X15.  [demoteOthers] rewrites each row on its own: the other
    candidates become secondaries of the oldest one, the live rows that
    referred to one of them refer to the oldest one, both with the current
    time as [updatedAt], and every other row, deleted rows included, is
    left as it was.  The ids are unique and the oldest candidate is not
    among the others. *)
Theorem demoteOthers_rewrites_each_row now u others t s w n :
  uniqueIds w ->
  ~ In (id u) (map id others) ->
  exists n',
    demoteOthers noFaults now u others (mkDb t s (Some w) n)
    = (inr tt,
       mkDb t s (Some (map (merged now u (map id others)) w)) n').
Proof.
  intros Hu Hnu.
  destruct (demoteOthers_noFaults now u others t s w n) as [n' H].
  exists n'. rewrite H. now rewrite mergeRows_map.
Qed.

Lemma demoteOthers_rewrites_each_row_witness :
  uniqueIds (table tieDb)
  /\ exists n',
      demoteOthers noFaults 300
        (mkContact 2 (Some "222"%string) (Some "b@y.com"%string) None primary 100 100 None)
        [mkContact 1 (Some "111"%string) (Some "a@x.com"%string) None primary 100 100 None]
        (mkDb (table tieDb) 4 (Some (table tieDb)) 0)
      = (inr tt,
         mkDb (table tieDb) 4
              (Some
                 [ mkContact 1 (Some "111"%string) (Some "a@x.com"%string) (Some 2)
                             secondary 100 300 None;
                   mkContact 2 (Some "222"%string) (Some "b@y.com"%string) None primary
                             100 100 None;
                   mkContact 3 (Some "333"%string) (Some "a@x.com"%string) (Some 2)
                             secondary 200 300 None ])
              n').
Proof.
  split; [exact tieDb_uniqueIds|].
  apply (demoteOthers_rewrites_each_row
           300
           (mkContact 2 (Some "222"%string) (Some "b@y.com"%string) None primary 100 100 None)
           [mkContact 1 (Some "111"%string) (Some "a@x.com"%string) None primary 100 100 None]
           (table tieDb) 4 (table tieDb) 0 tieDb_uniqueIds).
  cbn. intros [H|[]]. discriminate.
Defined.

(** ** Rejected calls can only abort *)

Lemma like_refl A (m : M A) : answersLike m m.
Proof. intros d a d' H. exact H. Qed.

Lemma like_bind A B (m m' : M A) (k k' : A -> M B) :
  answersLike m m' -> (forall a, answersLike (k a) (k' a)) ->
  answersLike (bind m k) (bind m' k').
Proof.
  intros Hm Hk d b d' H. unfold bind in *.
  destruct (m d) as [[e|a] d1] eqn:E; [discriminate|].
  rewrite (Hm d a d1 E). now apply Hk.
Qed.

Lemma like_query fails A (exec : Db -> A * Db) :
  answersLike (query fails exec) (query noFaults exec).
Proof.
  intros d a d' H. unfold query in *. cbn.
  destruct (fails (qcount d)); [discriminate | exact H].
Qed.

Lemma like_connect fails : answersLike (connect fails) (connect noFaults).
Proof.
  intros d a d' H. unfold connect in *. cbn.
  destruct (fails (qcount d)); [discriminate | exact H].
Qed.

Lemma like_tryCatch A (body body' : M A) (handler handler' : Error -> M A) :
  answersLike body body' ->
  (forall e d, exists e' d', handler e d = (inl e', d')) ->
  answersLike (tryCatch body handler) (tryCatch body' handler').
Proof.
  intros Hb Hh d a d' H. unfold tryCatch in *.
  destruct (body d) as [[e|a0] d1] eqn:E.
  - destruct (Hh e d1) as (e' & d2 & E'). rewrite E' in H. discriminate.
  - now rewrite (Hb d a0 d1 E).
Qed.

Lemma like_forEachM A S (f f' : S -> A -> M S) (l : list A) :
  (forall acc x, answersLike (f acc x) (f' acc x)) ->
  forall acc, answersLike (forEachM f l acc) (forEachM f' l acc).
Proof.
  intros Hf. induction l as [|x l IH]; intros acc; cbn [forEachM].
  - apply like_refl.
  - apply like_bind; [apply Hf | exact IH].
Qed.

Lemma like_mapM A B (f f' : A -> M B) (l : list A) :
  (forall x, answersLike (f x) (f' x)) ->
  answersLike (mapM f l) (mapM f' l).
Proof.
  intros Hf. induction l as [|x l IH]; cbn [mapM].
  - apply like_refl.
  - apply like_bind; [apply Hf|]. intros y.
    apply like_bind; [exact IH|]. intros ys. apply like_refl.
Qed.

Lemma like_updateContacts fails now ids data :
  answersLike (updateContacts fails now ids data)
              (updateContacts noFaults now ids data).
Proof.
  unfold updateContacts.
  destruct (_ || hasNoKey data); [apply like_refl | apply like_query].
Qed.

Lemma like_identifyCallback fails now e p :
  answersLike (identifyCallback fails now e p)
              (identifyCallback noFaults now e p).
Proof.
  unfold identifyCallback, loadCandidates, demoteOthers, createSecondaryIfNew.
  apply like_bind.
  { apply like_bind; [apply like_query|]. intros existing.
    apply like_bind; [|intros; apply like_refl].
    apply like_forEachM. intros acc i.
    apply like_bind; [apply like_query | intros; apply like_refl]. }
  intros cs. apply like_bind.
  - destruct cs as [|u others]; [apply like_query|].
    apply like_bind.
    { destruct (map id others) as [|i ids]; [apply like_refl|].
      apply like_bind; [apply like_updateContacts|]. intros _.
      apply like_bind; [apply like_mapM; intros; apply like_query|].
      intros found. destruct (List.concat found); [apply like_refl|].
      apply like_updateContacts. }
    intros _. apply like_bind; [|intros; apply like_refl].
    apply like_bind; [apply like_query|]. intros g.
    destruct (negb _ && _); [|apply like_refl].
    apply like_bind; [apply like_query | intros; apply like_refl].
  - intros u. apply like_bind; [apply like_query|].
    intros g. apply like_refl.
Qed.

(** X16.  Rejected calls can only abort a request, never alter its
    outcome: whenever [identify] answers, under whatever pattern of
    rejected calls, its response and the database it leaves are those of
    the run in which no call is rejected. *)
Theorem identify_answer_is_fault_free fails now r d resp d' :
  identify fails now r d = (inr resp, d') ->
  identify noFaults now r d = (inr resp, d').
Proof.
  unfold identify. destruct (negb _ && negb _); [discriminate|].
  revert d resp d'. change (answersLike
    (transaction fails
       (identifyCallback fails now (req_email r) (req_phoneNumber r)))
    (transaction noFaults
       (identifyCallback noFaults now (req_email r) (req_phoneNumber r)))).
  unfold transaction.
  apply like_bind; [apply like_connect|]. intros _.
  apply like_tryCatch.
  - apply like_bind; [apply like_query|]. intros _.
    apply like_bind; [apply like_identifyCallback|]. intros a.
    apply like_bind; [apply like_query|]. intros _. apply like_refl.
  - intros e d. unfold bind, queryRollback, query, throw.
    destruct (fails (qcount d)); eauto.
Qed.

(** An oracle that rejects only a call that the request does not reach. *)
Lemma identify_answer_is_fault_free_witness :
  exists resp d',
    identify (fun k => Nat.eqb k 99) 500 tc5 beforeMerge = (inr resp, d')
    /\ identify noFaults 500 tc5 beforeMerge = (inr resp, d')
    /\ d' = afterLocalTests.
Proof.
  destruct (identify (fun k => Nat.eqb k 99) 500 tc5 beforeMerge)
    as [[e|resp] d'] eqn:E.
  - vm_compute in E. discriminate.
  - exists resp, d'. split; [reflexivity|]. split.
    + exact (identify_answer_is_fault_free
               (fun k => Nat.eqb k 99) 500 tc5 beforeMerge resp d' E).
    + vm_compute in E. injection E as _ <-. reflexivity.
Defined.

(** ** Merging the candidates *)

Lemma collectSecondaryIds_In (i x : Z) (g : list Contact) :
  In x (collectSecondaryIds i g)
  <-> exists c, In c g /\ isSecondary c = true /\ linkedId c = Some i
                /\ id c = x.
Proof.
  unfold collectSecondaryIds. rewrite in_map_iff. split.
  - intros (c & Hid & Hc). apply filter_In in Hc. destruct Hc as [Hc Hb].
    apply andb_true_iff in Hb. destruct Hb as [Hs Hl].
    apply optZ_eqb_eq in Hl. exists c. auto.
  - intros (c & Hc & Hs & Hl & Hid). exists c. split; [exact Hid|].
    apply filter_In. split; [exact Hc|]. rewrite Hs. cbn.
    now apply optZ_eqb_eq.
Qed.

Lemma secondaryOf_listed now e p t s u x :
  In (secondaryOf now u x) (fst (fst (identifyRows now e p t s))) ->
  live x = true ->
  In (id x)
     (secondaryContactIds
        (assemble u (selectGroup (id u) (fst (fst (identifyRows now e p t s)))))).
Proof.
  intros Hin Hl. cbn [assemble secondaryContactIds].
  apply jsSort_In. apply collectSecondaryIds_In.
  exists (secondaryOf now u x). split; [|cbn; auto].
  apply selectGroup_In. split; [exact Hin|].
  unfold inGroup, secondaryOf, live in *. cbn. rewrite Hl, Z.eqb_refl.
  now rewrite orb_true_r.
Qed.

(** X17.  When a request touches several groups, [identify] merges them
    under the oldest candidate [u]: each other candidate is rewritten into
    a secondary of [u], each live secondary that referred to one of them
    is rewritten to refer to [u], both stamped with the current time; the
    response names [u] as primary and lists the ids of all these rows
    among the secondaries. *)
Theorem identify_merges_candidates now r t s n u others :
  uniqueIds t -> validRequest r = true ->
  candidates (req_email r) (req_phoneNumber r) t = u :: others ->
  exists resp d',
    identify noFaults now r (mkDb t s None n) = (inr resp, d')
    /\ primaryContactId resp = id u
    /\ (forall c, In c others ->
                  In (secondaryOf now u c) (table d')
                  /\ In (id c) (secondaryContactIds resp))
    /\ (forall x, In x t -> live x = true -> isSecondary x = true ->
                  refersTo (map id others) x = true ->
                  In (secondaryOf now u x) (table d')
                  /\ In (id x) (secondaryContactIds resp)).
Proof.
  intros Hu Hv Hc. destruct (identify_noFaults now r t s n Hv) as [n' H].
  set (e := req_email r) in *. set (p := req_phoneNumber r) in *.
  eexists. eexists. split; [exact H|]. cbn [table].
  rewrite identifyRows_response.
  assert (HU : ultimateOf now e p t s = u) by (unfold ultimateOf; now rewrite Hc).
  rewrite HU.
  assert (Hrows : forall x, In x t ->
                            merged now u (map id others) x = secondaryOf now u x ->
                            In (secondaryOf now u x)
                               (fst (fst (identifyRows now e p t s)))).
  { intros x Hx Hm. rewrite identifyRows_rows by assumption. rewrite Hc.
    cbn zeta. apply in_app_iff. left. rewrite <- Hm. now apply in_map. }
  split; [reflexivity|]. split.
  - intros c Hin.
    assert (Hcc : In c (candidates e p t)) by (rewrite Hc; now right).
    apply candidates_sound in Hcc. destruct Hcc as (Hct & Hl & _).
    assert (Hm : merged now u (map id others) c = secondaryOf now u c).
    { unfold merged.
      replace (memZ (id c) (map id others)) with true; [reflexivity|].
      symmetry. apply memZ_In. now apply in_map. }
    split; [now apply Hrows|]. apply secondaryOf_listed; auto.
  - intros x Hx Hl Hs Href.
    assert (Hm : merged now u (map id others) x = secondaryOf now u x).
    { unfold merged. destruct (memZ (id x) (map id others)); [reflexivity|].
      rewrite Hl, Href. cbn [andb]. unfold secondaryOf.
      unfold isSecondary in Hs. destruct (linkPrecedence x);
        [discriminate | reflexivity]. }
    split; [now apply Hrows|]. apply secondaryOf_listed; auto.
Qed.

(** TC5 of the local tests, "Merge Two Primary Groups". *)
Lemma identify_merges_candidates_witness :
  uniqueIds (table beforeMerge)
  /\ validRequest tc5 = true
  /\ exists resp d',
      identify noFaults 500 tc5 beforeMerge = (inr resp, d')
      /\ primaryContactId resp = 1
      /\ In (mkContact 4 (Some "9999999999"%string)
                       (Some "test_merge@example.com"%string) (Some 1)
                       secondary 400 500 None)
            (table d')
      /\ In 4 (secondaryContactIds resp).
Proof.
  split; [exact beforeMerge_uniqueIds|]. split; [reflexivity|].
  destruct (identify_merges_candidates
              500 tc5 (table beforeMerge) (seq beforeMerge)
              (qcount beforeMerge)
              (mkContact 1 (Some "1111111111"%string)
                         (Some "test1@example.com"%string) None primary
                         100 100 None)
              [mkContact 4 (Some "9999999999"%string)
                         (Some "test_merge@example.com"%string) None primary
                         400 400 None]
              beforeMerge_uniqueIds eq_refl)
    as (resp & d' & H & Hp & Ho & _).
  - vm_compute. reflexivity.
  - exists resp, d'. split; [exact H|]. split; [exact Hp|].
    apply (Ho (mkContact 4 (Some "9999999999"%string)
                         (Some "test_merge@example.com"%string) None primary
                         400 400 None)).
    now left.
Defined.

(** ** The groups *)

Lemma shares_sym (a b : Contact) : shares a b -> shares b a.
Proof. unfold shares. intros [(x & H1 & H2)|(x & H1 & H2)]; eauto. Qed.

Lemma joined_sym (rows : list Contact) (a b : Contact) :
  joined rows a b -> joined rows b a.
Proof.
  unfold joined. intros (H1 & H2 & H3 & H4 & H5).
  repeat split; auto using shares_sym.
Qed.

Lemma connected_sym (rows : list Contact) (a b : Contact) :
  connected rows a b -> connected rows b a.
Proof.
  unfold connected. induction 1 as [a b H| |a b c _ IH1 _ IH2].
  - apply rt_step. now apply joined_sym.
  - apply rt_refl.
  - eapply rt_trans; eauto.
Qed.

Lemma connected_trans (rows : list Contact) (a b c : Contact) :
  connected rows a b -> connected rows b c -> connected rows a c.
Proof. unfold connected. intros. eapply rt_trans; eauto. Qed.

Lemma connected_map (rows rows' : list Contact) (g : Contact -> Contact) :
  (forall a b, joined rows a b -> joined rows' (g a) (g b)) ->
  forall a b, connected rows a b -> connected rows' (g a) (g b).
Proof.
  intros Hg a b H. unfold connected in *.
  induction H as [a b H| |a b c _ IH1 _ IH2].
  - apply rt_step. now apply Hg.
  - apply rt_refl.
  - eapply rt_trans; eauto.
Qed.

Lemma connected_app (rows extra : list Contact) (a b : Contact) :
  connected rows a b -> connected (rows ++ extra) a b.
Proof.
  intros H. rewrite <- (map_id rows) in H.
  apply (connected_map rows (rows ++ extra) (fun c => c)).
  - unfold joined. intros x y (H1 & H2 & H3). rewrite !in_app_iff. auto.
  - now rewrite map_id in H.
Qed.

Lemma joined_merged now u D rows extra a b :
  joined rows a b ->
  joined (map (merged now u D) rows ++ extra)
         (merged now u D a) (merged now u D b).
Proof.
  unfold joined. intros (H1 & H2 & H3 & H4 & H5).
  rewrite !in_app_iff, !merged_live, merged_shares.
  repeat split; auto using in_map.
Qed.

(** Within a group the rows have the same primary. *)
Lemma connected_rootId (rows : list Contact) (a b : Contact) :
  grouped rows -> connected rows a b -> rootId a = rootId b.
Proof.
  intros [_ Hg] H. unfold connected in H.
  induction H as [a b (H1 & H2 & H3 & H4 & H5)| |a b c _ IH1 _ IH2].
  - now apply Hg.
  - reflexivity.
  - congruence.
Qed.

Lemma grouped_flat (rows : list Contact) : grouped rows -> flat rows.
Proof.
  intros [Hg _] c Hc Hl Hs. destruct (Hg c Hc Hl Hs) as (q & H1 & H2 & H3 & H4 & _).
  exists q. auto.
Qed.

(** The primary of a live row. *)
Lemma grouped_primary (rows : list Contact) (c : Contact) :
  grouped rows -> In c rows -> live c = true ->
  exists q,
    In q rows /\ live q = true /\ isPrimary q = true
    /\ rootId c = Some (id q) /\ createdAt q <= createdAt c
    /\ connected rows c q.
Proof.
  intros Hg Hc Hl. destruct (isPrimary c) eqn:Hp.
  - exists c. repeat split; auto.
    + now apply rootId_primary.
    + lia.
    + apply rt_refl.
  - destruct Hg as [Hg _]. destruct (Hg c Hc Hl) as (q & H1 & H2 & H3 & H4 & H5 & H6).
    { now rewrite isPrimary_isSecondary, Hp. }
    exists q. rewrite rootId_secondary by exact Hp. auto 10.
Qed.

Lemma wellFormed_oneOldestPrimary (s : Z) (rows : list Contact) :
  wellFormed s rows -> oneOldestPrimary rows.
Proof.
  intros (Hu & _ & Hg) c Hc Hl.
  destruct (grouped_primary rows c Hg Hc Hl) as (q & Q1 & Q2 & Q3 & Q4 & Q5 & Q6).
  exists q. repeat split; auto.
  - intros q' H1 H2 H3 H4.
    pose proof (connected_rootId rows c q' Hg H4) as Hr.
    rewrite Q4, (rootId_primary q' H3) in Hr. injection Hr as Hr.
    symmetry. eapply uniqueIds_inj; eauto.
  - intros c' H1 H2 H3.
    pose proof (connected_rootId rows c c' Hg H3) as Hr.
    destruct (grouped_primary rows c' Hg H1 H2) as (q' & P1 & P2 & P3 & P4 & P5 & _).
    rewrite Q4, P4 in Hr. injection Hr as Hr.
    assert (q = q') by (eapply uniqueIds_inj; eauto). now subst.
Qed.

(** What a merge does to the primary of a live row. *)
Lemma merged_rootId_map now e p rows u others a :
  uniqueIds rows ->
  candidates e p rows = u :: others ->
  In a rows -> live a = true ->
  rootId (merged now u (map id others) a)
  = option_map (fun q => if memZ q (map id others) then id u else q)
               (rootId a).
Proof.
  intros Hu Hc Ha Hl. unfold merged.
  destruct (memZ (id a) (map id others)) eqn:Hd.
  - assert (Hin : In (id a) (map id (u :: others)))
      by (right; now apply memZ_In).
    destruct (demoted_is_primary e p rows u others a Hu Hc Ha Hin) as [Hp _].
    rewrite (rootId_primary a Hp). cbn. now rewrite Hd.
  - rewrite Hl. cbn [andb]. unfold refersTo, rootId, isPrimary.
    destruct (linkPrecedence a) eqn:Hlp; cbn.
    + destruct (match linkedId a with Some l => memZ l (map id others) | None => false end);
        cbn; rewrite ?Hlp; cbn; now rewrite Hd.
    + destruct (linkedId a) as [l|] eqn:El; cbn.
      * destruct (memZ l (map id others)) eqn:Hm; cbn; rewrite ?Hlp; cbn;
          rewrite ?El; reflexivity.
      * rewrite Hlp. cbn. now rewrite El.
Qed.

Lemma holdsAll_created e p (c : Contact) :
  email c = orNull e -> phoneNumber c = orNull p -> holdsAll e p c.
Proof.
  intros He Hp. unfold holdsAll, orNull in *. split; intros H.
  - now rewrite He, H.
  - now rewrite Hp, H.
Qed.

Lemma holdsAll_exact e p (c : Contact) :
  exactMatch e p c = true -> holdsAll e p c.
Proof.
  unfold exactMatch, holdsAll. intros H. apply andb_true_iff in H.
  destruct H as [He Hp]. split; intros Ht.
  - destruct e as [x|]; [|discriminate]. now apply strictEq_eq.
  - destruct p as [x|]; [|discriminate]. now apply strictEq_eq.
Qed.

Lemma holdsAll_matches e p (h : Contact) :
  truthy e || truthy p = true -> holdsAll e p h -> live h = true ->
  matchesIdentifiers e p h = true.
Proof.
  intros Hv [He Hp] Hl. apply matchesIdentifiers_iff. split; [exact Hl|].
  unfold holdsIdentifier. apply orb_true_iff in Hv.
  destruct Hv as [Hv|Hv]; auto.
Qed.

Lemma truthy_not_None (v : option string) : truthy v = true -> v <> None.
Proof. destruct v; cbn; congruence. Qed.

(** A row found shares an identifier with a row that holds them all. *)
Lemma holdsAll_shares e p (h z : Contact) :
  holdsAll e p h -> matchesIdentifiers e p z = true -> shares z h.
Proof.
  intros [He Hp] Hm. apply matchesIdentifiers_iff in Hm.
  destruct Hm as [_ [[Ht Hz]|[Ht Hz]]].
  - left. pose proof (truthy_not_None e Ht) as Hn.
    destruct e as [x|]; [|congruence]. exists x. split; [exact Hz | now apply He].
  - right. pose proof (truthy_not_None p Ht) as Hn.
    destruct p as [x|]; [|congruence]. exists x. split; [exact Hz | now apply Hp].
Qed.

(** A live row that shares an identifier with the row created for a
    request is found by the request. *)
Lemma shares_created_matches e p (c b : Contact) :
  email c = orNull e -> phoneNumber c = orNull p ->
  shares c b -> live b = true ->
  matchesIdentifiers e p b = true.
Proof.
  intros He Hp Hs Hl. apply matchesIdentifiers_iff. split; [exact Hl|].
  unfold holdsIdentifier.
  destruct Hs as [(x & H1 & H2)|(x & H1 & H2)].
  - left. rewrite He in H1. apply orNull_Some in H1. destruct H1 as [-> Ht].
    auto.
  - right. rewrite Hp in H1. apply orNull_Some in H1. destruct H1 as [-> Ht].
    auto.
Qed.

(** After a valid request a live row holds each of its truthy
    identifiers. *)
Lemma after_request_hub now e p t s :
  truthy e || truthy p = true ->
  exists h,
    In h (fst (fst (identifyRows now e p t s)))
    /\ live h = true /\ holdsAll e p h.
Proof.
  intros Hv. unfold identifyRows.
  destruct (candidates e p t) as [|u others]; cbn [fst].
  - exists (primaryFor now s e p). split; [apply in_app_iff; cbn; auto|].
    split; [reflexivity|]. now apply holdsAll_created.
  - destruct (needsSecondary e p u _) eqn:Hn; cbn [fst].
    + exists (secondaryFor now s e p u).
      split; [apply in_app_iff; cbn; auto|].
      split; [reflexivity|]. now apply holdsAll_created.
    + unfold needsSecondary in Hn. rewrite Hv, andb_true_r in Hn.
      apply negb_false_iff in Hn. apply existsb_exists in Hn.
      destruct Hn as (x & Hx & Hex). apply selectGroup_In in Hx.
      destruct Hx as [Hx Hg]. exists x. split; [exact Hx|].
      split; [|now apply holdsAll_exact]. unfold inGroup in Hg.
      now apply andb_true_iff in Hg.
Qed.

(** A request that finds no candidate keeps the links and the groups in
    agreement. *)
Lemma founded_grouped now e p t s :
  uniqueIds t -> grouped t ->
  candidates e p t = [] ->
  grouped (t ++ [primaryFor now s e p]).
Proof.
  intros Hu Hg Hc. pose proof (grouped_flat t Hg) as Hf.
  set (c0 := primaryFor now s e p).
  assert (Hnone : forall b, In b t -> live b = true -> ~ shares c0 b).
  { intros b Hb Hl Hs.
    assert (Hm : matchesIdentifiers e p b = true)
      by (apply (shares_created_matches e p c0 b); auto).
    destruct (found_root_is_candidate e p t b Hu Hf Hb Hm) as (c & Hin & _).
    rewrite Hc in Hin. destruct Hin. }
  split.
  - intros c Hin Hl Hs. apply in_app_iff in Hin.
    destruct Hin as [Hin|[<-|[]]]; [|discriminate].
    destruct Hg as [Hg _].
    destruct (Hg c Hin Hl Hs) as (q & Q1 & Q2 & Q3 & Q4 & Q5 & Q6).
    exists q. repeat split; auto.
    + apply in_app_iff. now left.
    + now apply connected_app.
  - intros a b Ha Hb Hla Hlb Hs. apply in_app_iff in Ha, Hb.
    destruct Ha as [Ha|[<-|[]]], Hb as [Hb|[<-|[]]].
    + destruct Hg as [_ Hg]. now apply Hg.
    + apply shares_sym in Hs. now destruct (Hnone a Ha Hla).
    + now destruct (Hnone b Hb Hlb).
    + reflexivity.
Qed.

Section Merge.
Variables (now : Z) (e p : option string) (t : list Contact) (s : Z).
Variables (u : Contact) (others : list Contact).
Hypothesis Hv : truthy e || truthy p = true.
Hypothesis Hu : uniqueIds t.
Hypothesis Hg : grouped t.
Hypothesis Hclock : notAfter now t.
Hypothesis Hc : candidates e p t = u :: others.

Let g : Contact -> Contact := merged now u (map id others).
Let final : list Contact := fst (fst (identifyRows now e p t s)).

Lemma final_rows :
  exists extra,
    final = map g t ++ extra
    /\ (forall c, In c extra -> c = secondaryFor now s e p u).
Proof.
  unfold final. rewrite identifyRows_rows by exact Hu. rewrite Hc. cbn zeta.
  fold g. eexists. split; [reflexivity|].
  destruct (needsSecondary e p u (map g t)).
  - intros c [<-|[]]. reflexivity.
  - intros c [].
Qed.

Lemma final_merged (c : Contact) : In c t -> In (g c) final.
Proof.
  intros H. destruct final_rows as (extra & -> & _).
  apply in_app_iff. left. now apply in_map.
Qed.

Lemma connected_final (a b : Contact) :
  connected t a b -> connected final (g a) (g b).
Proof.
  destruct final_rows as (extra & -> & _).
  apply connected_map. intros x y. apply joined_merged.
Qed.

Lemma candidate_facts (c : Contact) :
  In c (u :: others) ->
  In c t /\ live c = true /\ isPrimary c = true
  /\ createdAt u <= createdAt c.
Proof.
  intros Hin.
  assert (Hcc : In c (candidates e p t)) by now rewrite Hc.
  apply candidates_sound in Hcc. destruct Hcc as (H1 & H2 & H3 & _).
  repeat split; auto.
  destruct Hin as [<-|Hin]; [lia|].
  destruct (@candidates_head _ _ _ _ _ Hc) as [_ Hs]. now apply Hs.
Qed.

(** Every live row found is connected to the row that holds all the
    identifiers, and so is every candidate. *)
Lemma found_connected (h z : Contact) :
  In h final -> live h = true -> holdsAll e p h ->
  In z final -> live z = true -> matchesIdentifiers e p z = true ->
  connected final z h.
Proof.
  intros H1 H2 H3 Z1 Z2 Z3. apply rt_step. unfold joined.
  repeat split; auto. now apply (holdsAll_shares e p).
Qed.

Lemma candidate_connected (h c : Contact) :
  In h final -> live h = true -> holdsAll e p h ->
  In c (u :: others) ->
  connected final (g c) h.
Proof.
  intros H1 H2 H3 Hin.
  assert (Hcc : In c (candidates e p t)) by now rewrite Hc.
  apply candidates_sound in Hcc.
  destruct Hcc as (Ct & Cl & Cp & m & Mt & Mm & Mr & Mc).
  assert (Hgm : connected final (g m) h).
  { apply found_connected; auto.
    - now apply final_merged.
    - unfold g. rewrite merged_live. now apply (@matchesIdentifiers_live e p m).
    - unfold g. now rewrite matchesIdentifiers_merged. }
  destruct Mc as [->|[Ms Ml]]; [exact Hgm|].
  destruct Hg as [Hg1 _].
  destruct (Hg1 m Mt (@matchesIdentifiers_live e p m Mm))
    as (q & Q1 & Q2 & Q3 & Q4 & _ & Q6).
  { now rewrite isPrimary_isSecondary, Ms. }
  assert (q = c).
  { eapply uniqueIds_inj; eauto. congruence. }
  subst q. apply connected_trans with (g m); [|exact Hgm].
  apply connected_sym. now apply connected_final.
Qed.

Lemma candidates_connected (c : Contact) :
  In c (u :: others) -> connected final (g c) (g u).
Proof.
  intros Hin.
  destruct (after_request_hub now e p t s Hv) as (h & H1 & H2 & H3).
  fold final in H1.
  apply connected_trans with h.
  - now apply candidate_connected.
  - apply connected_sym. apply candidate_connected; auto. now left.
Qed.

Lemma ultimate_final :
  In (g u) final /\ live (g u) = true /\ isPrimary (g u) = true
  /\ id (g u) = id u /\ createdAt (g u) = createdAt u.
Proof.
  destruct (ultimate_survives now _ _ _ Hc) as (G1 & G2 & G3 & G4).
  fold g in G1, G2, G3, G4. repeat split; auto.
  - apply final_merged. now apply (candidate_facts u); left.
  - unfold g. apply merged_createdAt.
Qed.

Lemma merged_grouped_links (c : Contact) :
  In c t -> live c = true -> isSecondary (g c) = true ->
  exists q,
    In q final /\ live q = true /\ isPrimary q = true
    /\ linkedId (g c) = Some (id q)
    /\ createdAt q <= createdAt (g c)
    /\ connected final (g c) q.
Proof.
  intros Ct Cl Cs.
  destruct ultimate_final as (U1 & U2 & U3 & U4 & U5).
  assert (Hcreated : createdAt (g c) = createdAt c)
    by (unfold g; apply merged_createdAt).
  destruct (memZ (id c) (map id others)) eqn:Hd.
  - assert (Hin : In (id c) (map id (u :: others)))
      by (right; now apply memZ_In).
    destruct (demoted_is_primary e p t u others c Hu Hc Ct Hin) as [_ Hco].
    exists (g u). repeat split; auto.
    + rewrite U4. unfold g, merged. now rewrite Hd.
    + rewrite U5, Hcreated. now apply candidate_facts.
    + now apply candidates_connected.
  - assert (Hlp : linkPrecedence (g c) = linkPrecedence c).
    { unfold g, merged. rewrite Hd.
      now destruct (live c && refersTo (map id others) c). }
    assert (Cs' : isSecondary c = true)
      by (unfold isSecondary in *; now rewrite <- Hlp).
    destruct Hg as [Hg1 _].
    destruct (Hg1 c Ct Cl Cs') as (q & Q1 & Q2 & Q3 & Q4 & Q5 & Q6).
    destruct (refersTo (map id others) c) eqn:Href.
    + assert (Hq : In (id q) (map id (u :: others))).
      { right. apply memZ_In. unfold refersTo in Href. now rewrite Q4 in Href. }
      destruct (demoted_is_primary e p t u others q Hu Hc Q1 Hq) as [_ Hqo].
      exists (g u). repeat split; auto.
      * rewrite U4. unfold g, merged. rewrite Hd, Cl, Href. reflexivity.
      * rewrite U5, Hcreated.
        destruct (candidate_facts q Hqo) as (_ & _ & _ & Hle). lia.
      * apply connected_trans with (g q).
        -- now apply connected_final.
        -- now apply candidates_connected.
    + assert (Hqd : memZ (id q) (map id others) = false)
        by (unfold refersTo in Href; now rewrite Q4 in Href).
      assert (Gl : live (g q) = true)
        by (unfold g; now rewrite merged_live).
      assert (Gp : isPrimary (g q) = true)
        by (unfold g; now rewrite merged_isPrimary, Q3, Hqd).
      assert (Gi : id (g q) = id q) by (unfold g; apply merged_id).
      assert (Gc : createdAt (g q) = createdAt q)
        by (unfold g; apply merged_createdAt).
      assert (Glink : linkedId (g c) = Some (id q)).
      { unfold g, merged. rewrite Hd, Href, andb_false_r. exact Q4. }
      exists (g q). rewrite Gi, Gc, Hcreated.
      split; [now apply final_merged|]. split; [exact Gl|].
      split; [exact Gp|]. split; [exact Glink|]. split; [exact Q5|].
      now apply connected_final.
Qed.

Lemma merged_grouped : grouped final.
Proof.
  pose proof (grouped_flat t Hg) as Hf.
  destruct final_rows as (extra & Hfinal & Hextra).
  destruct ultimate_final as (U1 & U2 & U3 & U4 & U5).
  destruct (after_request_hub now e p t s Hv) as (h & H1 & H2 & H3).
  fold final in H1.
  assert (Hnew : forall c, In c extra ->
                           rootId c = Some (id u)
                           /\ matchesIdentifiers e p c = true).
  { intros c Hin. rewrite (Hextra c Hin). split; [reflexivity|].
    apply holdsAll_matches; auto. now apply holdsAll_created. }
  assert (Hroot : forall m, In m final -> matchesIdentifiers e p m = true ->
                            rootId m = Some (id u)).
  { intros m Hm Hmm.
    pose proof (after_request_roots now e p t s m Hu Hf Hm Hmm) as Hr.
    unfold ultimateOf in Hr. now rewrite Hc in Hr. }
  split.
  - intros c Hin Hl Hs. rewrite Hfinal in Hin. apply in_app_iff in Hin.
    destruct Hin as [Hin|Hin].
    + apply in_map_iff in Hin. destruct Hin as (c0 & <- & Hc0).
      apply merged_grouped_links; auto.
      unfold g in Hl. now rewrite merged_live in Hl.
    + assert (Hcf : In c final) by (rewrite Hfinal, in_app_iff; now right).
      destruct (Hnew c Hin) as [Hr Hm].
      exists (g u). rewrite U4. repeat split; auto.
      * rewrite (Hextra c Hin). reflexivity.
      * rewrite U5, (Hextra c Hin). cbn.
        apply Hclock. now apply (candidate_facts u); left.
      * apply connected_trans with h.
        -- now apply found_connected.
        -- apply connected_sym. apply candidate_connected; auto. now left.
  - intros a b Ha Hb Hla Hlb Hs.
    assert (Hcase : (exists a0 b0, In a0 t /\ In b0 t /\ a = g a0 /\ b = g b0)
                    \/ (matchesIdentifiers e p a = true
                        /\ matchesIdentifiers e p b = true)).
    { pose proof Ha as Ha'. pose proof Hb as Hb'.
      rewrite Hfinal in Ha', Hb'. apply in_app_iff in Ha', Hb'.
      destruct Ha' as [Ha'|Ha'], Hb' as [Hb'|Hb'].
      - apply in_map_iff in Ha', Hb'.
        destruct Ha' as (a0 & <- & Ha0), Hb' as (b0 & <- & Hb0).
        left. exists a0, b0. auto.
      - right. destruct (Hnew b Hb') as [_ Hm]. split; [|exact Hm].
        apply (shares_created_matches e p b a); auto using shares_sym;
          rewrite (Hextra b Hb'); reflexivity.
      - right. destruct (Hnew a Ha') as [_ Hm]. split; [exact Hm|].
        apply (shares_created_matches e p a b); auto;
          rewrite (Hextra a Ha'); reflexivity.
      - right. destruct (Hnew a Ha'), (Hnew b Hb'). auto. }
    destruct Hcase as [(a0 & b0 & Ha0 & Hb0 & -> & ->)|[Hma Hmb]].
    + unfold g in *. rewrite merged_live in Hla, Hlb.
      apply merged_shares in Hs.
      rewrite (merged_rootId_map now e p t u others a0 Hu Hc Ha0 Hla).
      rewrite (merged_rootId_map now e p t u others b0 Hu Hc Hb0 Hlb).
      destruct Hg as [_ Hg2]. now rewrite (Hg2 a0 b0).
    + rewrite (Hroot a Ha Hma), (Hroot b Hb Hmb). reflexivity.
Qed.
End Merge.

Lemma identifyRows_notAfter now e p t s :
  uniqueIds t -> notAfter now t ->
  notAfter now (fst (fst (identifyRows now e p t s))).
Proof.
  intros Hu Hn c Hc. rewrite identifyRows_rows in Hc by exact Hu.
  destruct (candidates e p t) as [|u others].
  - apply in_app_iff in Hc. destruct Hc as [Hc|[<-|[]]]; [now apply Hn|].
    cbn. lia.
  - cbn zeta in Hc. apply in_app_iff in Hc. destruct Hc as [Hc|Hc].
    + apply in_map_iff in Hc. destruct Hc as (c0 & <- & Hc0).
      rewrite merged_createdAt. now apply Hn.
    + destruct (needsSecondary _ _ _ _); [|destruct Hc].
      destruct Hc as [<-|[]]. cbn. lia.
Qed.

Lemma identifyRows_wellFormed now e p t s :
  truthy e || truthy p = true ->
  wellFormed s t -> notAfter now t ->
  wellFormed (snd (fst (identifyRows now e p t s)))
             (fst (fst (identifyRows now e p t s))).
Proof.
  intros Hv (Hu & Hb & Hg) Hn.
  destruct (identifyRows_uniqueIds now e p t s Hu Hb) as [Hu' Hb'].
  split; [exact Hu'|]. split; [exact Hb'|].
  destruct (candidates e p t) as [|u others] eqn:Hc.
  - unfold identifyRows. rewrite Hc. cbn [fst].
    now apply founded_grouped.
  - now apply (merged_grouped now e p t s u others).
Qed.

(** One request keeps a well-formed table well-formed. *)
Lemma step_wellFormed now r d :
  session d = None ->
  wellFormed (seq d) (table d) -> notAfter now (table d) ->
  session (snd (identify noFaults now r d)) = None
  /\ wellFormed (seq (snd (identify noFaults now r d)))
                (table (snd (identify noFaults now r d)))
  /\ notAfter now (table (snd (identify noFaults now r d))).
Proof.
  intros Hs Hw Hn. destruct (validRequest r) eqn:Hv.
  - destruct d as [t s ss n]. cbn in Hs, Hw, Hn. subst ss.
    destruct (identify_noFaults now r t s n Hv) as [n' H]. rewrite H.
    cbn [snd session seq table]. split; [reflexivity|]. split.
    + now apply identifyRows_wellFormed.
    + destruct Hw as (Hu & _). now apply identifyRows_notAfter.
  - rewrite identify_invalid by exact Hv. cbn [snd]. auto.
Qed.

Lemma notAfter_later (lo now : Z) (rows : list Contact) :
  lo <= now -> notAfter lo rows -> notAfter now rows.
Proof. intros Hle Hn c Hc. specialize (Hn c Hc). lia. Qed.

Lemma runAll_wellFormed (requests : list (Z * IdentifyRequest)) :
  forall lo d,
    session d = None ->
    wellFormed (seq d) (table d) -> notAfter lo (table d) ->
    nonDecreasing lo requests ->
    wellFormed (seq (runAll requests d)) (table (runAll requests d)).
Proof.
  induction requests as [|[now r] rest IH]; intros lo d Hs Hw Hn Ht.
  - exact Hw.
  - cbn in Ht. destruct Ht as [Hle Ht].
    destruct (step_wellFormed now r d Hs Hw (notAfter_later lo now _ Hle Hn))
      as (Hs' & Hw' & Hn').
    unfold runAll. cbn [fold_left fst snd].
    exact (IH now _ Hs' Hw' Hn' Ht).
Qed.


Lemma emptyDb_wellFormed : wellFormed (seq emptyDb) (table emptyDb).
Proof.
  split; [constructor|]. split; [intros c []|].
  split; [intros c []|intros a b []].
Qed.


(** ** More on the response *)

(** After a valid request a live row of the group of the surviving primary
    holds each truthy identifier of the request. *)
Lemma after_request_hub_in_group now e p t s :
  truthy e || truthy p = true ->
  exists h,
    In h (selectGroup (id (ultimateOf now e p t s))
                      (fst (fst (identifyRows now e p t s))))
    /\ holdsAll e p h.
Proof.
  intros Hv. unfold identifyRows, ultimateOf.
  destruct (candidates e p t) as [|u others]; cbn [fst].
  - exists (primaryFor now s e p). split; [|now apply holdsAll_created].
    apply selectGroup_In. split; [apply in_app_iff; cbn; auto|].
    unfold inGroup. cbn. now rewrite Z.eqb_refl.
  - destruct (needsSecondary e p u _) eqn:Hn; cbn [fst].
    + exists (secondaryFor now s e p u). split; [|now apply holdsAll_created].
      apply selectGroup_In. split; [apply in_app_iff; cbn; auto|].
      unfold inGroup. cbn. rewrite Z.eqb_refl. now rewrite orb_true_r.
    + unfold needsSecondary in Hn. rewrite Hv, andb_true_r in Hn.
      apply negb_false_iff in Hn. apply existsb_exists in Hn.
      destruct Hn as (x & Hx & Hex). exists x. split; [exact Hx|].
      now apply holdsAll_exact.
Qed.

(** X19.  The response names what the request gave: every non-empty
    email of a valid request is in [emails], every non-empty phone number
    in [phoneNumbers]. *)
Theorem identify_response_holds_request now r t s n :
  validRequest r = true ->
  exists resp d',
    identify noFaults now r (mkDb t s None n) = (inr resp, d')
    /\ (forall x, req_email r = Some x -> x <> ""%string ->
                  In x (emails resp))
    /\ (forall x, req_phoneNumber r = Some x -> x <> ""%string ->
                  In x (phoneNumbers resp)).
Proof.
  intros Hv. destruct (identify_noFaults now r t s n Hv) as [n' H].
  set (e := req_email r) in *. set (p := req_phoneNumber r) in *.
  eexists. eexists. split; [exact H|].
  rewrite identifyRows_response. cbn [assemble emails phoneNumbers].
  destruct (after_request_hub_in_group now e p t s Hv) as (h & Hh & He & Hp).
  split; intros x Hx Hne; apply jsSort_In.
  - apply collectEmails_spec. exists h. split; [exact Hh|].
    split; [|exact Hne]. rewrite <- Hx. apply He. rewrite Hx.
    now apply truthy_Some.
  - apply collectPhones_spec. exists h. split; [exact Hh|].
    split; [|exact Hne]. rewrite <- Hx. apply Hp. rewrite Hx.
    now apply truthy_Some.
Qed.

Lemma identify_response_holds_request_witness :
  validRequest tc6 = true
  /\ exists resp d',
      identify noFaults 600 tc6 afterLocalTests = (inr resp, d')
      /\ In "test1_alt@example.com"%string (emails resp)
      /\ In "9999999999"%string (phoneNumbers resp).
Proof.
  split; [reflexivity|].
  destruct (identify_response_holds_request
              600 tc6 (table afterLocalTests) (seq afterLocalTests)
              (qcount afterLocalTests) eq_refl)
    as (resp & d' & H & He & Hp).
  exists resp, d'. split; [exact H|]. split.
  - apply He; [reflexivity | discriminate].
  - apply Hp; [reflexivity | discriminate].
Defined.

Lemma NoDup_map_filter A B (f : A -> B) (g : A -> bool) (l : list A) :
  NoDup (map f l) -> NoDup (map f (filter g l)).
Proof.
  induction l as [|x l IH]; cbn; intros H; [constructor|].
  inversion H as [|? ? Hx Hl]; subst.
  destruct (g x); cbn; [|now apply IH].
  constructor; [|now apply IH].
  intros Hin. apply Hx. apply in_map_iff in Hin.
  destruct Hin as (y & Hy & Hin). apply filter_In in Hin.
  apply in_map_iff. exists y. tauto.
Qed.

(** X20.  With unique ids below the sequence, [secondaryContactIds] has no
    duplicate and does not contain [primaryContactId]. *)
Theorem identify_secondary_ids_distinct now r t s n :
  uniqueIds t -> idsBelow s t -> validRequest r = true ->
  exists resp d',
    identify noFaults now r (mkDb t s None n) = (inr resp, d')
    /\ NoDup (secondaryContactIds resp)
    /\ ~ In (primaryContactId resp) (secondaryContactIds resp).
Proof.
  intros Hu Hb Hv. destruct (identify_noFaults now r t s n Hv) as [n' H].
  set (e := req_email r) in *. set (p := req_phoneNumber r) in *.
  eexists. eexists. split; [exact H|].
  rewrite identifyRows_response.
  cbn [assemble primaryContactId secondaryContactIds].
  set (U := ultimateOf now e p t s).
  set (rows' := fst (fst (identifyRows now e p t s))).
  destruct (identifyRows_uniqueIds now e p t s Hu Hb) as [Hu' _].
  fold rows' in Hu'.
  assert (Hperm : Permutation
                    (jsSort Z.leb (collectSecondaryIds (id U) (selectGroup (id U) rows')))
                    (map id (subordinatesOf (id U) rows'))).
  { rewrite jsSort_perm. apply collectSecondaryIds_perm. }
  split.
  - eapply Permutation_NoDup; [symmetry; exact Hperm|].
    unfold subordinatesOf. now apply NoDup_map_filter.
  - intros Hin. apply (Permutation_in _ Hperm) in Hin.
    apply in_map_iff in Hin. destruct Hin as (c & Hid & Hc).
    unfold subordinatesOf in Hc. apply filter_In in Hc.
    destruct Hc as [Hc Hf]. apply andb_true_iff in Hf.
    destruct Hf as [Hf _]. apply andb_true_iff in Hf. destruct Hf as [Hs _].
    destruct (ultimate_in_rows now e p t s) as (u' & U1 & U2 & U3 & U4).
    fold rows' U in U1, U4.
    assert (c = u') by (eapply uniqueIds_inj; eauto; congruence).
    subst c. rewrite isPrimary_isSecondary, U3 in Hs. discriminate.
Qed.

Lemma identify_secondary_ids_distinct_witness :
  uniqueIds (table beforeMerge)
  /\ idsBelow (seq beforeMerge) (table beforeMerge)
  /\ validRequest tc5 = true
  /\ exists resp d',
      identify noFaults 500 tc5 beforeMerge = (inr resp, d')
      /\ NoDup (secondaryContactIds resp)
      /\ ~ In (primaryContactId resp) (secondaryContactIds resp).
Proof.
  split; [exact beforeMerge_uniqueIds|].
  split; [exact beforeMerge_idsBelow|]. split; [reflexivity|].
  apply (identify_secondary_ids_distinct
           500 tc5 (table beforeMerge) (seq beforeMerge) (qcount beforeMerge)
           beforeMerge_uniqueIds beforeMerge_idsBelow eq_refl).
Defined.
